(** * CircuitBuilder analysis engine: topology extraction and MNA solver

    A shallow embedding of [engine/graph.ts] ([extractNodes]) and
    [engine/solver.ts] ([solveCircuit]) together with the data types of
    [types/circuit.ts], and the properties of the engine stated in the
    specification; followed by the circuit actions of the editor state
    ([store/circuitStore.ts]), the short-circuit highlighting of the canvas
    ([components/Canvas.tsx]) and the derivation shown to the user
    ([engine/explanation.ts]), with further properties of all of them.

    JavaScript numbers are IEEE 754 binary64 values and are modelled by the
    primitive floats of the kernel, whose operations are specified in
    [SpecFloat]; strings are [string]; the [Map] used by the union-find is a
    [gmap string string]; the insertion-ordered [Map] of node groups is an
    association list; a plain object used as a dictionary is the [gmap] of
    its own properties. *)

From Stdlib Require Import ZArith Lia Floats.
From stdpp Require Import base option list relations strings gmap pretty.

Set Warnings "-clear-no-such-hyp".

Local Open Scope string_scope.
Local Open Scope list_scope.
Local Open Scope Z_scope.

(** ** Data types ([types/circuit.ts]) *)

Inductive ElementType := Resistor | VoltageSource | CurrentSource | VCVS.

Inductive TerminalName := NameA | NameB | NameC | NameD.

Record Terminal := mkTerminal {
  t_id : string;
  t_elementId : string;
  t_name : TerminalName;
  t_x : float;
  t_y : float
}.

Record CircuitElement := mkElement {
  e_id : string;
  e_type : ElementType;
  e_x : float;
  e_y : float;
  e_rotation : float;
  e_value : float;
  e_label : string;
  e_terminals : list Terminal
}.

Record Wire := mkWire {
  w_id : string;
  w_points : list (float * float);
  startTerminalId : option string;
  endTerminalId : option string
}.

Record ElectricalNode := mkNode {
  n_id : Z;
  n_terminals : list Terminal
}.

#[global] Instance ElementType_eq_dec : EqDecision ElementType.
Proof. solve_decision. Defined.

(** ** Topology extraction ([engine/graph.ts]) *)

Module Graph.

(** [elements.flatMap(e => e.terminals)] *)
Definition allTerminals (elements : list CircuitElement) : list Terminal :=
  concat (map e_terminals elements).

(** The [parent] map of the union-find. *)
Abbreviation UF := (gmap string string).

(** [getParent]: the source function is recursive and mutates [parent]; the
    map is threaded through, and [fuel] bounds the recursion depth ([None]
    when it is exhausted). *)
Fixpoint getParent (fuel : nat) (parent : UF) (id : string)
  : option (string * UF) :=
  match fuel with
  | O => None
  | S fuel' =>
    match parent !! id with
    | None =>
      (* [parent.set(id, id)]; then [parent.get(id) === id] *)
      Some (id, <[id := id]> parent)
    | Some p =>
      if decide (p = id) then Some (id, parent)
      else
        match getParent fuel' parent p with
        | None => None
        | Some (r, parent') =>
          (* [parent.set(id, r); return parent.get(id)] *)
          Some (r, <[id := r]> parent')
        end
    end
  end.

Definition union (fuel : nat) (parent : UF) (id1 id2 : string) : option UF :=
  match getParent fuel parent id1 with
  | None => None
  | Some (root1, parent1) =>
    match getParent fuel parent1 id2 with
    | None => None
    | Some (root2, parent2) =>
      Some (if decide (root1 = root2) then parent2
            else <[root1 := root2]> parent2)
    end
  end.

(** Truthiness of an optional string: [undefined] and the empty string are
    falsy. *)
Definition truthy (o : option string) : bool :=
  match o with
  | None => false
  | Some s => negb (String.eqb s "")
  end.

(** A wire takes part in the extraction when both of its ends are bound. *)
Definition bound (w : Wire) : bool :=
  truthy (startTerminalId w) && truthy (endTerminalId w).

(** Step 3: [for (const wire of wires) ...] *)
Fixpoint connectWires (fuel : nat) (parent : UF) (wires : list Wire)
  : option UF :=
  match wires with
  | [] => Some parent
  | wire :: rest =>
    match startTerminalId wire, endTerminalId wire with
    | Some s, Some e =>
      if bound wire then
        match union fuel parent s e with
        | None => None
        | Some parent' => connectWires fuel parent' rest
        end
      else connectWires fuel parent rest
    | _, _ => connectWires fuel parent rest
    end
  end.

(** The [nodeGroups] map: keys in insertion order. *)
Abbreviation Groups := (list (string * list Terminal)).

(** [if (!nodeGroups.has(root)) nodeGroups.set(root, []);
     nodeGroups.get(root).push(t)] *)
Fixpoint pushGroup (root : string) (t : Terminal) (g : Groups) : Groups :=
  match g with
  | [] => [(root, [t])]
  | (k, ts) :: g' =>
    if decide (k = root) then (k, ts ++ [t]) :: g'
    else (k, ts) :: pushGroup root t g'
  end.

(** Step 4: [for (const t of allTerminals) ...] *)
Fixpoint groupTerminals (fuel : nat) (parent : UF) (ts : list Terminal)
    (g : Groups) : option Groups :=
  match ts with
  | [] => Some g
  | t :: rest =>
    match getParent fuel parent (t_id t) with
    | None => None
    | Some (root, parent') =>
      groupTerminals fuel parent' rest (pushGroup root t g)
    end
  end.

(** [Array.from(nodeGroups.values()).map(terminals => ({id: -1, terminals}))] *)
Definition nodesData (g : Groups) : list ElectricalNode :=
  map (fun kv => mkNode (-1) (snd kv)) g.

(** The comparator of the sort, [b.terminals.length - a.terminals.length]. *)
Definition compareNodes (a b : ElectricalNode) : Z :=
  Z.of_nat (length (n_terminals b)) - Z.of_nat (length (n_terminals a)).

(** [Array.prototype.sort] is a stable sort; it is modelled by a stable
    insertion sort ([a] stays in front of [b] unless the comparator is
    positive). *)
Fixpoint insertNode (a : ElectricalNode) (l : list ElectricalNode)
  : list ElectricalNode :=
  match l with
  | [] => [a]
  | b :: l' =>
    if decide (compareNodes a b <= 0) then a :: b :: l'
    else b :: insertNode a l'
  end.

Definition sortNodes (l : list ElectricalNode) : list ElectricalNode :=
  foldr insertNode [] l.

(** [nodesData.map((node, i) => ({...node, id: i}))] *)
Definition assignIds (l : list ElectricalNode) : list ElectricalNode :=
  imap (fun i node => mkNode (Z.of_nat i) (n_terminals node)) l.

(** [extractNodes], for a given sorting routine and recursion budget. *)
Definition extractNodesWith
    (sort : list ElectricalNode -> list ElectricalNode) (fuel : nat)
    (elements : list CircuitElement) (wires : list Wire)
  : option (list ElectricalNode) :=
  match connectWires fuel ∅ wires with
  | None => None
  | Some parent =>
    match groupTerminals fuel parent (allTerminals elements) [] with
    | None => None
    | Some g => Some (assignIds (sort (nodesData g)))
    end
  end.

(** Every union deepens the forest by at most one level, so a budget of one
    more than the number of wires is never exhausted
    (see [extractNodes_total]). *)
Definition extractNodes (elements : list CircuitElement) (wires : list Wire)
  : option (list ElectricalNode) :=
  extractNodesWith sortNodes (S (length wires)) elements wires.

End Graph.

(** ** The MNA solver ([engine/solver.ts]) *)

Module Solver.
Import Graph.

(** The result: three plain objects, each given by its own properties. *)
Record SolverResult := mkResult {
  nodeVoltages : gmap Z float;
  elementCurrents : gmap string float;
  elementPower : gmap string float
}.

(** [{ nodeVoltages: {}, elementCurrents: {}, elementPower: {} }] *)
Definition emptyResult : SolverResult := mkResult ∅ ∅ ∅.

(** A dense matrix, as the rows of its entries. *)
Abbreviation Matrix := (list (list float)).

(** The two routines of the [mathjs] dependency that do arithmetic. The
    package is not part of the repository, so the solver is parameterised by
    them; [None] stands for a thrown exception. *)
Record MathLib := mkMathLib {
  inv : Matrix -> option Matrix;
  multiply : Matrix -> Matrix -> option Matrix
}.

(** [mathjs.zeros(r, c)] *)
Definition zeros (r c : nat) : Matrix := replicate r (replicate c 0%float).

(** [M.get([i, j])]; an index outside the matrix raises a [RangeError]. *)
Definition get (M : Matrix) (i j : Z) : option float :=
  if decide (0 <= i /\ 0 <= j) then
    row ← M !! Z.to_nat i; row !! Z.to_nat j
  else None.

(** [M.set([i, j], v)]. A negative index raises a [RangeError]; [mathjs]
    grows the matrix when an index lies beyond its size, which the solver
    never does (every index it uses is below [A_size], see
    [assemble_returns]), so that case is modelled as a failure too. *)
Definition set (M : Matrix) (i j : Z) (v : float) : option Matrix :=
  if decide (0 <= i /\ 0 <= j) then
    row ← M !! Z.to_nat i;
    if decide (Z.to_nat j < length row)%nat
    then Some (<[Z.to_nat i := <[Z.to_nat j := v]> row]> M)
    else None
  else None.

(** [M.set([i, j], M.get([i, j]) + v)] and [M.set([i, j], M.get([i, j]) - v)] *)
Definition addAt (M : Matrix) (i j : Z) (v : float) : option Matrix :=
  old ← get M i j; set M i j (old + v)%float.

Definition subAt (M : Matrix) (i j : Z) (v : float) : option Matrix :=
  old ← get M i j; set M i j (old - v)%float.

(** [nodes.find(n => n.terminals.some(t => t.id === terminalId))],
    then [node ? node.id : -1] *)
Definition hasTerminal (terminalId : string) (n : ElectricalNode) : bool :=
  existsb (fun t => bool_decide (t_id t = terminalId)) (n_terminals n).

Definition getNodeIndex (nodes : list ElectricalNode) (terminalId : string)
  : Z :=
  match List.find (hasTerminal terminalId) nodes with
  | Some node => n_id node
  | None => -1
  end.

(** [element.terminals[k].id]; a missing terminal raises a [TypeError]. *)
Definition terminalId (element : CircuitElement) (k : nat) : option string :=
  t_id <$> e_terminals element !! k.

(** [1e-12], the binary64 number nearest to it. *)
Definition GMIN : float := 0x1.19799812dea11p-40%float.

(** An action guarded by [if (cond) ...]. *)
Definition when {A} (cond : bool) (act : A -> option A) (a : A) : option A :=
  if cond then act a else Some a.

(** The resistor stamp (lines 45-58), for conductance [g] between node
    indices [t1] and [t2]. *)
Definition stampResistor (g : float) (t1 t2 : Z) (A : Matrix)
  : option Matrix :=
  A ← when (bool_decide (t1 > 0)) (fun A => addAt A (t1 - 1) (t1 - 1) g) A;
  A ← when (bool_decide (t2 > 0)) (fun A => addAt A (t2 - 1) (t2 - 1) g) A;
  when (bool_decide (t1 > 0) && bool_decide (t2 > 0))
    (fun A => A ← subAt A (t1 - 1) (t2 - 1) g; subAt A (t2 - 1) (t1 - 1) g) A.

(** The current-source stamp (lines 60-65): the value enters [tA] and
    leaves [tB]. *)
Definition stampCurrentSource (value : float) (tA tB : Z) (z : Matrix)
  : option Matrix :=
  z ← when (bool_decide (tA > 0)) (fun z => addAt z (tA - 1) 0 value) z;
  when (bool_decide (tB > 0)) (fun z => subAt z (tB - 1) 0 value) z.

(** The body of the first [elements.forEach] (lines 43-67). *)
Definition stampElement (nodes : list ElectricalNode)
    (Az : Matrix * Matrix) (element : CircuitElement)
  : option (Matrix * Matrix) :=
  let '(A, z) := Az in
  match e_type element with
  | Resistor =>
    let g := (1 / e_value element)%float in
    i0 ← terminalId element 0;
    i1 ← terminalId element 1;
    A ← stampResistor g (getNodeIndex nodes i0) (getNodeIndex nodes i1) A;
    Some (A, z)
  | CurrentSource =>
    i0 ← terminalId element 0;
    i1 ← terminalId element 1;
    z ← stampCurrentSource (e_value element)
          (getNodeIndex nodes i0) (getNodeIndex nodes i1) z;
    Some (A, z)
  | _ => Some (A, z)
  end.

(** A [forEach] whose body may throw. *)
Fixpoint forEach {S E} (body : S -> E -> option S) (l : list E) (s : S)
  : option S :=
  match l with
  | [] => Some s
  | e :: l' => s ← body s e; forEach body l' s
  end.

(** [for (let i = 0; i < numNodes; i++) A.set([i, i], A.get([i, i]) + GMIN)],
    as a loop over [i = start, ..., start + count - 1]. *)
Fixpoint addGmin (count : nat) (start : Z) (A : Matrix) : option Matrix :=
  match count with
  | O => Some A
  | S count' => A ← addAt A start start GMIN; addGmin count' (start + 1) A
  end.

(** [elements.filter(e => e.type === 'VoltageSource' || e.type === 'VCVS')] *)
Definition isVSource (e : CircuitElement) : bool :=
  bool_decide (e_type e = VoltageSource) || bool_decide (e_type e = VCVS).

Definition vSources (elements : list CircuitElement) : list CircuitElement :=
  filter (fun e => isVSource e = true) elements.

(** The "B" block of a source (lines 82-84): its column [vIdx]. *)
Definition stampB (vIdx posNode negNode : Z) (A : Matrix) : option Matrix :=
  A ← when (bool_decide (posNode > 0)) (fun A => set A (posNode - 1) vIdx 1) A;
  when (bool_decide (negNode > 0)) (fun A => set A (negNode - 1) vIdx (-1)) A.

(** The output terminals in the "C" block (lines 88-89 and 96-97): the row
    [vIdx] of the source. *)
Definition stampC (vIdx posNode negNode : Z) (A : Matrix) : option Matrix :=
  A ← when (bool_decide (posNode > 0)) (fun A => set A vIdx (posNode - 1) 1) A;
  when (bool_decide (negNode > 0)) (fun A => set A vIdx (negNode - 1) (-1)) A.

(** The input terminals of a VCVS in the "C" block (lines 98-99). *)
Definition stampGain (vIdx : Z) (gain : float) (inPosNode inNegNode : Z)
    (A : Matrix) : option Matrix :=
  A ← when (bool_decide (inPosNode > 0))
        (fun A => set A vIdx (inPosNode - 1) (- gain)) A;
  when (bool_decide (inNegNode > 0))
    (fun A => set A vIdx (inNegNode - 1) gain) A.

(** The body of the first [vSources.forEach] (lines 75-102), for the source
    at position [idx]. *)
Definition stampVSource (nodes : list ElectricalNode) (numNodes : Z)
    (Az : Matrix * Matrix) (idx : Z) (vSource : CircuitElement)
  : option (Matrix * Matrix) :=
  let '(A, z) := Az in
  let vIdx := numNodes + idx in
  i0 ← terminalId vSource 0;
  let posNode := getNodeIndex nodes i0 in
  i1 ← terminalId vSource 1;
  let negNode := getNodeIndex nodes i1 in
  A ← stampB vIdx posNode negNode A;
  match e_type vSource with
  | VoltageSource =>
    A ← stampC vIdx posNode negNode A;
    z ← set z vIdx 0 (e_value vSource);
    Some (A, z)
  | VCVS =>
    let gain := e_value vSource in
    i2 ← terminalId vSource 2;
    let inPosNode := getNodeIndex nodes i2 in
    i3 ← terminalId vSource 3;
    let inNegNode := getNodeIndex nodes i3 in
    A ← stampC vIdx posNode negNode A;
    A ← stampGain vIdx gain inPosNode inNegNode A;
    Some (A, z)
  | _ => Some (A, z)
  end.

(** A [forEach((e, idx) => ...)] whose body may throw, from index [idx]. *)
Fixpoint forEachIdx {S E} (body : S -> Z -> E -> option S) (idx : Z)
    (l : list E) (s : S) : option S :=
  match l with
  | [] => Some s
  | e :: l' => s ← body s idx e; forEachIdx body (idx + 1) l' s
  end.

(** Matrix assembly (lines 27-102): the matrix [A] and the vector [z]. *)
Definition assemble (nodes : list ElectricalNode)
    (elements : list CircuitElement) : option (Matrix * Matrix) :=
  let numNodes := Z.of_nat (length nodes) - 1 in
  let m := Z.of_nat (length (vSources elements)) in
  let A_size := Z.to_nat (numNodes + m) in
  let A := zeros A_size A_size in
  let z := zeros A_size 1 in
  Az ← forEach (stampElement nodes) elements (A, z);
  A ← addGmin (Z.to_nat numNodes) 0 (fst Az);
  forEachIdx (stampVSource nodes numNodes) 0 (vSources elements) (A, snd Az).

(** Reading a number out of an object: a missing key yields [undefined],
    which arithmetic turns into [NaN]. *)
Definition toNumber (v : option float) : float :=
  match v with
  | Some x => x
  | None => nan
  end.

(** [nodeVoltages[i + 1] = x.get([i, 0])] for [i = start, ...] (lines 116-118) *)
Fixpoint extractVoltages (count : nat) (start : Z) (x : Matrix)
    (nv : gmap Z float) : option (gmap Z float) :=
  match count with
  | O => Some nv
  | S count' =>
    v ← get x start 0;
    extractVoltages count' (start + 1) x (<[start + 1 := v]> nv)
  end.

(** [obj[key] = v] on a plain object ([Record<string, number>], created as
    [{}]) with a number [v]: every key becomes an own property of the object
    except ["__proto__"], where the assignment runs the setter inherited from
    [Object.prototype]; the setter ignores a value that is neither an object
    nor [null], so the object is left as it was. *)
Definition assign (key : string) (v : float) (obj : gmap string float)
  : gmap string float :=
  if decide (key = "__proto__") then obj else <[key := v]> obj.

(** The body of the second [vSources.forEach] (lines 124-136); the state is
    the pair of [elementCurrents] and [elementPower]. *)
Definition deriveVSource (nodes : list ElectricalNode) (numNodes : Z)
    (x : Matrix) (nv : gmap Z float)
    (cp : gmap string float * gmap string float) (idx : Z)
    (vSource : CircuitElement)
  : option (gmap string float * gmap string float) :=
  let '(currents, power) := cp in
  current ← get x (numNodes + idx) 0;
  let currents := assign (e_id vSource) current currents in
  i0 ← terminalId vSource 0;
  let posNode := getNodeIndex nodes i0 in
  i1 ← terminalId vSource 1;
  let negNode := getNodeIndex nodes i1 in
  let vDelta := (toNumber (nv !! posNode) - toNumber (nv !! negNode))%float in
  Some (currents, assign (e_id vSource) (- (vDelta * current))%float power).

(** The body of the last [elements.forEach] (lines 138-157). *)
Definition deriveElement (nodes : list ElectricalNode) (nv : gmap Z float)
    (cp : gmap string float * gmap string float) (element : CircuitElement)
  : option (gmap string float * gmap string float) :=
  let '(currents, power) := cp in
  match e_type element with
  | Resistor =>
    i0 ← terminalId element 0;
    let posNode := getNodeIndex nodes i0 in
    i1 ← terminalId element 1;
    let negNode := getNodeIndex nodes i1 in
    let startV := toNumber (nv !! posNode) in
    let endV := toNumber (nv !! negNode) in
    let current := ((startV - endV) / e_value element)%float in
    Some (assign (e_id element) current currents,
          assign (e_id element) (abs (current * current * e_value element))%float
            power)
  | CurrentSource =>
    let current := e_value element in
    i0 ← terminalId element 0;
    let posNode := getNodeIndex nodes i0 in
    i1 ← terminalId element 1;
    let negNode := getNodeIndex nodes i1 in
    let vDelta := (toNumber (nv !! posNode) - toNumber (nv !! negNode))%float in
    Some (assign (e_id element) current currents,
          assign (e_id element) (vDelta * current)%float power)
  | _ => Some (currents, power)
  end.

(** Lines 114-159: the result read off the solution vector [x]. *)
Definition deriveResult (nodes : list ElectricalNode)
    (elements : list CircuitElement) (x : Matrix) : option SolverResult :=
  let numNodes := Z.of_nat (length nodes) - 1 in
  nv ← extractVoltages (Z.to_nat numNodes) 0 x {[ 0 := 0%float ]};
  cp ← forEachIdx (deriveVSource nodes numNodes x nv) 0 (vSources elements)
         (∅, ∅);
  cp ← forEach (deriveElement nodes nv) elements cp;
  Some (mkResult nv (fst cp) (snd cp)).

(** [try { x = multiply(inv(A), z) } catch (err) { ... }]: [None] when
    either call throws. *)
Definition solveSystem (lib : MathLib) (A z : Matrix) : option Matrix :=
  A_inv ← inv lib A; multiply lib A_inv z.

(** Lines 23-159, for the node list returned by [extractNodes]. *)
Definition solveNodes (lib : MathLib) (nodes : list ElectricalNode)
    (elements : list CircuitElement) : option SolverResult :=
  let numNodes := Z.of_nat (length nodes) - 1 in
  if decide (numNodes <= 0) then Some emptyResult
  else
    Az ← assemble nodes elements;
    match solveSystem lib (fst Az) (snd Az) with
    | None => Some emptyResult
    | Some x => deriveResult nodes elements x
    end.

(** [solveCircuit]. The outcome is [None] when an exception escapes the
    function (a missing terminal, an index out of range). *)
Definition solveCircuit (lib : MathLib) (elements : list CircuitElement)
    (wires : list Wire) : option SolverResult :=
  match elements with
  | [] => Some emptyResult
  | _ =>
    nodes ← extractNodes elements wires;
    solveNodes lib nodes elements
  end.

End Solver.

(** ** The dense routines of [mathjs]

    A model of [inv] and [multiply] of the [mathjs] package on dense
    matrices of numbers: the inverse of a 1x1 and of a 2x2 matrix by the
    closed formulas, with a test of the entry or the determinant against
    zero, and Gauss-Jordan elimination with row pivoting for larger ones,
    which throws when the largest candidate pivot is zero. It is used to run
    the solver on concrete circuits; the general results below hold for any
    [MathLib]. *)

Module MathJS.
Import Solver.

Definition entry (M : Matrix) (r c : nat) : float :=
  default nan (row ← M !! r; row !! c).

Definition isSquare (M : Matrix) : bool :=
  forallb (fun row => Nat.eqb (length row) (length M)) M.

(** [identity(n)] *)
Definition identity (n : nat) : Matrix :=
  map (fun r => map (fun c => if Nat.eqb r c then 1%float else 0%float)
                    (seq 0 n)) (seq 0 n).

(** Pivot search in column [c], over the rows [r, ..., r + count - 1]:
    the first row with the largest magnitude. *)
Fixpoint findPivot (A : Matrix) (c r count : nat) (ABig : float)
    (rBig : nat) : float * nat :=
  match count with
  | O => (ABig, rBig)
  | S count' =>
    let v := abs (entry A r c) in
    if (ABig <? v)%float then findPivot A c (S r) count' v r
    else findPivot A c (S r) count' ABig rBig
  end.

Definition swapRows (M : Matrix) (i j : nat) : Matrix :=
  match M !! i, M !! j with
  | Some ri, Some rj => <[j := ri]> (<[i := rj]> M)
  | _, _ => M
  end.

(** One row of the reduction for column [c]: row [c] itself is normalised,
    any other row with a non-zero entry in column [c] is eliminated with the
    current contents of row [c]. *)
Definition reduceRow (c : nat) (AB : Matrix * Matrix) (r : nat)
  : Matrix * Matrix :=
  let '(A, B) := AB in
  let Ac := default [] (A !! c) in
  let Bc := default [] (B !! c) in
  let Ar := default [] (A !! r) in
  let Br := default [] (B !! r) in
  if Nat.eqb r c then
    let f := entry A c c in
    (<[r := imap (fun s v => if Nat.leb c s then (v / f)%float else v) Ar]> A,
     <[r := map (fun v => (v / f)%float) Br]> B)
  else if (entry A r c =? 0)%float then (A, B)
  else
    let f := (- entry A r c / entry A c c)%float in
    (<[r := imap (fun s v => if Nat.leb c s
                             then (v + f * default nan (Ac !! s))%float
                             else v) Ar]> A,
     <[r := imap (fun s v => (v + f * default nan (Bc !! s))%float) Br]> B).

(** Gauss-Jordan elimination with row pivoting, columns [c, c+1, ...]. *)
Fixpoint gaussJordan (count c : nat) (AB : Matrix * Matrix)
  : option Matrix :=
  match count with
  | O => Some (snd AB)
  | S count' =>
    let '(A, B) := AB in
    let rows := length A in
    let '(ABig, rBig) :=
      findPivot A c (S c) (rows - S c) (abs (entry A c c)) c in
    if (ABig =? 0)%float then None
    else
      let AB := if Nat.eqb rBig c then (A, B)
                else (swapRows A c rBig, swapRows B c rBig) in
      gaussJordan count' (S c) (foldl (reduceRow c) AB (seq 0 rows))
  end.

Definition inv (M : Matrix) : option Matrix :=
  if negb (isSquare M) then None
  else
    match M with
    | [] => None
    | [[value]] =>
      if (value =? 0)%float then None else Some [[(1 / value)%float]]
    | [[a; b]; [c; d]] =>
      let det := (a * d - c * b)%float in
      if (det =? 0)%float then None
      else Some [[(d / det)%float; (- b / det)%float];
                 [(- c / det)%float; (a / det)%float]]
    | _ => gaussJordan (length M) 0 (M, identity (length M))
    end.

(** The sum of products of a row of the left matrix with column [j] of the
    right one, accumulated from the first product. *)
Definition dot (row : list float) (B : Matrix) (j : nat) : float :=
  match row with
  | [] => 0%float
  | a :: row' =>
    fst (foldl (fun '(sum, x) a => ((sum + a * entry B x j)%float, S x))
               ((a * entry B 0 j)%float, 1%nat) row')
  end.

Definition multiply (A B : Matrix) : option Matrix :=
  match A, B with
  | a :: _, b :: _ =>
    if Nat.eqb (length a) (length B)
    then Some (map (fun row => map (dot row B) (seq 0 (length b))) A)
    else None
  | _, _ => None
  end.

Definition lib : MathLib := mkMathLib inv multiply.

End MathJS.

Module Examples.
Import Graph Solver.

Definition term (i : string) : Terminal := mkTerminal i "e" NameA 0%float 0%float.
Definition wire (a b : string) : Wire := mkWire "w" [] (Some a) (Some b).
Definition elem (i : string) (ty : ElementType) (v : float) (ts : list string)
  : CircuitElement :=
  mkElement i ty 0%float 0%float 0%float v i (map term ts).

(** Three resistors, the first two in series with the third, one dangling
    wire. *)
Definition chainElements : list CircuitElement :=
  [elem "R1" Resistor 1 ["a"; "b"]; elem "R2" Resistor 1 ["c"; "d"];
   elem "R3" Resistor 1 ["e"; "f"]].

Definition chainWires : list Wire :=
  [wire "b" "c"; wire "d" "e"; wire "c" "e"; mkWire "w" [] (Some "a") None].

(** Two voltage sources across the same pair of nodes. *)
Definition parallelSources (v1 v2 : float) : list CircuitElement :=
  [elem "V1" VoltageSource v1 ["a"; "b"]; elem "V2" VoltageSource v2 ["c"; "d"]].

Definition parallelWires : list Wire := [wire "a" "c"; wire "b" "d"].

(** A voltage source and a resistor, each with its own two terminals wired
    together. *)
Definition shortedElements : list CircuitElement :=
  [elem "V1" VoltageSource 5 ["a"; "b"]; elem "R1" Resistor 1 ["c"; "d"]].

Definition shortedWires : list Wire := [wire "a" "b"; wire "c" "d"].

(** A 5 V source across a 2 ohm resistor. *)
Definition loopElements : list CircuitElement :=
  [elem "V1" VoltageSource 5 ["a"; "b"]; elem "R1" Resistor 2 ["c"; "d"]].

Definition loopWires : list Wire := [wire "a" "c"; wire "b" "d"].

(** A zero-valued resistor next to a 1 ohm resistor, each with its own two
    terminals wired together. *)
Definition zeroElements : list CircuitElement :=
  [elem "R1" Resistor 0 ["a"; "b"]; elem "R2" Resistor 1 ["c"; "d"]].

Definition zeroWires : list Wire := [wire "a" "b"; wire "c" "d"].

(** A 1 A current source across a resistor of -2 ohm. *)
Definition negativeElements : list CircuitElement :=
  [elem "I1" CurrentSource 1 ["p"; "q"]; elem "R1" Resistor (-2) ["a"; "b"]].

Definition negativeWires : list Wire := [wire "p" "a"; wire "q" "b"].

(** A 5 V source with nothing attached. *)
Definition floatingSource : list CircuitElement :=
  [elem "V1" VoltageSource 5 ["a"; "b"]].

(** A 1 A current source across a 2 ohm resistor. *)
Definition currentElements : list CircuitElement :=
  [elem "I1" CurrentSource 1 ["p"; "q"]; elem "R1" Resistor 2 ["a"; "b"]].

Definition currentWires : list Wire := [wire "p" "a"; wire "q" "b"].



(** Two voltage sources and a zero-valued resistor across the same pair of
    nodes. *)
Definition bridgedSources (v1 v2 : float) : list CircuitElement :=
  [elem "V1" VoltageSource v1 ["a"; "b"]; elem "V2" VoltageSource v2 ["c"; "d"];
   elem "R1" Resistor 0 ["e"; "f"]].

Definition bridgedWires : list Wire :=
  [wire "a" "c"; wire "b" "d"; wire "a" "e"; wire "b" "f"].

(** A 5 V source across a 2 ohm resistor whose id is ["__proto__"]. *)
Definition protoElements : list CircuitElement :=
  [elem "V1" VoltageSource 5 ["a"; "b"];
   elem "__proto__" Resistor 2 ["c"; "d"]].

(** A 5 V source across a resistor of 2 ohm and one of 4 ohm that have the
    same id. *)
Definition twinElements : list CircuitElement :=
  [elem "V1" VoltageSource 5 ["a"; "b"]; elem "R1" Resistor 2 ["c"; "d"];
   elem "R1" Resistor 4 ["e"; "f"]].

Definition twinWires : list Wire :=
  [wire "a" "c"; wire "b" "d"; wire "a" "e"; wire "b" "f"].

(** A source of [2 ^ 600] V across a resistor of [2 ^ -600] ohm, and a source
    of [2 ^ -600] V across a resistor of [2 ^ 600] ohm; wired as the loop. *)
Definition overflowElements : list CircuitElement :=
  [elem "V1" VoltageSource 0x1p+600 ["a"; "b"];
   elem "R1" Resistor 0x1p-600 ["c"; "d"]].

Definition underflowElements : list CircuitElement :=
  [elem "V1" VoltageSource 0x1p-600 ["a"; "b"];
   elem "R1" Resistor 0x1p+600 ["c"; "d"]].

End Examples.

(** * Notions used to state the properties of the extraction *)

Module GraphSpec.
Import Graph.

(** ** The forest held in [parent] *)

(** A root of the forest: an id that is absent from the map, or its own
    parent. *)
Definition is_root (m : UF) (x : string) : Prop :=
  m !! x = None \/ m !! x = Some x.

(** [reach m x r d]: following parents from [x] ends in the root [r] after
    [d] steps. *)
Inductive reach (m : UF) : string -> string -> nat -> Prop :=
| reach_root x : is_root m x -> reach m x x 0
| reach_step x p r d :
    m !! x = Some p -> p <> x -> reach m p r d -> reach m x r (S d).

(** [m'] has the same roots as [m] and paths that are no longer. *)
Definition refines (m m' : UF) : Prop :=
  forall y r d, reach m y r d -> exists d', (d' <= d)%nat /\ reach m' y r d'.

(** Every id has a root within [k] steps. *)
Definition bounded (m : UF) (k : nat) : Prop :=
  forall x, exists r d, reach m x r d /\ (d <= k)%nat.

(** The representative of [x], and the induced relation. *)
Definition rep (m : UF) (x r : string) : Prop := exists d, reach m x r d.

Definition same (m : UF) (x y : string) : Prop :=
  exists r, rep m x r /\ rep m y r.

(** Two ids are wired when a bound wire runs from the first to the
    second; they are connected when a chain of bound wires, followed in
    either direction, joins them. *)
Definition wired (wires : list Wire) (x y : string) : Prop :=
  exists w, w ∈ wires /\ bound w = true /\
            startTerminalId w = Some x /\ endTerminalId w = Some y.

Definition connected (wires : list Wire) : relation string :=
  rtsc (wired wires).

(** The groups found for a forest [m]: distinct keys, no empty group, and
    every terminal of a group has the key of the group as its root. *)
Definition group_ok (m : UF) (kv : string * list Terminal) : Prop :=
  snd kv <> [] /\ forall t, t ∈ snd kv -> rep m (t_id t) (fst kv).

Definition groups_ok (m : UF) (g : Groups) : Prop :=
  NoDup (map fst g) /\ Forall (group_ok m) g.

(** The node with the terminal, by id. *)
Definition holds (n : ElectricalNode) (id : string) : Prop :=
  id ∈ map t_id (n_terminals n).

(** What [Array.prototype.sort] guarantees for a comparator that is a
    consistent ordering of the nodes by size: a permutation that is ordered
    and keeps nodes of equal size in their original order. *)
Definition size (n : ElectricalNode) : nat := length (n_terminals n).

Fixpoint descending (l : list ElectricalNode) : Prop :=
  match l with
  | [] => True
  | a :: l' => Forall (fun b => (size b <= size a)%nat) l' /\ descending l'
  end.

Definition ofSize (k : nat) (l : list ElectricalNode) : list ElectricalNode :=
  filter (fun n => size n = k) l.

Definition stableSort (sort : list ElectricalNode -> list ElectricalNode)
  : Prop :=
  forall l, descending (sort l) /\ forall k, ofSize k (sort l) = ofSize k l.

End GraphSpec.

(** * Notions used to state the properties of the solver *)

Module SolverSpec.
Import Solver.

(** The ids of a list of elements. *)
Definition idSet (l : list CircuitElement) : gset string :=
  list_to_set (map e_id l).

(** A stamp that only writes rows other than [R] leaves row [R] alone. *)
Definition keepsRow (R : Z) (f : Matrix -> option Matrix) : Prop :=
  forall M M' c, f M = Some M' -> get M' R c = get M R c.

(** A matrix of [r] rows and [c] columns. *)
Definition dims (M : Matrix) (r c : nat) : Prop :=
  length M = r /\ Forall (fun row => length row = c) M.

(** An element has the terminals its kind reads: four for a VCVS, two for
    the other kinds. *)
Definition wellFormed (e : CircuitElement) : Prop :=
  match e_type e with
  | VCVS => (4 <= length (e_terminals e))%nat
  | _ => (2 <= length (e_terminals e))%nat
  end.

(** An action that returns, with a result satisfying [P]. *)
Definition returns {A} (P : A -> Prop) (o : option A) : Prop :=
  exists a, o = Some a /\ P a.

End SolverSpec.

(** * Notions used to state the accuracy of the arithmetic *)

Module FloatSpec.

(** Where the rational [N / D] lies between its floor and the next integer:
    at the floor, below the middle, at the middle or above it. *)
Definition locate (N D : Z) : location :=
  if N mod D =? 0 then loc_Exact else loc_Inexact (2 * (N mod D) ?= D).

(** A shift record that stands for the rational [N / D]. *)
Definition represents (mrs : shr_record) (N D : Z) : Prop :=
  shr_m mrs = N / D /\ loc_of_shr_record mrs = locate N D.

(** A finite binary64 number is a whole multiple of the smallest positive
    one, [2 ^ -1074]; [units x] is that multiple. *)
Definition units (x : float) : Z :=
  match Prim2SF x with
  | S754_finite s m e => (if s then - Zpos m else Zpos m) * 2 ^ (e + 1074)
  | _ => 0
  end.

(** Neither zero, subnormal, infinite nor NaN. *)
Definition normal (x : float) : bool :=
  match classify x with
  | PNormal | NNormal => true
  | _ => false
  end.

End FloatSpec.

(** * Notions used for further properties *)

Module ExtraSpec.
Import Graph GraphSpec Solver SolverSpec.

(** Two group lists built over two forests: the same terminals in the same
    order, under keys that are the roots of those terminals in either
    forest. *)
Definition paired (m m' : UF) (g g' : Groups) : Prop :=
  Forall2 (fun kv kv' : string * list Terminal =>
             snd kv = snd kv' /\ snd kv <> [] /\
             forall t, t ∈ snd kv ->
               rep m (t_id t) (fst kv) /\ rep m' (t_id t) (fst kv')) g g'.

(** A wire with its two ends exchanged. *)
Definition flipWire (w : Wire) : Wire :=
  mkWire (w_id w) (w_points w) (endTerminalId w) (startTerminalId w).


(** A stamp keeps a property of the matrix it writes to. *)
Definition preserves {A} (P : A -> Prop) (f : A -> option A) : Prop :=
  forall a a', f a = Some a' -> P a -> P a'.

(** The entry in column [c] of the constraint row of a controlled source
    whose terminals have the ids [i0], [i1], [i2], [i3], over an entry [old]
    of the row before the source was stamped: the writes of lines 96-99, the
    last one first. *)
Definition controlledRow (nodes : list ElectricalNode) (e : CircuitElement)
    (i0 i1 i2 i3 : string) (c : Z) (old : option float) : option float :=
  if bool_decide (getNodeIndex nodes i3 > 0 /\ c = getNodeIndex nodes i3 - 1)
  then Some (e_value e)
  else if bool_decide (getNodeIndex nodes i2 > 0 /\
                       c = getNodeIndex nodes i2 - 1)
  then Some (- e_value e)%float
  else if bool_decide (getNodeIndex nodes i1 > 0 /\
                       c = getNodeIndex nodes i1 - 1)
  then Some (-1)%float
  else if bool_decide (getNodeIndex nodes i0 > 0 /\
                       c = getNodeIndex nodes i0 - 1)
  then Some 1%float
  else old.

(** A matrix that equals its transpose, entry by entry (an entry outside
    the matrix reads as [None] on both sides). *)
Definition symmetric (A : Matrix) : Prop :=
  forall i j, get A i j = get A j i.

End ExtraSpec.

(** ** Further circuits *)

Module MoreExamples.
Import Graph Solver Examples.

(** A 5 V source that drives the input of a controlled source of gain 2,
    whose output feeds a 1 ohm resistor; the negative terminals share a
    node. *)
Definition controlledElements : list CircuitElement :=
  [elem "V1" VoltageSource 5 ["a"; "b"]; elem "E1" VCVS 2 ["p"; "q"; "c"; "d"];
   elem "R1" Resistor 1 ["r"; "s"]].

Definition controlledWires : list Wire :=
  [wire "a" "c"; wire "b" "d"; wire "b" "q"; wire "p" "r"; wire "q" "s"].

End MoreExamples.

(** ** The editor state ([store/circuitStore.ts]) *)

Module Store.
Import Graph.

(** The part of [CircuitState] that the circuit actions read and write.
    The viewport and the display toggles are left out: no action below
    reads them, and [set] leaves the fields it is not given unchanged. *)
Record CircuitState := mkState {
  elements : list CircuitElement;
  wires : list Wire;
  selectedElementIds : list string;
  selectedWireIds : list string;
  drawingWire : option Wire
}.

Definition initialState : CircuitState := mkState [] [] [] [] None.

(** [generateTerminals]. [uuidv4] is a random source: the values it returns
    during a call, in the order of the calls, are an argument. *)
Definition generateTerminals (uuidv4 : nat -> string) (elementId : string)
    (type : ElementType) : list Terminal :=
  match type with
  | Resistor | VoltageSource | CurrentSource =>
    [mkTerminal (uuidv4 0%nat) elementId NameA 0 (-40);
     mkTerminal (uuidv4 1%nat) elementId NameB 0 40]
  | VCVS =>
    [mkTerminal (uuidv4 0%nat) elementId NameA 40 (-20);
     mkTerminal (uuidv4 1%nat) elementId NameB 40 20;
     mkTerminal (uuidv4 2%nat) elementId NameC (-40) (-20);
     mkTerminal (uuidv4 3%nat) elementId NameD (-40) 20]
  end.

Definition getPrefix (type : ElementType) : string :=
  match type with
  | Resistor => "R"
  | VoltageSource => "V"
  | CurrentSource => "I"
  | VCVS => "E"
  end.

Definition getInitialValue (type : ElementType) : float :=
  match type with
  | Resistor => 1
  | VoltageSource => 5
  | CurrentSource => 1
  | VCVS => 2
  end.

(** [addElement]: the first value drawn from [uuidv4] is the id of the
    element, the following ones are the ids of its terminals. *)
Definition addElement (uuidv4 : nat -> string) (type : ElementType)
    (x y : float) (st : CircuitState) : CircuitState :=
  let id := uuidv4 0%nat in
  let count :=
    (length (filter (fun e => e_type e = type) (elements st)) + 1)%nat in
  let newElement :=
    mkElement id type x y 0 (getInitialValue type)
      (getPrefix type ++ pretty count)
      (generateTerminals (fun k => uuidv4 (S k)) id type) in
  mkState (elements st ++ [newElement]) (wires st) (selectedElementIds st)
    (selectedWireIds st) (drawingWire st).

(** [elements.map(e => e.id === id ? f(e) : e)] *)
Definition updateElement (id : string) (f : CircuitElement -> CircuitElement)
    (st : CircuitState) : CircuitState :=
  mkState (map (fun e => if decide (e_id e = id) then f e else e) (elements st))
    (wires st) (selectedElementIds st) (selectedWireIds st) (drawingWire st).

Definition updateElementValue (id : string) (value : float)
  : CircuitState -> CircuitState :=
  updateElement id (fun e =>
    mkElement (e_id e) (e_type e) (e_x e) (e_y e) (e_rotation e) value
      (e_label e) (e_terminals e)).

Definition moveElement (id : string) (dx dy : float)
  : CircuitState -> CircuitState :=
  updateElement id (fun e =>
    mkElement (e_id e) (e_type e) (e_x e + dx)%float (e_y e + dy)%float
      (e_rotation e) (e_value e) (e_label e) (e_terminals e)).

(** [rotateElement]. The remainder operator [%] of JavaScript numbers is not
    among the operations of binary64 floats provided here; it is an
    argument. *)
Definition rotateElement (rem : float -> float -> float) (id : string)
  : CircuitState -> CircuitState :=
  updateElement id (fun e =>
    mkElement (e_id e) (e_type e) (e_x e) (e_y e)
      (rem (e_rotation e + 90)%float 360%float) (e_value e) (e_label e)
      (e_terminals e)).

(** [deleteSelection] *)
Definition terminalIdsToDelete (st : CircuitState) : list string :=
  flat_map (fun e => map t_id (e_terminals e))
    (filter (fun e => e_id e ∈ selectedElementIds st) (elements st)).

Definition deleteSelection (st : CircuitState) : CircuitState :=
  let remainingWires :=
    filter (fun w => w_id w ∉ selectedWireIds st) (wires st) in
  let remainingElements :=
    filter (fun e => e_id e ∉ selectedElementIds st) (elements st) in
  let remainingWires :=
    filter (fun w =>
              (default "" (startTerminalId w) ∉ terminalIdsToDelete st) /\
              (default "" (endTerminalId w) ∉ terminalIdsToDelete st))
           remainingWires in
  mkState remainingElements remainingWires [] [] (drawingWire st).

(** [startWire]; the id of the new wire is the value drawn from [uuidv4]. *)
Definition startWire (uuid : string) (x y : float) (terminalId : option string)
    (st : CircuitState) : CircuitState :=
  mkState (elements st) (wires st) (selectedElementIds st) (selectedWireIds st)
    (Some (mkWire uuid [(x, y); (x, y)] terminalId None)).

(** [finishWire] *)
Definition finishWire (terminalId : option string) (st : CircuitState)
  : CircuitState :=
  match drawingWire st with
  | None => st
  | Some dw =>
    if decide (startTerminalId dw <> terminalId) then
      mkState (elements st)
        (wires st ++ [mkWire (w_id dw) (w_points dw) (startTerminalId dw)
                        terminalId])
        (selectedElementIds st) (selectedWireIds st) None
    else
      mkState (elements st) (wires st) (selectedElementIds st)
        (selectedWireIds st) None
  end.

Definition cancelWire (st : CircuitState) : CircuitState :=
  mkState (elements st) (wires st) (selectedElementIds st) (selectedWireIds st)
    None.

(** [selectedIds.includes(id) ? selectedIds.filter(x => x !== id)
                              : [...selectedIds, id]] *)
Definition toggle (id : string) (selected : list string) : list string :=
  if decide (id ∈ selected) then filter (fun x => x <> id) selected
  else selected ++ [id].

(** [selectItem(id, multi = false, isWire = false)] *)
Definition selectItem (id : string) (multi isWire : bool) (st : CircuitState)
  : CircuitState :=
  if isWire then
    if multi then
      mkState (elements st) (wires st) (selectedElementIds st)
        (toggle id (selectedWireIds st)) (drawingWire st)
    else
      mkState (elements st) (wires st) [] [id] (drawingWire st)
  else
    if multi then
      mkState (elements st) (wires st) (toggle id (selectedElementIds st))
        (selectedWireIds st) (drawingWire st)
    else
      mkState (elements st) (wires st) [id] [] (drawingWire st).

Definition clearSelection (st : CircuitState) : CircuitState :=
  mkState (elements st) (wires st) [] [] (drawingWire st).

End Store.

Module StoreSpec.
Import Graph Solver SolverSpec Store.

(** The ids of the terminals of a list of elements. *)
Definition terminalIds (els : list CircuitElement) : list string :=
  map t_id (allTerminals els).

(** Every end that a wire has is a terminal of one of the elements. *)
Definition attached (els : list CircuitElement) (w : Wire) : Prop :=
  forall id, startTerminalId w = Some id \/ endTerminalId w = Some id ->
    id ∈ terminalIds els.

(** What the analysis engine reads of an element: everything but its
    position, rotation and label. *)
Definition electrical (e : CircuitElement)
  : string * ElementType * float * list Terminal :=
  (e_id e, e_type e, e_value e, e_terminals e).

(** The ids in use in a state. *)
Definition usedIds (st : CircuitState) : list string :=
  map e_id (elements st) ++ terminalIds (elements st).

(** The values drawn from [uuidv4] while an element of the type is added
    are new and distinct. *)
Definition draws (type : ElementType) : nat :=
  match type with VCVS => 5%nat | _ => 3%nat end.

Definition fresh (uuidv4 : nat -> string) (type : ElementType)
    (st : CircuitState) : Prop :=
  NoDup (map uuidv4 (seq 0 (draws type))) /\
  forall k, (k < draws type)%nat -> uuidv4 k ∉ usedIds st.

(** One action of the editor. The actions of the store that are not
    modelled ([updateDrawingWire], [mergeNearbyTerminals]) write [wires] or
    [drawingWire] only; [edit_wiring] stands for any such write. *)
Inductive action (rem : float -> float -> float)
  : CircuitState -> CircuitState -> Prop :=
  | edit_add uuidv4 type x y st :
      fresh uuidv4 type st -> action rem st (addElement uuidv4 type x y st)
  | edit_value id v st : action rem st (updateElementValue id v st)
  | edit_move id dx dy st : action rem st (moveElement id dx dy st)
  | edit_rotate id st : action rem st (rotateElement rem id st)
  | edit_delete st : action rem st (deleteSelection st)
  | edit_start uuid x y t st : action rem st (startWire uuid x y t st)
  | edit_finish t st : action rem st (finishWire t st)
  | edit_cancel st : action rem st (cancelWire st)
  | edit_select id multi isWire st :
      action rem st (selectItem id multi isWire st)
  | edit_clear st : action rem st (clearSelection st)
  | edit_wiring ws dw st :
      action rem st (mkState (elements st) ws (selectedElementIds st)
                       (selectedWireIds st) dw).

Definition reachable (rem : float -> float -> float) (st : CircuitState)
  : Prop :=
  rtc (action rem) initialState st.

(** The shape of an element made by [addElement]: two terminals named A and
    B, or four named A to D for a VCVS, each carrying the id of the
    element. *)
Definition shaped (e : CircuitElement) : Prop :=
  map t_name (e_terminals e) =
    match e_type e with
    | VCVS => [NameA; NameB; NameC; NameD]
    | _ => [NameA; NameB]
    end /\
  Forall (fun t => t_elementId t = e_id e) (e_terminals e).

(** What holds of the elements of every state the editor can reach: the
    ids of the elements and of their terminals are all distinct, and every
    element has the shape [addElement] gave it. *)
Definition consistent (els : list CircuitElement) : Prop :=
  NoDup (map e_id els ++ terminalIds els) /\
  Forall wellFormed els /\ Forall shaped els.

End StoreSpec.

Module StoreExamples.
Import Store.

(** Values of [uuidv4]: a prefix and the number of the call. *)
Definition uuids (prefix : string) (k : nat) : string := prefix ++ pretty k.

(** A voltage source and two resistors dropped on the canvas, a wire drawn
    from the first resistor to the source and one from the source to the
    second resistor, and the first resistor selected. *)
Definition threeElements : CircuitState :=
  addElement (uuids "s") Resistor 0 0
    (addElement (uuids "r") Resistor 0 0
       (addElement (uuids "v") VoltageSource 0 0 initialState)).

Definition editedState : CircuitState :=
  selectItem "r0" false false
    (finishWire (Some "s1")
       (startWire "w1" 0 0 (Some "v2")
          (finishWire (Some "v1")
             (startWire "w0" 0 0 (Some "r1") threeElements)))).

(** The first resistor selected while a wire is being drawn from it. *)
Definition drawingState : CircuitState :=
  startWire "w0" 0 0 (Some "r1") (selectItem "r0" false false threeElements).

End StoreExamples.

(** ** Short-circuit highlighting ([components/Canvas.tsx], the [Canvas]
    component) *)

Module Canvas.
Import Graph Solver.

(** [isNaN(v)] and [isFinite(v)] *)
Definition isNaN (v : float) : bool := is_nan v.

Definition isFinite (v : float) : bool := negb (is_nan v || is_infinity v).

(** [Object.values(obj).some(p)] *)
Definition some `{Countable K} (p : float -> bool) (obj : gmap K float)
  : bool :=
  existsb p (map snd (map_to_list obj)).

(** The [solverResult] memo: the solver runs on the wires with both ends
    bound. *)
Definition solverResult (lib : MathLib) (elements : list CircuitElement)
    (wires : list Wire) : option SolverResult :=
  let fw := filter (fun w => bound w = true) wires in
  solveCircuit lib elements fw.

(** [isShortCircuit] *)
Definition isShortCircuit (r : SolverResult) : bool :=
  some (fun v => isNaN v || negb (isFinite v)) (nodeVoltages r)
  || some (fun c => isNaN c || negb (isFinite c) || (9999 <? abs c)%float)
          (elementCurrents r).

(** [end && ids.has(end)] *)
Definition touches (ids : gset string) (e : option string) : bool :=
  truthy e && bool_decide (default "" e ∈ ids).

(** [shortedWireIds] *)
Definition shortedWireIds (elements : list CircuitElement) (wires : list Wire)
    (r : SolverResult) : gset string :=
  if negb (isShortCircuit r) then ∅
  else
    let vSrcTermIds : gset string :=
      list_to_set
        (flat_map (fun e => map t_id (e_terminals e))
           (filter (fun e => e_type e = VoltageSource) elements)) in
    let shorts :=
      foldl (fun (shorts : gset string) w =>
               if touches vSrcTermIds (startTerminalId w)
                  || touches vSrcTermIds (endTerminalId w)
               then shorts ∪ {[ w_id w ]} else shorts) ∅ wires in
    let hasNaN := some isNaN (nodeVoltages r) in
    if hasNaN then foldl (fun (shorts : gset string) w => shorts ∪ {[ w_id w ]})
                     shorts wires
    else shorts.

(** [shortedElementIds] *)
Definition shortedElementIds (elements : list CircuitElement)
    (r : SolverResult) : gset string :=
  if negb (isShortCircuit r) then ∅ else list_to_set (map e_id elements).

End Canvas.

(** ** The derivation shown to the user ([engine/explanation.ts]) *)

Module Explanation.
Import Graph Solver.

Record Line := mkLine {
  expr : string;
  result : option string
}.

Record DerivationStep := mkStep {
  num : nat;
  title : string;
  lines : list Line
}.

(** An entry of the [forcedBySource] map. *)
Record Forced := mkForced {
  sourceLabel : string;
  value : float;
  refNodeId : Z
}.

Section Build.

(** The two conversions of a number to text, [v.toFixed(4)] and the one of
    a template literal, are not modelled; they are arguments. *)
Variable toFixed4 : float -> string.
Variable numberToString : float -> string.

Variable elements : list CircuitElement.
Variable nodes : list ElectricalNode.
Variable nodeVoltages : gmap Z float.

Definition nodeLabel (id : Z) : string :=
  if decide (id = 0) then "GND" else "N" +:+ pretty id.

(** [nodeVoltages[id] ?? 0] *)
Definition nv (id : Z) : float := default 0%float (nodeVoltages !! id).

(** [findNode]; the argument is [undefined] when the terminal is missing. *)
Definition findNode (termId : option string) : option ElectricalNode :=
  match termId with
  | Some i => List.find (hasTerminal i) nodes
  | None => None
  end.

(** [findNode(id)?.id ?? 0] *)
Definition nodeIdOr0 (termId : option string) : Z :=
  default 0 (n_id <$> findNode termId).

Definition groundStep : DerivationStep :=
  mkStep 1 "Ground Reference (GND)"
    [mkLine "GND = 0 V  (reference node, defined by convention)" None;
     mkLine "All other voltages are measured relative to GND." None].

(** The body of [vSources.forEach]; the state is the [forcedBySource] map
    and the steps pushed so far. *)
Definition explainSource (st : gmap Z Forced * list DerivationStep)
    (vs : CircuitElement) : gmap Z Forced * list DerivationStep :=
  let '(forcedBySource, steps) := st in
  let idMinus := nodeIdOr0 (terminalId vs 0) in
  let idPlus := nodeIdOr0 (terminalId vs 1) in
  let vMinus := nv idMinus in
  let vPlus := nv idPlus in
  let forcedBySource :=
    if decide (is_Some (forcedBySource !! idPlus)) then forcedBySource
    else <[idPlus := mkForced (e_label vs) (e_value vs) idMinus]>
           forcedBySource in
  (forcedBySource,
   steps ++
   [mkStep (length steps + 1)
      (e_label vs +:+ " forces " +:+ nodeLabel idPlus)
      [mkLine (e_label vs +:+ " is a " +:+ numberToString (e_value vs)
               +:+ " V source") None;
       mkLine ("  − terminal → " +:+ nodeLabel idMinus +:+ " = "
               +:+ toFixed4 vMinus +:+ " V") None;
       mkLine ("  + terminal → " +:+ nodeLabel idPlus) None;
       mkLine ("V(" +:+ nodeLabel idPlus +:+ ") = V(" +:+ nodeLabel idMinus
               +:+ ") + " +:+ numberToString (e_value vs)) None;
       mkLine ("V(" +:+ nodeLabel idPlus +:+ ") = " +:+ toFixed4 vMinus +:+ " + "
               +:+ numberToString (e_value vs))
              (Some (toFixed4 vPlus +:+ " V"))]]).

(** [el.terminals.some(t => findNode(t.id)?.id === nId)] *)
Definition touchesNode (nId : Z) (el : CircuitElement) : bool :=
  existsb (fun t => bool_decide (n_id <$> findNode (Some (t_id t)) = Some nId))
          (e_terminals el).

(** The body of [connectedR.forEach]; the state is [lines] and [eqParts]. *)
Definition explainBranch (nId : Z) (label : string)
    (st : list Line * list string) (r : CircuitElement)
  : list Line * list string :=
  let '(lines, eqParts) := st in
  let otherT :=
    List.find (fun t => negb (bool_decide
                 (n_id <$> findNode (Some (t_id t)) = Some nId)))
              (e_terminals r) in
  let otherN :=
    match otherT with
    | Some t => findNode (Some (t_id t))
    | None => None
    end in
  let otherId := default 0 (n_id <$> otherN) in
  let otherV := nv otherId in
  let otherLbl := nodeLabel otherId in
  (lines ++ [mkLine ("  I(" +:+ otherLbl +:+ "→" +:+ label +:+ ") = ("
                     +:+ toFixed4 otherV +:+ " − V(" +:+ label +:+ ")) / "
                     +:+ numberToString (e_value r) +:+ " Ω") None],
   eqParts ++ ["(" +:+ toFixed4 otherV +:+ " − V) / "
               +:+ numberToString (e_value r)]).

(** The body of the [forEach] over the nodes left to Kirchhoff's law. *)
Definition explainNode (steps : list DerivationStep) (node : ElectricalNode)
  : list DerivationStep :=
  let nId := n_id node in
  let V := nv nId in
  let label := nodeLabel nId in
  let connectedR :=
    filter (fun el => e_type el = Resistor /\ touchesNode nId el = true)
           elements in
  let '(lines, eqParts) :=
    foldl (explainBranch nId label)
      ([mkLine ("KCL at " +:+ label +:+ ": sum of all currents = 0") None], [])
      connectedR in
  let lines :=
    if decide (0 < length eqParts)%nat
    then lines ++ [mkLine ("  Solving:  " +:+ String.concat " + " eqParts
                           +:+ " = 0") None]
    else lines in
  let lines :=
    lines ++ [mkLine ("V(" +:+ label +:+ ") =") (Some (toFixed4 V +:+ " V"))] in
  steps ++ [mkStep (length steps + 1) (label +:+ " solved by KCL") lines].

(** [buildCircuitExplanation]; its last argument is not used. *)
Definition buildCircuitExplanation (_elementCurrents : gmap string float)
  : list DerivationStep :=
  let steps := [groundStep] in
  let forcedBySource : gmap Z Forced :=
    {[ 0 := mkForced "reference" 0 (-1) ]} in
  let vSources := filter (fun e => e_type e = VoltageSource) elements in
  let '(forcedBySource, steps) :=
    foldl explainSource (forcedBySource, steps) vSources in
  let steps :=
    foldl explainNode steps
      (filter (fun n => n_id n <> 0 /\ ~ is_Some (forcedBySource !! n_id n))
              nodes) in
  let summaryLines :=
    map (fun n => mkLine ("V(" +:+ nodeLabel (n_id n) +:+ ")")
                         (Some (toFixed4 (nv (n_id n)) +:+ " V"))) nodes in
  steps ++ [mkStep (length steps + 1) "Node Voltage Summary" summaryLines].

End Build.

End Explanation.

(** * Properties of the topology extraction *)

Module GraphFacts.
Import Graph GraphSpec.

Lemma is_root_dec (m : UF) x : {is_root m x} + {~ is_root m x}.
Proof.
  unfold is_root. destruct (m !! x) as [p|] eqn:E.
  - destruct (decide (p = x)) as [->|N]; [left; by right|].
    right. intros [?|?]; congruence.
  - left. by left.
Qed.

Lemma reach_fun m x r d r' d' :
  reach m x r d -> reach m x r' d' -> r = r' /\ d = d'.
Proof.
  intros H. revert r' d'. induction H as [x Hr|x p r d Hx Hp H IH]; intros r' d' H'.
  - inversion H' as [|? p ? ? Hx Hp]; subst; [done|].
    destruct Hr; congruence.
  - inversion H' as [? Hr|? p' ? ? Hx' Hp' H'']; subst.
    + destruct Hr; congruence.
    + assert (p' = p) as -> by congruence.
      destruct (IH _ _ H'') as [-> ->]. done.
Qed.

Lemma reach_is_root m x r d : reach m x r d -> is_root m r.
Proof. induction 1; auto. Qed.

Lemma reach_zero m x r : reach m x r 0 -> r = x /\ is_root m x.
Proof. inversion 1; subst. done. Qed.

Lemma refines_refl m : refines m m.
Proof. intros y r d H. exists d. split; [lia|done]. Qed.

Lemma refines_trans m1 m2 m3 : refines m1 m2 -> refines m2 m3 -> refines m1 m3.
Proof.
  intros H12 H23 y r d H.
  destruct (H12 _ _ _ H) as (d1 & ? & H1).
  destruct (H23 _ _ _ H1) as (d2 & ? & H2).
  exists d2. split; [lia|done].
Qed.

(** [parent.set(id, id)] for an unseen id. *)
Lemma refines_fresh m x : m !! x = None -> refines m (<[x := x]> m).
Proof.
  intros Hx y r d H. exists d. split; [lia|].
  induction H as [y Hr|y p r d Hy Hp H IH].
  - apply reach_root. destruct (decide (y = x)) as [->|N].
    + right. by rewrite lookup_insert_eq.
    + unfold is_root. by rewrite lookup_insert_ne.
  - apply reach_step with p; [|done|done].
    rewrite lookup_insert_ne; [done|]. congruence.
Qed.

(** Path compression: [parent.set(id, root of id)]. *)
Lemma refines_compress m x r d :
  reach m x r d -> r <> x -> refines m (<[x := r]> m).
Proof.
  intros Hx Hne y r' d' H.
  assert (Hroot : is_root m r) by eauto using reach_is_root.
  assert (Hnr : ~ is_root m x).
  { intros Hrx. destruct (reach_fun _ _ _ _ _ _ Hx (reach_root m x Hrx)). done. }
  induction H as [y Hr|y p r' d' Hy Hp H IH].
  - exists 0%nat. split; [lia|]. apply reach_root.
    assert (y <> x) by (intros ->; done).
    unfold is_root. by rewrite lookup_insert_ne.
  - destruct IH as (d1 & Hle & IH).
    destruct (decide (y = x)) as [->|N].
    + destruct (reach_fun _ _ _ _ _ _ Hx (reach_step m x p r' d' Hy Hp H)) as [<- _].
      exists 1%nat. split; [lia|].
      apply reach_step with r; [by rewrite lookup_insert_eq|done|].
      apply reach_root. unfold is_root. by rewrite lookup_insert_ne.
    + exists (S d1). split; [lia|].
      apply reach_step with p; [by rewrite lookup_insert_ne|done|done].
Qed.

(** [getParent] returns the root, within any budget above the depth, and
    leaves a forest with the same roots. *)
Lemma getParent_spec m x r d :
  reach m x r d -> forall fuel, (d < fuel)%nat ->
  exists m', getParent fuel m x = Some (r, m') /\ refines m m'.
Proof.
  induction 1 as [x Hr|x p r d Hx Hp H IH]; intros fuel Hf.
  - destruct fuel as [|fuel]; [lia|]. simpl.
    destruct Hr as [Hr|Hr]; rewrite Hr.
    + eexists. split; [done|]. by apply refines_fresh.
    + rewrite decide_True by done. eexists. split; [done|]. apply refines_refl.
  - destruct fuel as [|fuel]; [lia|]. simpl. rewrite Hx.
    rewrite decide_False by done.
    destruct (IH fuel) as (m' & -> & Href); [lia|].
    eexists. split; [done|].
    eapply refines_trans; [exact Href|].
    destruct (Href x r (S d)) as (d' & _ & Hx'); [by eapply reach_step|].
    eapply refines_compress; [exact Hx'|].
    intros ->. apply reach_is_root in H. destruct H; congruence.
Qed.

Lemma bounded_empty : bounded ∅ 0.
Proof. intros x. exists x, 0%nat. split; [|lia]. apply reach_root. by left. Qed.

Lemma bounded_refines m m' k : bounded m k -> refines m m' -> bounded m' k.
Proof.
  intros Hb Href x. destruct (Hb x) as (r & d & H & Hle).
  destruct (Href _ _ _ H) as (d' & ? & H'). exists r, d'. split; [done|lia].
Qed.

Lemma bounded_mono m k k' : bounded m k -> (k <= k')%nat -> bounded m k'.
Proof.
  intros Hb Hle x. destruct (Hb x) as (r & d & H & ?). exists r, d. split; [done|lia].
Qed.

Lemma refines_rep m m' k x r :
  bounded m k -> refines m m' -> rep m' x r <-> rep m x r.
Proof.
  intros Hb Href. split.
  - intros [d' H']. destruct (Hb x) as (r0 & d & H & _).
    destruct (Href _ _ _ H) as (d1 & _ & H1).
    destruct (reach_fun _ _ _ _ _ _ H' H1) as [-> _]. by exists d.
  - intros [d H]. destruct (Href _ _ _ H) as (d' & _ & H'). by exists d'.
Qed.

Lemma refines_same m m' k x y :
  bounded m k -> refines m m' -> same m' x y <-> same m x y.
Proof.
  intros Hb Href. unfold same.
  split; intros (r & Hx & Hy); exists r.
  - by rewrite <- !(refines_rep m m' k) by done.
  - by rewrite !(refines_rep m m' k) by done.
Qed.

Lemma refines_root m m' r : refines m m' -> is_root m r -> is_root m' r.
Proof.
  intros Href Hr. destruct (Href r r 0%nat (reach_root m r Hr)) as (d' & Hle & H).
  assert (d' = 0%nat) as -> by lia. by apply reach_zero in H as [_ ?].
Qed.

(** Linking one root under another: [parent.set(root1, root2)]. *)
Lemma reach_link m r1 r2 y r d :
  is_root m r1 -> is_root m r2 -> r1 <> r2 -> reach m y r d ->
  reach (<[r1 := r2]> m) y (if decide (r = r1) then r2 else r)
        (if decide (r = r1) then S d else d).
Proof.
  intros H1 H2 Hne H.
  induction H as [y Hr|y p r d Hy Hp H IH].
  - destruct (decide (y = r1)) as [->|N].
    + apply reach_step with r2; [by rewrite lookup_insert_eq|done|].
      apply reach_root. unfold is_root. by rewrite lookup_insert_ne.
    + apply reach_root. unfold is_root. by rewrite lookup_insert_ne.
  - assert (y <> r1) by (intros ->; destruct H1; congruence).
    destruct (decide (r = r1)).
    + apply reach_step with p; [by rewrite lookup_insert_ne|done|done].
    + apply reach_step with p; [by rewrite lookup_insert_ne|done|done].
Qed.

Lemma rep_fun m x r r' : rep m x r -> rep m x r' -> r = r'.
Proof. intros [d H] [d' H']. by destruct (reach_fun _ _ _ _ _ _ H H'). Qed.

Lemma same_refl m k x : bounded m k -> same m x x.
Proof. intros Hb. destruct (Hb x) as (r & d & H & _). exists r. split; by exists d. Qed.

Lemma same_sym m x y : same m x y -> same m y x.
Proof. intros (r & ? & ?). by exists r. Qed.

Lemma same_trans m x y z : same m x y -> same m y z -> same m x z.
Proof.
  intros (r & Hx & Hy) (r' & Hy' & Hz).
  pose proof (rep_fun _ _ _ _ Hy Hy') as ->. by exists r'.
Qed.

(** [union]: the classes of the two ids are merged, nothing else changes,
    and the forest is at most one level deeper. *)
Lemma union_spec m k fuel a b :
  bounded m k -> (k < fuel)%nat ->
  exists m', union fuel m a b = Some m' /\ bounded m' (S k) /\
    forall x y, same m' x y <->
      same m x y \/ (same m x a /\ same m y b) \/ (same m x b /\ same m y a).
Proof.
  intros Hb Hf. unfold union.
  destruct (Hb a) as (r1 & d1 & Ha & Hd1).
  destruct (getParent_spec _ _ _ _ Ha fuel) as (m1 & -> & Href1); [lia|].
  assert (Hb1 : bounded m1 k) by eauto using bounded_refines.
  destruct (Hb1 b) as (r2 & d2 & Hb2 & Hd2).
  destruct (getParent_spec _ _ _ _ Hb2 fuel) as (m2 & -> & Href2); [lia|].
  assert (Href : refines m m2) by eauto using refines_trans.
  assert (Hbm2 : bounded m2 k) by eauto using bounded_refines.
  assert (Hra : rep m a r1) by (by exists d1).
  assert (Hrb : rep m b r2).
  { apply (refines_rep m m1 k); [done..|]. by exists d2. }
  destruct (decide (r1 = r2)) as [->|Hne].
  - eexists. split; [done|]. split; [eapply bounded_mono; [exact Hbm2|lia]|].
    intros x y. rewrite (refines_same m m2 k) by done. split; [tauto|].
    intros [?|[[Hx Hy]|[Hx Hy]]]; [done|..].
    + eapply same_trans; [exact Hx|]. eapply same_trans; [|apply same_sym; exact Hy].
      by exists r2.
    + eapply same_trans; [exact Hx|]. eapply same_trans; [|apply same_sym; exact Hy].
      by exists r2.
  - assert (Hr1 : is_root m2 r1).
    { eapply refines_root; [exact Href|]. by eapply reach_is_root. }
    assert (Hr2 : is_root m2 r2).
    { eapply refines_root; [exact Href2|]. by eapply reach_is_root. }
    assert (Hlink : forall y r, rep m y r ->
              rep (<[r1 := r2]> m2) y (if decide (r = r1) then r2 else r)).
    { intros y r Hy. apply (refines_rep m m2 k) in Hy as [d Hy]; [|done..].
      eexists. by apply reach_link. }
    eexists. split; [done|]. split.
    { intros x. destruct (Hbm2 x) as (r & d & H & Hle).
      eexists _, _. split; [by apply reach_link|]. destruct (decide (r = r1)); lia. }
    intros x y. split.
    + intros (r & Hx & Hy).
      destruct (Hb x) as (rx & dx & Hx0 & _), (Hb y) as (ry & dy & Hy0 & _).
      assert (Hrx : rep m x rx) by (by exists dx).
      assert (Hry : rep m y ry) by (by exists dy).
      pose proof (rep_fun _ _ _ _ Hx (Hlink _ _ Hrx)) as Ex.
      pose proof (rep_fun _ _ _ _ Hy (Hlink _ _ Hry)) as Ey.
      destruct (decide (rx = r1)) as [->|Nx], (decide (ry = r1)) as [->|Ny].
      * left. by exists r1.
      * right. left. split; [by exists r1|]. exists r2. split; [congruence|done].
      * right. right. split; [|by exists r1]. exists r2. split; [congruence|done].
      * left. exists rx. split; [done|]. congruence.
    + assert (Hab : same (<[r1 := r2]> m2) a b).
      { exists r2. split.
        - pose proof (Hlink _ _ Hra) as H. by rewrite decide_True in H.
        - pose proof (Hlink _ _ Hrb) as H. by rewrite decide_False in H by done. }
      assert (Hold : forall u v, same m u v -> same (<[r1 := r2]> m2) u v).
      { intros u v (r & Hu & Hv). eexists. split; by apply Hlink. }
      intros [H|[[Hx Hy]|[Hx Hy]]]; [by apply Hold|..].
      * eapply same_trans; [apply Hold, Hx|].
        eapply same_trans; [exact Hab|]. apply same_sym, Hold, Hy.
      * eapply same_trans; [apply Hold, Hx|].
        eapply same_trans; [apply same_sym, Hab|]. apply same_sym, Hold, Hy.
Qed.

(** ** The budget only bounds the recursion *)

Lemma getParent_mono fuel fuel' m x v :
  getParent fuel m x = Some v -> (fuel <= fuel')%nat ->
  getParent fuel' m x = Some v.
Proof.
  revert fuel' m x v. induction fuel as [|fuel IH]; intros fuel' m x v; [done|].
  intros H Hle. destruct fuel' as [|fuel']; [lia|]. simpl in *.
  destruct (m !! x) as [p|]; [|done].
  destruct (decide (p = x)); [done|].
  destruct (getParent fuel m p) as [[r m']|] eqn:E; [|done].
  rewrite (IH fuel' _ _ _ E) by lia. done.
Qed.

Lemma union_mono fuel fuel' m a b m' :
  union fuel m a b = Some m' -> (fuel <= fuel')%nat ->
  union fuel' m a b = Some m'.
Proof.
  unfold union. intros H Hle.
  destruct (getParent fuel m a) as [[r1 m1]|] eqn:E1; [|done].
  rewrite (getParent_mono _ fuel' _ _ _ E1) by done.
  destruct (getParent fuel m1 b) as [[r2 m2]|] eqn:E2; [|done].
  rewrite (getParent_mono _ fuel' _ _ _ E2) by done. done.
Qed.

Lemma connectWires_mono fuel fuel' ws m m' :
  connectWires fuel m ws = Some m' -> (fuel <= fuel')%nat ->
  connectWires fuel' m ws = Some m'.
Proof.
  revert m. induction ws as [|w ws IH]; intros m H Hle; [done|]. simpl in *.
  destruct (startTerminalId w) as [s|]; [|by apply IH].
  destruct (endTerminalId w) as [e|]; [|by apply IH].
  destruct (bound w); [|by apply IH].
  destruct (union fuel m s e) as [m1|] eqn:E; [|done].
  rewrite (union_mono _ fuel' _ _ _ _ E) by done. by apply IH.
Qed.

Lemma groupTerminals_mono fuel fuel' ts m g g' :
  groupTerminals fuel m ts g = Some g' -> (fuel <= fuel')%nat ->
  groupTerminals fuel' m ts g = Some g'.
Proof.
  revert m g. induction ts as [|t ts IH]; intros m g H Hle; [done|]. simpl in *.
  destruct (getParent fuel m (t_id t)) as [[r m1]|] eqn:E; [|done].
  rewrite (getParent_mono _ fuel' _ _ _ E) by done. by apply IH.
Qed.

Lemma extractNodesWith_mono sort fuel fuel' els ws N :
  extractNodesWith sort fuel els ws = Some N -> (fuel <= fuel')%nat ->
  extractNodesWith sort fuel' els ws = Some N.
Proof.
  unfold extractNodesWith. intros H Hle.
  destruct (connectWires fuel ∅ ws) as [m|] eqn:E1; [|done].
  rewrite (connectWires_mono _ fuel' _ _ _ E1) by done.
  destruct (groupTerminals fuel m (allTerminals els) []) as [g|] eqn:E2; [|done].
  rewrite (groupTerminals_mono _ fuel' _ _ _ _ E2) by done. done.
Qed.

(** ** Step 3: the wires *)

Lemma rtsc_least {A} (R S : relation A) x y :
  Equivalence S -> (forall u v, R u v -> S u v) -> rtsc R x y -> S x y.
Proof.
  intros HS HR H. induction H as [x|x z y Hxz _ IH]; [reflexivity|].
  transitivity z; [|done]. destruct Hxz as [?|?]; [|symmetry]; by apply HR.
Qed.

Lemma rtsc_subrel {A} (R R' : relation A) x y :
  (forall u v, R u v -> rtsc R' u v) -> rtsc R x y -> rtsc R' x y.
Proof. intros HR. apply rtsc_least; [apply _|done]. Qed.

Lemma same_equivalence m k : bounded m k -> Equivalence (same m).
Proof.
  intros Hb. split.
  - intros x. by eapply same_refl.
  - intros x y. apply same_sym.
  - intros x y z. apply same_trans.
Qed.

Lemma wired_cons w ws x y :
  wired (w :: ws) x y <->
  (bound w = true /\ startTerminalId w = Some x /\ endTerminalId w = Some y)
  \/ wired ws x y.
Proof.
  unfold wired. split.
  - intros (w' & Hin & H). apply elem_of_cons in Hin as [->|Hin]; [by left|].
    right. by exists w'.
  - intros [H|(w' & Hin & H)].
    + exists w. split; [apply elem_of_cons; by left|done].
    + exists w'. split; [apply elem_of_cons; by right|done].
Qed.

Lemma wired_skip w ws x y : bound w = false -> wired (w :: ws) x y <-> wired ws x y.
Proof. intros Hw. rewrite wired_cons. split; [|by right]. intros [[? _]|?]; [congruence|done]. Qed.

Lemma bound_ends w : bound w = true ->
  exists s e, startTerminalId w = Some s /\ endTerminalId w = Some e.
Proof.
  unfold bound, truthy. destruct (startTerminalId w), (endTerminalId w); try done.
  - eauto.
  - by rewrite andb_false_r.
Qed.

(** After the loop over the wires, two ids have the same root exactly when
    the classes they started in are joined by bound wires. *)
Lemma connectWires_spec ws : forall m k fuel,
  bounded m k -> (k + length ws < fuel)%nat ->
  exists m', connectWires fuel m ws = Some m' /\
    bounded m' (k + length ws) /\
    forall x y, same m' x y <-> rtsc (fun u v => same m u v \/ wired ws u v) x y.
Proof.
  induction ws as [|w ws IH]; intros m k fuel Hb Hf.
  - exists m. split; [done|]. split; [by rewrite Nat.add_0_r|].
    intros x y. split.
    + intros H. apply rtsc_lr. by left.
    + apply rtsc_least; [by eapply same_equivalence|].
      intros u v [H|(w & Hin & _)]; [done|]. by apply elem_of_nil in Hin.
  - simpl in Hf.
    assert (Hskip : bound w = false ->
      exists m', connectWires fuel m ws = Some m' /\
        bounded m' (k + length (w :: ws)) /\
        forall x y, same m' x y <->
          rtsc (fun u v => same m u v \/ wired (w :: ws) u v) x y).
    { intros Hw. destruct (IH m k fuel Hb) as (m' & E & Hb' & Hs); [lia|].
      exists m'. split; [done|]. split; [eapply bounded_mono; [exact Hb'|simpl; lia]|].
      intros x y. rewrite Hs. split; apply rtsc_subrel.
      - intros u v [H|H]; apply rtsc_lr; [by left|]. right. by apply wired_skip.
      - intros u v [H|H]; apply rtsc_lr; [by left|]. right.
        by apply wired_skip in H. }
    simpl. destruct (bound w) eqn:Hw.
    + destruct (bound_ends _ Hw) as (s & e & Hs & He). rewrite Hs, He.
      destruct (union_spec m k fuel s e Hb) as (m1 & -> & Hb1 & Hsame1); [lia|].
      destruct (IH m1 (S k) fuel Hb1) as (m' & E & Hb' & Hsame'); [lia|].
      exists m'. split; [done|].
      split; [eapply bounded_mono; [exact Hb'|simpl; lia]|].
      assert (Hse : wired (w :: ws) s e) by (apply wired_cons; by left).
      intros x y. rewrite Hsame'. split; apply rtsc_subrel.
      * intros u v [H|H]; [|apply rtsc_lr; right; apply wired_cons; by right].
        apply Hsame1 in H as [H|[[Hu Hv]|[Hu Hv]]].
        -- apply rtsc_lr. by left.
        -- transitivity s; [apply rtsc_lr; by left|].
           transitivity e; [apply rtsc_lr; by right|].
           apply rtsc_rl. by left.
        -- transitivity e; [apply rtsc_lr; by left|].
           transitivity s; [apply rtsc_rl; by right|].
           apply rtsc_rl. by left.
      * intros u v [H|H].
        -- apply rtsc_lr. left. apply Hsame1. by left.
        -- apply wired_cons in H as [(_ & Hu & Hv)|H]; [|apply rtsc_lr; by right].
           assert (u = s) as -> by congruence. assert (v = e) as -> by congruence.
           apply rtsc_lr. left. apply Hsame1. right. left.
           split; by eapply same_refl.
    + destruct (startTerminalId w), (endTerminalId w); by apply Hskip.
Qed.

Lemma same_empty x y : same ∅ x y <-> x = y.
Proof.
  assert (Hr : forall z r, rep ∅ z r -> r = z).
  { intros z r [d H]. inversion H as [|? p ? ? Hz]; subst; [done|].
    by rewrite lookup_empty in Hz. }
  split.
  - intros (r & Hx & Hy). apply Hr in Hx, Hy. congruence.
  - intros ->. by eapply same_refl, bounded_empty.
Qed.

Lemma connectWires_connected ws fuel :
  (length ws < fuel)%nat ->
  exists m, connectWires fuel ∅ ws = Some m /\ bounded m (length ws) /\
    forall x y, same m x y <-> connected ws x y.
Proof.
  intros Hf.
  destruct (connectWires_spec ws ∅ 0 fuel bounded_empty) as (m & E & Hb & Hs); [simpl; lia|].
  exists m. split; [done|]. split; [done|].
  intros x y. rewrite Hs. unfold connected. split; apply rtsc_subrel.
  - intros u v [H|H]; [|by apply rtsc_lr]. apply same_empty in H as ->. reflexivity.
  - intros u v H. apply rtsc_lr. by right.
Qed.

(** ** Step 4: the groups *)

Lemma pushGroup_keys r t g :
  map fst (pushGroup r t g) =
  if decide (r ∈ map fst g) then map fst g else map fst g ++ [r].
Proof.
  induction g as [|[k ts] g IH].
  - cbn [pushGroup map fst]. destruct (decide (r ∈ [])) as [Hin|_]; [|done].
    by apply elem_of_nil in Hin.
  - cbn [pushGroup map fst]. destruct (decide (k = r)) as [->|N]; cbn [map fst].
    + rewrite decide_True; [done|]. apply elem_of_cons. by left.
    + rewrite IH. destruct (decide (r ∈ map fst g)) as [Hin|Hin].
      * rewrite decide_True; [done|]. apply elem_of_cons. by right.
      * rewrite decide_False; [done|]. rewrite elem_of_cons. intros [?|?]; congruence.
Qed.

Lemma pushGroup_NoDup r t g : NoDup (map fst g) -> NoDup (map fst (pushGroup r t g)).
Proof.
  intros H. rewrite pushGroup_keys. destruct (decide (r ∈ map fst g)); [done|].
  apply NoDup_app. split; [done|]. split; [|apply NoDup_singleton].
  intros x Hx Hx'. apply list_elem_of_singleton in Hx' as ->. done.
Qed.

Lemma pushGroup_ok m r t g :
  rep m (t_id t) r -> Forall (group_ok m) g -> Forall (group_ok m) (pushGroup r t g).
Proof.
  intros Hr. induction 1 as [|[k ts] g [Hne Hk] Hg IH]; simpl.
  - constructor; [|constructor]. split; [done|]. simpl.
    intros t' Ht'. apply list_elem_of_singleton in Ht' as ->. done.
  - destruct (decide (k = r)) as [->|N].
    + constructor; [|done]. split; simpl in *.
      * by destruct ts.
      * intros t' Ht'. apply elem_of_app in Ht' as [Ht'|Ht']; [by apply Hk|].
        apply list_elem_of_singleton in Ht' as ->. done.
    + constructor; [|done]. by split.
Qed.

Lemma pushGroup_perm r t g :
  concat (map snd (pushGroup r t g)) ≡ₚ concat (map snd g) ++ [t].
Proof.
  induction g as [|[k ts] g IH]; simpl; [done|].
  destruct (decide (k = r)); simpl.
  - rewrite <- !app_assoc. apply Permutation_app_head, Permutation_app_comm.
  - by rewrite IH, app_assoc.
Qed.

Lemma groupTerminals_spec m0 k fuel ts : forall m g,
  bounded m0 k -> (k < fuel)%nat -> refines m0 m -> groups_ok m0 g ->
  exists g', groupTerminals fuel m ts g = Some g' /\ groups_ok m0 g' /\
             concat (map snd g') ≡ₚ concat (map snd g) ++ ts.
Proof.
  induction ts as [|t ts IH]; intros m g Hb Hf Href [Hnd Hok].
  - exists g. split; [done|]. split; [done|]. by rewrite app_nil_r.
  - simpl. destruct (Hb (t_id t)) as (r & d & Hr & Hd).
    destruct (Href _ _ _ Hr) as (d' & Hd' & Hr').
    destruct (getParent_spec _ _ _ _ Hr' fuel) as (m1 & -> & Href1); [lia|].
    destruct (IH m1 (pushGroup r t g)) as (g' & E & Hg' & Hp); [done..| | |].
    + by eapply refines_trans.
    + split; [by apply pushGroup_NoDup|]. apply pushGroup_ok; [by exists d|done].
    + exists g'. split; [done|]. split; [done|].
      rewrite Hp, pushGroup_perm, <- app_assoc. done.
Qed.

(** ** Step 5: the order of the nodes and their ids *)

Lemma insertNode_perm a l : insertNode a l ≡ₚ a :: l.
Proof.
  induction l as [|b l IH]; simpl; [done|].
  destruct (decide (compareNodes a b <= 0)); [done|].
  rewrite IH. apply Permutation_swap.
Qed.

Lemma sortNodes_perm l : sortNodes l ≡ₚ l.
Proof.
  induction l as [|a l IH]; simpl; [done|].
  rewrite insertNode_perm. by constructor.
Qed.

Lemma compareNodes_le a b : compareNodes a b <= 0 <-> (size b <= size a)%nat.
Proof. unfold compareNodes, size. lia. Qed.

Lemma insertNode_descending a l : descending l -> descending (insertNode a l).
Proof.
  induction l as [|b l IH]; simpl; [done|]. intros [Hb Hl].
  destruct (decide (compareNodes a b <= 0)) as [Hc|Hc]; simpl.
  - apply compareNodes_le in Hc. split; [|done].
    constructor; [done|]. eapply Forall_impl; [exact Hb|]. simpl. lia.
  - rewrite compareNodes_le in Hc. split; [|by apply IH].
    rewrite insertNode_perm. constructor; [lia|done].
Qed.

Lemma sortNodes_descending l : descending (sortNodes l).
Proof. induction l; simpl; [done|]. by apply insertNode_descending. Qed.

Lemma ofSize_cons k a l :
  ofSize k (a :: l) = if decide (size a = k) then a :: ofSize k l else ofSize k l.
Proof. unfold ofSize. by rewrite filter_cons. Qed.

Lemma insertNode_ofSize k a l :
  descending l -> ofSize k (insertNode a l) = ofSize k (a :: l).
Proof.
  induction l as [|b l IH]; simpl; [done|]. intros [Hb Hl].
  destruct (decide (compareNodes a b <= 0)) as [Hc|Hc]; [done|].
  rewrite compareNodes_le in Hc.
  rewrite (ofSize_cons k b), IH, !ofSize_cons by done.
  destruct (decide (size b = k)), (decide (size a = k)); try done. lia.
Qed.

Lemma sortNodes_stable : stableSort sortNodes.
Proof.
  intros l. split; [apply sortNodes_descending|].
  intros k. induction l as [|a l IH]; simpl; [done|].
  rewrite insertNode_ofSize by apply sortNodes_descending.
  rewrite !ofSize_cons, IH. done.
Qed.

(** Two ordered lists with the same nodes of each size, in the same order,
    are equal: the result of a stable sort is determined by its input. *)
Lemma descending_unique l1 : forall l2,
  descending l1 -> descending l2 ->
  (forall k, ofSize k l1 = ofSize k l2) -> l1 = l2.
Proof.
  assert (Hnil : forall l, (forall k, ofSize k l = []) -> l = []).
  { intros [|a l] H; [done|]. specialize (H (size a)).
    rewrite ofSize_cons, decide_True in H by done. done. }
  induction l1 as [|a l1 IH]; intros l2 H1 H2 Heq.
  - symmetry. apply Hnil. intros k. by rewrite <- Heq.
  - destruct l2 as [|b l2].
    { apply Hnil. intros k. by rewrite Heq. }
    destruct H1 as [Ha H1], H2 as [Hb H2].
    assert (Hin : forall x l (c : ElectricalNode), x ∈ ofSize (size x) (c :: l) ->
               Forall (fun y => (size y <= size c)%nat) l -> (size x <= size c)%nat).
    { intros x l c Hx Hl. unfold ofSize in Hx. apply list_elem_of_filter in Hx as [_ Hx].
      apply elem_of_cons in Hx as [->|Hx]; [done|].
      by apply (proj1 (Forall_forall _ _) Hl). }
    assert (Hab : size a = size b).
    { apply Nat.le_antisymm.
      - apply (Hin a l2 b); [|done]. rewrite <- Heq, ofSize_cons, decide_True by done.
        apply elem_of_cons. by left.
      - apply (Hin b l1 a); [|done]. rewrite Heq, ofSize_cons, decide_True by done.
        apply elem_of_cons. by left. }
    pose proof (Heq (size a)) as E.
    rewrite !ofSize_cons, decide_True in E by done.
    rewrite decide_True in E by done. injection E as -> E.
    f_equal. apply IH; [done..|].
    intros k. specialize (Heq k). rewrite !ofSize_cons in Heq.
    destruct (decide (size b = k)); [by injection Heq|done].
Qed.

Lemma stableSort_unique sort1 sort2 l :
  stableSort sort1 -> stableSort sort2 -> sort1 l = sort2 l.
Proof.
  intros H1 H2. destruct (H1 l) as [D1 E1], (H2 l) as [D2 E2].
  apply descending_unique; [done..|]. intros k. by rewrite E1, E2.
Qed.

Lemma stableSort_perm sort l : stableSort sort -> sort l ≡ₚ l.
Proof.
  intros H. rewrite (stableSort_unique sort sortNodes l H sortNodes_stable).
  apply sortNodes_perm.
Qed.

Lemma assignIds_terminals l : map n_terminals (assignIds l) = map n_terminals l.
Proof.
  unfold assignIds. apply list_eq. intros i.
  rewrite !list_lookup_fmap, list_lookup_imap. by destruct (l !! i).
Qed.

Lemma descending_terminals l1 : forall l2,
  map n_terminals l1 = map n_terminals l2 -> descending l1 -> descending l2.
Proof.
  assert (Hall : forall a b (k1 k2 : list ElectricalNode),
    n_terminals a = n_terminals b -> map n_terminals k1 = map n_terminals k2 ->
    Forall (fun c => (size c <= size a)%nat) k1 ->
    Forall (fun c => (size c <= size b)%nat) k2).
  { intros a b k1 k2 Hab. revert k2.
    induction k1 as [|c k1 IH]; intros [|c' k2] [=]; [constructor|].
    intros Hc. apply Forall_cons in Hc as [Hc Hl]. constructor; [|by apply IH].
    unfold size in *. congruence. }
  induction l1 as [|a l1 IH]; intros [|b l2] [=]; [done|].
  intros [Ha Hl]. split; [by eapply Hall|by apply IH].
Qed.

(** ** The extraction as a whole *)

Lemma connectWires_filter fuel ws : forall m,
  connectWires fuel m (filter (fun w => bound w = true) ws) = connectWires fuel m ws.
Proof.
  induction ws as [|w ws IH]; intros m; [done|].
  rewrite filter_cons. destruct (decide (bound w = true)) as [Hw|Hw].
  - simpl. destruct (startTerminalId w), (endTerminalId w); try done.
    rewrite Hw. by destruct (union fuel m s s0).
  - apply not_true_is_false in Hw. simpl. rewrite Hw, IH.
    by destruct (startTerminalId w), (endTerminalId w).
Qed.

(** The nodes returned are the groups of a forest whose classes are the
    connected components of the wiring. *)
Lemma extractNodesWith_groups sort fuel els ws :
  stableSort sort -> (length ws < fuel)%nat ->
  exists nodes m g,
    extractNodesWith sort fuel els ws = Some nodes /\
    bounded m (length ws) /\
    (forall x y, same m x y <-> connected ws x y) /\
    groups_ok m g /\
    map n_terminals nodes = map snd g /\
    map n_id nodes = map Z.of_nat (seq 0 (length nodes)) /\
    descending nodes /\
    concat (map snd g) ≡ₚ allTerminals els.
Proof.
  intros Hsort Hf. unfold extractNodesWith.
  destruct (connectWires_connected ws fuel Hf) as (m & -> & Hb & Hsame).
  destruct (groupTerminals_spec m (length ws) fuel (allTerminals els) m [])
    as (g0 & -> & [Hnd Hok] & Hperm); [done|done|apply refines_refl| |].
  { split; [apply NoDup_nil_2|constructor]. }
  simpl in Hperm.
  pose proof (stableSort_perm sort (nodesData g0) Hsort) as Hp.
  unfold nodesData in Hp.
  destruct (Permutation_map_inv _ _ Hp) as (g & Hg & Hgp).
  exists (assignIds (sort (nodesData g0))), m, g.
  split; [done|]. split; [done|]. split; [done|].
  split; [|split; [|split; [|split]]].
  - split.
    + by rewrite <- Hgp.
    + by rewrite <- Hgp.
  - rewrite assignIds_terminals. unfold nodesData. rewrite Hg, map_map. done.
  - unfold assignIds. generalize (sort (nodesData g0)) as l. intros l.
    rewrite length_imap. apply list_eq. intros i.
    rewrite !list_lookup_fmap, list_lookup_imap.
    destruct (l !! i) as [n|] eqn:E; simpl.
    + rewrite lookup_seq_lt; [done|]. by eapply lookup_lt_Some.
    + rewrite lookup_seq_ge; [done|]. by eapply lookup_ge_None.
  - destruct (Hsort (nodesData g0)) as [Hd _].
    eapply descending_terminals; [|exact Hd]. by rewrite assignIds_terminals.
  - by rewrite <- Hgp.
Qed.

Lemma extractNodes_fuel (ws : list Wire) : (length ws < S (length ws))%nat.
Proof. lia. Qed.

(** The recursion budget of [extractNodes] is never exhausted. *)
Lemma extractNodes_total elements wires : is_Some (extractNodes elements wires).
Proof.
  destruct (extractNodesWith_groups sortNodes (S (length wires)) elements wires
              sortNodes_stable (extractNodes_fuel wires)) as (n & _ & _ & E & _).
  unfold extractNodes. rewrite E. by eexists.
Qed.

Lemma node_group (nodes : list ElectricalNode) (g : Groups) i n :
  map n_terminals nodes = map snd g -> nodes !! i = Some n ->
  exists k, g !! i = Some (k, n_terminals n).
Proof.
  intros Heq Hn. apply (f_equal (fun l => l !! i)) in Heq.
  rewrite !list_lookup_fmap, Hn in Heq. simpl in Heq.
  destruct (g !! i) as [[k ts]|]; [|done]. exists k. simpl in Heq. congruence.
Qed.

Lemma group_node (nodes : list ElectricalNode) (g : Groups) i k ts :
  map n_terminals nodes = map snd g -> g !! i = Some (k, ts) ->
  exists n, nodes !! i = Some n /\ n_terminals n = ts.
Proof.
  intros Heq Hg. apply (f_equal (fun l => l !! i)) in Heq.
  rewrite !list_lookup_fmap, Hg in Heq. simpl in Heq.
  destruct (nodes !! i) as [n|]; [|done]. exists n. simpl in Heq. split; congruence.
Qed.

Lemma terminal_group (g : Groups) (ts : list Terminal) t :
  concat (map snd g) ≡ₚ ts -> t ∈ ts ->
  exists i k l, g !! i = Some (k, l) /\ t ∈ l.
Proof.
  intros Hp Ht. rewrite <- Hp in Ht. apply list_elem_of_In, in_concat in Ht as (l & Hl & Ht).
  apply in_map_iff in Hl as ([k l'] & <- & Hin).
  apply list_elem_of_In, list_elem_of_lookup in Hin as [i Hi].
  exists i, k, l'. split; [done|]. by apply list_elem_of_In.
Qed.

Lemma group_key_unique (g : Groups) i j k k' l l' :
  NoDup (map fst g) -> g !! i = Some (k, l) -> g !! j = Some (k', l') ->
  k = k' -> i = j.
Proof.
  intros Hnd Hi Hj ->. apply (NoDup_lookup (map fst g) i j k'); [done|..].
  - by rewrite list_lookup_fmap, Hi.
  - by rewrite list_lookup_fmap, Hj.
Qed.

Lemma holds_terminal_iff n id : holds n id <-> exists t, t ∈ n_terminals n /\ t_id t = id.
Proof.
  unfold holds. rewrite list_elem_of_fmap. split; intros (t & ? & ?); by exists t.
Qed.

(** The ids of the nodes are their positions, and every terminal of an
    element is in some node. *)
Lemma extractNodes_ids elements wires nodes i n :
  extractNodes elements wires = Some nodes -> nodes !! i = Some n ->
  n_id n = Z.of_nat i.
Proof.
  intros E Hn.
  destruct (extractNodesWith_groups sortNodes (S (length wires)) elements wires
              sortNodes_stable (extractNodes_fuel wires))
    as (nodes' & _ & _ & E' & _ & _ & _ & _ & Hids & _).
  assert (nodes' = nodes) as -> by (unfold extractNodes in E; congruence).
  apply (f_equal (fun l => l !! i)) in Hids.
  rewrite !list_lookup_fmap, Hn in Hids. simpl in Hids.
  rewrite lookup_seq_lt in Hids by (by eapply lookup_lt_Some).
  simpl in Hids. congruence.
Qed.

Lemma extractNodes_covers elements wires nodes t :
  extractNodes elements wires = Some nodes -> t ∈ allTerminals elements ->
  exists n, n ∈ nodes /\ t ∈ n_terminals n.
Proof.
  intros E Ht.
  destruct (extractNodesWith_groups sortNodes (S (length wires)) elements wires
              sortNodes_stable (extractNodes_fuel wires))
    as (nodes' & _ & g & E' & _ & _ & _ & Hts & _ & _ & Hp).
  assert (nodes' = nodes) as -> by (unfold extractNodes in E; congruence).
  destruct (terminal_group _ _ _ Hp Ht) as (i & k & l & Hg & Hl).
  destruct (group_node _ _ _ _ _ Hts Hg) as (n & Hn & <-).
  exists n. split; [by eapply list_elem_of_lookup_2|done].
Qed.

(** ** The partition *)

(** C1. For every list of elements and wires, [extractNodes] returns a list
    of nodes in which two terminals of the elements lie in a common node
    exactly when a chain of wires with both ends bound joins their ids;
    every terminal lies in exactly one node (no other node holds a terminal
    with its id); the nodes together hold the terminals of the elements, each
    as often as it occurs; and the wires with a missing end make no
    difference. *)
Theorem extractNodes_partition (elements : list CircuitElement)
    (wires : list Wire) :
  exists nodes, extractNodes elements wires = Some nodes /\
    (forall t1 t2, t1 ∈ allTerminals elements -> t2 ∈ allTerminals elements ->
       (exists n, n ∈ nodes /\ t1 ∈ n_terminals n /\ t2 ∈ n_terminals n) <->
       connected wires (t_id t1) (t_id t2)) /\
    (forall t, t ∈ allTerminals elements ->
       exists i n, nodes !! i = Some n /\ t ∈ n_terminals n /\
         forall j n', nodes !! j = Some n' -> holds n' (t_id t) -> j = i) /\
    concat (map n_terminals nodes) ≡ₚ allTerminals elements /\
    extractNodes elements (filter (fun w => bound w = true) wires) = Some nodes.
Proof.
  destruct (extractNodesWith_groups sortNodes (S (length wires)) elements wires
              sortNodes_stable (extractNodes_fuel wires))
    as (nodes & m & g & E & Hb & Hsame & [Hnd Hok] & Hts & _ & _ & Hp).
  exists nodes. split; [exact E|].
  assert (Hrep : forall i k l t, g !! i = Some (k, l) -> t ∈ l -> rep m (t_id t) k).
  { intros i k l t Hi Ht.
    destruct (Forall_lookup_1 _ _ _ _ Hok Hi) as [_ H]. by apply H. }
  split; [|split; [|split]].
  - intros t1 t2 H1 H2. rewrite <- Hsame. split.
    + intros (n & Hn & Hn1 & Hn2). apply list_elem_of_lookup in Hn as [i Hi].
      destruct (node_group _ _ _ _ Hts Hi) as [k Hg].
      exists k. split; eapply Hrep; eauto.
    + intros (r & Hr1 & Hr2).
      destruct (terminal_group _ _ _ Hp H1) as (i1 & k1 & l1 & Hg1 & Hl1).
      destruct (terminal_group _ _ _ Hp H2) as (i2 & k2 & l2 & Hg2 & Hl2).
      assert (k1 = r) as -> by (eapply rep_fun; eauto).
      assert (k2 = r) as -> by (eapply rep_fun; eauto).
      assert (i1 = i2) as -> by (eapply group_key_unique; eauto).
      assert (l1 = l2) as -> by congruence.
      destruct (group_node _ _ _ _ _ Hts Hg2) as (n & Hn & <-).
      exists n. split; [by eapply list_elem_of_lookup_2|done].
  - intros t Ht.
    destruct (terminal_group _ _ _ Hp Ht) as (i & k & l & Hg & Hl).
    destruct (group_node _ _ _ _ _ Hts Hg) as (n & Hn & <-).
    exists i, n. split; [done|]. split; [done|].
    intros j n' Hj Hh. apply holds_terminal_iff in Hh as (t' & Ht' & Hid).
    destruct (node_group _ _ _ _ Hts Hj) as [k' Hg'].
    eapply group_key_unique; [exact Hnd|exact Hg'|exact Hg|].
    eapply rep_fun; [eapply Hrep; [exact Hg'|exact Ht']|].
    rewrite Hid. eapply Hrep; eauto.
  - by rewrite Hts.
  - destruct (extractNodesWith_groups sortNodes
                (S (length (filter (fun w => bound w = true) wires))) elements
                (filter (fun w => bound w = true) wires) sortNodes_stable)
      as (nodes' & _ & _ & E' & _); [lia|].
    unfold extractNodes. rewrite E'.
    apply extractNodesWith_mono with (fuel' := S (length wires)) in E'.
    + unfold extractNodesWith in E'. rewrite connectWires_filter in E'.
      unfold extractNodes, extractNodesWith in E. congruence.
    + pose proof (length_filter (fun w => bound w = true) wires). lia.
Qed.

(** ** Order and numbering *)

Lemma descending_lookup l : forall i j a b,
  descending l -> l !! i = Some a -> l !! j = Some b -> (i < j)%nat ->
  (size b <= size a)%nat.
Proof.
  induction l as [|c l IH]; intros i j a b Hd Hi Hj Hlt; [done|].
  destruct Hd as [Hc Hd]. destruct j as [|j]; [lia|]. simpl in Hj.
  destruct i as [|i]; simpl in Hi.
  - injection Hi as ->. apply (proj1 (Forall_forall _ _) Hc).
    by eapply list_elem_of_lookup_2.
  - eapply IH; eauto. lia.
Qed.

(** C2. The nodes returned by [extractNodes] carry the ids 0, 1, 2, ... in
    the order of the list, and that order is by descending number of
    terminals: the node with id 0 (ground) is a largest one, and for [i < j]
    the node with id [i] has at least as many terminals as the node with id
    [j]. *)
Theorem extractNodes_descending (elements : list CircuitElement)
    (wires : list Wire) :
  exists nodes, extractNodes elements wires = Some nodes /\
    (forall i n, nodes !! i = Some n -> n_id n = Z.of_nat i) /\
    (forall ni nj, ni ∈ nodes -> nj ∈ nodes -> n_id ni < n_id nj ->
       (length (n_terminals nj) <= length (n_terminals ni))%nat) /\
    (forall n0 n, nodes !! 0%nat = Some n0 -> n ∈ nodes ->
       n_id n0 = 0 /\ (length (n_terminals n) <= length (n_terminals n0))%nat).
Proof.
  destruct (extractNodesWith_groups sortNodes (S (length wires)) elements wires
              sortNodes_stable (extractNodes_fuel wires))
    as (nodes & _ & _ & E & _ & _ & _ & _ & Hids & Hd & _).
  exists nodes. split; [exact E|].
  assert (Hid : forall i n, nodes !! i = Some n -> n_id n = Z.of_nat i).
  { intros i n Hn. apply (f_equal (fun l => l !! i)) in Hids.
    rewrite !list_lookup_fmap, Hn in Hids. simpl in Hids.
    rewrite lookup_seq_lt in Hids by (by eapply lookup_lt_Some).
    simpl in Hids. congruence. }
  split; [exact Hid|]. split.
  - intros ni nj Hi Hj Hlt.
    apply list_elem_of_lookup in Hi as [i Hi], Hj as [j Hj].
    rewrite (Hid _ _ Hi), (Hid _ _ Hj) in Hlt.
    apply (descending_lookup nodes i j ni nj); [done..|lia].
  - intros n0 n H0 Hn. split; [by apply Hid in H0|].
    apply list_elem_of_lookup in Hn as [[|j] Hj]; [by simplify_eq|].
    apply (descending_lookup nodes 0 (S j) n0 n); [done..|lia].
Qed.

Lemma extractNodes_descending_witness :
  exists nodes, extractNodes Examples.chainElements Examples.chainWires = Some nodes /\
    map (fun n => (n_id n, length (n_terminals n))) nodes
    = [(0, 4%nat); (1, 1%nat); (2, 1%nat)].
Proof.
  destruct (extractNodes_descending Examples.chainElements Examples.chainWires)
    as (nodes & E & _).
  exists nodes. split; [exact E|].
  vm_compute in E. injection E as <-. reflexivity.
Defined.

(** ** Determinism *)

(** C8. Extraction is a function of the elements and the wires: whatever
    stable sorting routine the engine uses and whatever recursion depth it
    allows beyond the number of wires, two runs on the same input return
    the same list of nodes, with the same terminals in each node, the same
    ids and the same ground node; it is the list [extractNodes] returns. *)
Theorem extractNodes_deterministic sort1 sort2 fuel1 fuel2
    (elements : list CircuitElement) (wires : list Wire) :
  stableSort sort1 -> stableSort sort2 ->
  (length wires < fuel1)%nat -> (length wires < fuel2)%nat ->
  exists nodes,
    extractNodesWith sort1 fuel1 elements wires = Some nodes /\
    extractNodesWith sort2 fuel2 elements wires = Some nodes /\
    extractNodes elements wires = Some nodes.
Proof.
  intros Hs1 Hs2 Hf1 Hf2.
  assert (Hfix : forall sort fuel, stableSort sort -> (length wires < fuel)%nat ->
    extractNodesWith sort fuel elements wires = extractNodes elements wires).
  { intros sort fuel Hs Hf.
    destruct (extractNodesWith_groups sort fuel elements wires Hs Hf)
      as (nodes & _ & _ & E & _).
    destruct (extractNodes_total elements wires) as [nodes' E'].
    rewrite E, E'.
    apply extractNodesWith_mono with (fuel' := (fuel + S (length wires))%nat) in E; [|lia].
    unfold extractNodes in E'.
    apply extractNodesWith_mono with (fuel' := (fuel + S (length wires))%nat) in E'; [|lia].
    unfold extractNodesWith in E, E'.
    destruct (connectWires _ ∅ wires) as [m|]; [|done].
    destruct (groupTerminals _ m _ []) as [g|]; [|done].
    rewrite (stableSort_unique sort sortNodes _ Hs sortNodes_stable) in E.
    congruence. }
  destruct (extractNodes_total elements wires) as [nodes E].
  exists nodes. rewrite !Hfix by done. done.
Qed.

Lemma extractNodes_deterministic_witness :
  exists nodes,
    extractNodesWith sortNodes 5 Examples.chainElements Examples.chainWires = Some nodes /\
    extractNodesWith sortNodes 9 Examples.chainElements Examples.chainWires = Some nodes /\
    extractNodes Examples.chainElements Examples.chainWires = Some nodes.
Proof.
  apply (extractNodes_deterministic sortNodes sortNodes 5 9
           Examples.chainElements Examples.chainWires
           sortNodes_stable sortNodes_stable).
  - simpl. lia.
  - simpl. lia.
Defined.

Lemma extractNodes_partition_witness :
  exists nodes, extractNodes Examples.chainElements Examples.chainWires = Some nodes /\
    map (fun n => map t_id (n_terminals n)) nodes
    = [["b"; "c"; "d"; "e"]; ["a"]; ["f"]].
Proof.
  destruct (extractNodes_partition Examples.chainElements Examples.chainWires)
    as (nodes & E & _).
  exists nodes. split; [exact E|].
  vm_compute in E. injection E as <-. reflexivity.
Defined.

End GraphFacts.

(** * Accuracy of the binary64 division and multiplication *)

Module FloatFacts.
Import FloatSpec.

Lemma shr_1_spec m r s :
  0 <= m ->
  shr_1 (Build_shr_record m r s) = Build_shr_record (m / 2) (Z.odd m) (r || s).
Proof.
  intros Hm. rewrite <- Z.div2_div.
  destruct m as [|[p|p|]|p]; try reflexivity. lia.
Qed.

Lemma shr_1_represents mrs N D :
  0 <= N -> 0 < D -> represents mrs N D -> represents (shr_1 mrs) N (2 * D).
Proof.
  intros HN HD [Hm Hl]. destruct mrs as [m r s]. simpl in Hm. subst m.
  rewrite shr_1_spec by (by apply Z.div_pos).
  pose proof (Z.mod_pos_bound N D HD) as Hrho.
  assert (N mod (2 * D) = N mod D + D * (if Z.odd (N / D) then 1 else 0)) as Hmod.
  { rewrite (Z.mul_comm 2 D), Z.rem_mul_r by lia. by rewrite Zmod_odd. }
  split; simpl.
  - rewrite Z.div_div by lia. by rewrite (Z.mul_comm D 2).
  - unfold locate in *. rewrite Hmod. simpl in Hl.
    destruct (Z.eqb_spec (N mod D) 0) as [H0|H0].
    + rewrite H0 in *. destruct r, s; try discriminate.
      destruct (Z.odd (N / D)); simpl.
      * destruct (Z.eqb_spec (0 + D * 1) 0); [lia|].
        destruct (Z.compare_spec (2 * (0 + D * 1)) (2 * D)); [done|lia|lia].
      * destruct (Z.eqb_spec (0 + D * 0) 0); [done|lia].
    + assert ((r || s)%bool = true) as ->.
      { destruct r, s; try reflexivity; discriminate. }
      destruct (Z.odd (N / D)); simpl.
      * destruct (Z.eqb_spec (N mod D + D * 1) 0); [lia|].
        destruct (Z.compare_spec (2 * (N mod D + D * 1)) (2 * D)); [lia|lia|done].
      * destruct (Z.eqb_spec (N mod D + D * 0) 0); [lia|].
        destruct (Z.compare_spec (2 * (N mod D + D * 0)) (2 * D)); [lia|done|lia].
Qed.

Lemma iter_pos_represents p : forall mrs N D,
  0 <= N -> 0 < D -> represents mrs N D ->
  represents (SpecFloat.iter_pos shr_1 p mrs) N (2 ^ Zpos p * D).
Proof.
  induction p as [p IH|p IH|]; intros mrs N D HN HD H; simpl SpecFloat.iter_pos.
  - replace (2 ^ Z.pos p~1 * D) with (2 ^ Z.pos p * (2 ^ Z.pos p * (2 * D))).
    + assert (0 < 2 ^ Z.pos p) by (apply Z.pow_pos_nonneg; lia).
      apply IH; [done|nia|]. apply IH; [done|lia|].
      by apply shr_1_represents.
    + replace (Z.pos p~1) with (Z.pos p + Z.pos p + 1) by lia.
      rewrite !Z.pow_add_r by lia. ring.
  - replace (2 ^ Z.pos p~0 * D) with (2 ^ Z.pos p * (2 ^ Z.pos p * D)).
    + assert (0 < 2 ^ Z.pos p) by (apply Z.pow_pos_nonneg; lia).
      apply IH; [done|nia|]. by apply IH.
    + replace (Z.pos p~0) with (Z.pos p + Z.pos p) by lia.
      rewrite !Z.pow_add_r by lia. ring.
  - change (2 ^ 1) with 2. by apply shr_1_represents.
Qed.

Lemma shr_represents mrs e n N D mrs' e' :
  0 <= N -> 0 < D -> represents mrs N D -> shr mrs e n = (mrs', e') ->
  exists k, 0 <= k /\ e' = e + k /\ represents mrs' N (2 ^ k * D).
Proof.
  intros HN HD H Hs. destruct n as [|p|p]; simpl in Hs; injection Hs as <- <-.
  - exists 0. rewrite Z.mul_1_l. repeat split; [lia|lia|apply H..].
  - exists (Z.pos p). split; [lia|]. split; [done|].
    by apply iter_pos_represents.
  - exists 0. rewrite Z.mul_1_l. repeat split; [lia|lia|apply H..].
Qed.

Lemma shr_record_of_loc_represents N D :
  represents (shr_record_of_loc (N / D) (locate N D)) N D.
Proof. split; by destruct (locate N D) as [|[]]. Qed.

Lemma round_nearest_even_bound mrs N D :
  0 <= N -> 0 < D -> represents mrs N D ->
  let m1 := round_nearest_even (shr_m mrs) (loc_of_shr_record mrs) in
  0 <= m1 /\ 2 * Z.abs (m1 * D - N) <= D.
Proof.
  intros HN HD [Hm Hl]. rewrite Hm, Hl. unfold locate.
  pose proof (Z.mod_pos_bound N D HD) as Hrho.
  pose proof (Z.div_mod N D) as Hdiv.
  pose proof (Z.div_pos N D HN HD) as Hq.
  destruct (Z.eqb_spec (N mod D) 0) as [H0|H0]; simpl.
  - split; [done|]. lia.
  - destruct (Z.compare_spec (2 * (N mod D)) D); simpl.
    + destruct (Z.even (N / D)); split; lia.
    + split; lia.
    + split; lia.
Qed.

(** A finite result of the rounding of [N / D * 2 ^ ex] keeps the sign and
    lies within one unit of its last place of that number. *)
Lemma binary_round_aux_bound sx ex N D s m e :
  0 <= N -> 0 < D ->
  binary_round_aux prec emax sx (N / D) ex (locate N D) = S754_finite s m e ->
  s = sx /\
  exists k, 0 <= k /\ e = ex + k /\
    Z.abs (Zpos m * (2 ^ k * D) - N) <= 2 ^ k * D.
Proof.
  intros HN HD. unfold binary_round_aux, shr_fexp.
  destruct (shr (shr_record_of_loc (N / D) (locate N D)) ex _)
    as [mrs' e'] eqn:E1.
  apply (shr_represents _ _ _ N D) in E1
    as (k1 & Hk1 & -> & H1); [|done|done|apply shr_record_of_loc_represents].
  assert (0 < 2 ^ k1) as Hp1 by (apply Z.pow_pos_nonneg; lia).
  assert (0 < 2 ^ k1 * D) as HD1 by nia.
  destruct (round_nearest_even_bound _ _ _ HN HD1 H1) as [Hm1 Hb1].
  set (m1 := round_nearest_even (shr_m mrs') (loc_of_shr_record mrs')) in *.
  destruct (shr (shr_record_of_loc m1 loc_Exact) (ex + k1) _)
    as [mrs'' e''] eqn:E2.
  apply (shr_represents _ _ _ m1 1) in E2 as (k2 & Hk2 & -> & [H2 _]);
    [|done|lia|].
  2:{ split; simpl; [by rewrite Z.div_1_r|].
      unfold locate. by rewrite Z.mod_1_r. }
  rewrite Z.mul_1_r in H2.
  destruct (shr_m mrs'') as [|m'|] eqn:Em; [done| |done].
  destruct (ex + k1 + k2 <=? emax - prec); [|done].
  intros [= <- <- <-]. split; [done|].
  exists (k1 + k2). split; [lia|]. split; [lia|].
  assert (0 < 2 ^ k2) as Hp2 by (apply Z.pow_pos_nonneg; lia).
  pose proof (Z.div_mod m1 (2 ^ k2)) as Hdiv.
  pose proof (Z.mod_pos_bound m1 (2 ^ k2) Hp2) as Hrho.
  rewrite <- H2 in Hdiv.
  rewrite Z.pow_add_r by lia.
  set (T := 2 ^ k2) in *. set (D1 := 2 ^ k1 * D) in *.
  set (rho := m1 mod T) in *.
  replace (2 ^ k1 * T * D) with (T * D1) by (unfold D1; ring).
  assert (m1 = T * Z.pos m' + rho) as Hm1' by lia.
  assert (0 <= rho * D1 <= (T - 1) * D1) as Hr by nia.
  replace (Z.pos m' * (T * D1) - N) with ((m1 * D1 - N) - rho * D1)
    by (rewrite Hm1'; ring).
  replace (T * D1) with ((T - 1) * D1 + D1) by ring.
  lia.
Qed.

Lemma locate_exact N : locate N 1 = loc_Exact.
Proof. unfold locate. by rewrite Z.mod_1_r. Qed.

Lemma SFmul_bound sx mx ex sy my ey s m e :
  SFmul prec emax (S754_finite sx mx ex) (S754_finite sy my ey)
    = S754_finite s m e ->
  s = xorb sx sy /\
  exists k, 0 <= k /\ e = ex + ey + k /\
    Z.abs (Zpos m * 2 ^ k - Zpos mx * Zpos my) <= 2 ^ k.
Proof.
  simpl. intros H.
  rewrite <- (Z.div_1_r (Z.pos (mx * my))) in H.
  rewrite <- (locate_exact (Z.pos (mx * my))) in H.
  apply binary_round_aux_bound in H as (-> & k & Hk & -> & Hb); [|lia|lia].
  split; [done|]. exists k. split; [done|]. split; [done|].
  rewrite Z.mul_1_r in Hb. by rewrite <- Pos2Z.inj_mul.
Qed.

Lemma new_location_locate N D :
  0 < D -> new_location D (N mod D) = locate N D.
Proof.
  intros HD. pose proof (Z.mod_pos_bound N D HD) as Hrho.
  unfold new_location, new_location_even, new_location_odd, locate.
  destruct (Z.even D) eqn:Ev; [done|].
  destruct (Z.eqb_spec (N mod D) 0); [done|]. f_equal.
  assert (Z.odd D = true) as Hodd by (by rewrite <- Z.negb_even, Ev).
  apply Z.odd_spec in Hodd as [h ->].
  destruct (Z.compare_spec (2 * (N mod (2 * h + 1)) + 1) (2 * h + 1)),
           (Z.compare_spec (2 * (N mod (2 * h + 1))) (2 * h + 1));
    try done; lia.
Qed.

Lemma SFdiv_bound sx mx ex sy my ey s m e :
  SFdiv prec emax (S754_finite sx mx ex) (S754_finite sy my ey)
    = S754_finite s m e ->
  s = xorb sx sy /\
  exists k sh, 0 <= k /\ 0 <= sh /\ e + sh = ex - ey + k /\
    Z.abs (Zpos m * (2 ^ k * Zpos my) - Zpos mx * 2 ^ sh) <= 2 ^ k * Zpos my.
Proof.
  unfold SFdiv, SFdiv_core_binary.
  set (e' := Z.min _ (ex - ey)).
  assert (0 <= ex - ey - e') as Hsh by lia.
  set (m' := match ex - ey - e' with
             | 0 => Z.pos mx
             | Z.pos _ => Z.shiftl (Z.pos mx) (ex - ey - e')
             | Z.neg _ => 0
             end).
  assert (m' = Z.pos mx * 2 ^ (ex - ey - e')) as Hm'.
  { unfold m'. destruct (ex - ey - e') as [|p|p] eqn:E.
    - simpl. lia.
    - apply Z.shiftl_mul_pow2. lia.
    - lia. }
  pose proof (Z.div_eucl_eq m' (Z.pos my)) as Heq.
  assert (Z.div_eucl m' (Z.pos my) = (m' / Z.pos my, m' mod Z.pos my)) as ->.
  { unfold Z.div, Z.modulo. by destruct (Z.div_eucl m' (Z.pos my)). }
  rewrite new_location_locate by lia. intros H.
  assert (0 <= m').
  { rewrite Hm'. assert (0 < 2 ^ (ex - ey - e')) by (apply Z.pow_pos_nonneg; lia).
    nia. }
  apply binary_round_aux_bound in H as (-> & k & Hk & -> & Hb); [|done|lia].
  split; [done|]. exists k, (ex - ey - e'). split; [done|]. split; [done|].
  split; [lia|]. by rewrite <- Hm'.
Qed.

(** Dividing and multiplying back, when both results are finite with a full
    mantissa: the product is within [2 ^ -50] of its magnitude of the
    dividend. *)
Lemma round_trip_finite x sy my ey si mi ei sp mp ep :
  SFdiv prec emax x (S754_finite sy my ey) = S754_finite si mi ei ->
  SFmul prec emax (S754_finite si mi ei) (S754_finite sy my ey)
    = S754_finite sp mp ep ->
  2 ^ 52 <= Zpos mi -> 2 ^ 52 <= Zpos mp ->
  exists sx mx ex, x = S754_finite sx mx ex /\ sp = sx /\
    forall c, 0 <= ex + c -> 0 <= ep + c ->
      2 ^ 50 * Z.abs (Zpos mp * 2 ^ (ep + c) - Zpos mx * 2 ^ (ex + c))
      <= Zpos mp * 2 ^ (ep + c).
Proof.
  intros Hd Hm Hi Hp.
  destruct x as [sx|sx| |sx mx ex]; try (simpl in Hd; discriminate).
  apply SFdiv_bound in Hd as (-> & k1 & sh & Hk1 & Hsh & He1 & Hb1).
  apply SFmul_bound in Hm as (-> & k2 & Hk2 & -> & Hb2).
  exists sx, mx, ex. split; [done|]. split; [by destruct sx, sy|].
  intros c Hex Hep.
  assert (0 < 2 ^ k1) as P1 by (apply Z.pow_pos_nonneg; lia).
  assert (0 < 2 ^ k2) as P2 by (apply Z.pow_pos_nonneg; lia).
  assert (0 < 2 ^ sh) as P3 by (apply Z.pow_pos_nonneg; lia).
  assert (0 < 2 ^ (ex + c)) as P4 by (apply Z.pow_pos_nonneg; lia).
  set (P := Z.pos mp * (2 ^ k1 * 2 ^ k2)).
  set (A := Z.pos mx * 2 ^ sh).
  set (X := Z.pos mi * (2 ^ k1 * Z.pos my)).
  assert (2 ^ 52 * Z.abs (X - A) <= X) as H1.
  { unfold X, A.
    assert (2 ^ 52 * (2 ^ k1 * Z.pos my) <= Z.pos mi * (2 ^ k1 * Z.pos my))
      by (apply Z.mul_le_mono_nonneg_r; lia).
    lia. }
  assert (2 ^ 52 * Z.abs (P - X) <= P) as H2.
  { unfold P, X.
    replace (Z.pos mp * (2 ^ k1 * 2 ^ k2) - Z.pos mi * (2 ^ k1 * Z.pos my))
      with (2 ^ k1 * (Z.pos mp * 2 ^ k2 - Z.pos mi * Z.pos my)) by ring.
    rewrite Z.abs_mul, (Z.abs_eq (2 ^ k1)) by lia.
    assert (2 ^ 52 * (2 ^ k1 * 2 ^ k2) <= Z.pos mp * (2 ^ k1 * 2 ^ k2))
      by (apply Z.mul_le_mono_nonneg_r; nia).
    assert (2 ^ k1 * Z.abs (Z.pos mp * 2 ^ k2 - Z.pos mi * Z.pos my)
            <= 2 ^ k1 * 2 ^ k2) by (apply Z.mul_le_mono_nonneg_l; lia).
    lia. }
  assert (2 ^ 50 * Z.abs (P - A) <= P) as H3 by lia.
  assert (Z.pos mp * 2 ^ (ei + ey + k2 + c) * 2 ^ sh = P * 2 ^ (ex + c)) as EP.
  { unfold P. rewrite <- !Z.mul_assoc. f_equal.
    rewrite <- !Z.pow_add_r by lia. f_equal. lia. }
  assert (Z.pos mx * 2 ^ (ex + c) * 2 ^ sh = A * 2 ^ (ex + c)) as EA.
  { unfold A. ring. }
  apply (Z.mul_le_mono_pos_r _ _ (2 ^ sh)); [done|].
  rewrite EP, <- Z.mul_assoc.
  rewrite <- (Z.abs_eq (2 ^ sh)) at 1 by lia. rewrite <- Z.abs_mul.
  rewrite Z.mul_sub_distr_r, EP, EA, <- Z.mul_sub_distr_r.
  rewrite Z.abs_mul, (Z.abs_eq (2 ^ (ex + c))) by lia.
  rewrite Z.mul_assoc. apply Z.mul_le_mono_nonneg_r; lia.
Qed.

Lemma digits2_pos_lower m : 2 ^ (Zpos (digits2_pos m) - 1) <= Zpos m.
Proof.
  induction m as [m IH|m IH|]; simpl digits2_pos.
  - rewrite Pos2Z.inj_succ.
    replace (Z.succ (Z.pos (digits2_pos m)) - 1)
      with (Z.pos (digits2_pos m) - 1 + 1) by lia.
    rewrite Z.pow_add_r by lia. lia.
  - rewrite Pos2Z.inj_succ.
    replace (Z.succ (Z.pos (digits2_pos m)) - 1)
      with (Z.pos (digits2_pos m) - 1 + 1) by lia.
    rewrite Z.pow_add_r by lia. lia.
  - done.
Qed.

Lemma normal_finite x :
  normal x = true ->
  exists s m e, Prim2SF x = S754_finite s m e /\ 2 ^ 52 <= Zpos m.
Proof.
  unfold normal. rewrite classify_spec. unfold SF64classify, SFclassify.
  destruct (Prim2SF x) as [[]|[]| |[] m e]; try done.
  - destruct (Z.eqb_spec (Z.pos (digits2_pos m)) prec) as [E|]; [|done].
    intros _. exists true, m, e. split; [done|].
    pose proof (digits2_pos_lower m) as H. by rewrite E in H.
  - destruct (Z.eqb_spec (Z.pos (digits2_pos m)) prec) as [E|]; [|done].
    intros _. exists false, m, e. split; [done|].
    pose proof (digits2_pos_lower m) as H. by rewrite E in H.
Qed.

Lemma finite_exponent x s m e :
  Prim2SF x = S754_finite s m e -> 0 <= e + 1074.
Proof.
  intros H. pose proof (Prim2SF_valid x) as Hv. rewrite H in Hv.
  simpl in Hv. unfold bounded, canonical_mantissa, fexp in Hv.
  apply andb_prop in Hv as [Hc _]. apply Z.eqb_eq in Hc.
  unfold SpecFloat.emin, emax, prec in Hc. lia.
Qed.

(** Dividing by [y] and multiplying by it again gives the dividend back up
    to a relative error of [2 ^ -50], provided the quotient and the product
    are normal numbers. *)
Lemma div_mul_round_trip (x y : float) :
  normal (x / y) = true -> normal (x / y * y) = true ->
  2 ^ 50 * Z.abs (units (x / y * y) - units x) <= Z.abs (units (x / y * y)).
Proof.
  intros Hq Hp.
  apply normal_finite in Hq as (si & mi & ei & Hq & Hi).
  apply normal_finite in Hp as (sp & mp & ep & Hp & Hmp).
  pose proof (finite_exponent _ _ _ _ Hp) as Hep.
  unfold units. rewrite Hp.
  rewrite mul_spec, Hq in Hp. rewrite div_spec in Hq.
  unfold SF64mul in Hp. unfold SF64div in Hq.
  destruct (Prim2SF y) as [sy|sy| |sy my ey] eqn:Ey.
  - destruct si; simpl in Hp; discriminate.
  - destruct si; simpl in Hp; discriminate.
  - destruct si; simpl in Hp; discriminate.
  - destruct (round_trip_finite _ _ _ _ _ _ _ _ _ _ Hq Hp Hi Hmp)
      as (sx & mx & ex & Hx & -> & Hb).
    pose proof (finite_exponent x sx mx ex Hx) as Hex.
    rewrite Hx. specialize (Hb 1074 Hex Hep).
    assert (0 < 2 ^ (ep + 1074)) by (apply Z.pow_pos_nonneg; lia).
    destruct sx.
    + rewrite !Z.mul_opp_l, Z.abs_opp.
      replace (- (Z.pos mp * 2 ^ (ep + 1074)) - - (Z.pos mx * 2 ^ (ex + 1074)))
        with (- (Z.pos mp * 2 ^ (ep + 1074) - Z.pos mx * 2 ^ (ex + 1074)))
        by ring.
      rewrite Z.abs_opp. rewrite (Z.abs_eq (Z.pos mp * _)) by nia. exact Hb.
    + rewrite (Z.abs_eq (Z.pos mp * _)) by nia. exact Hb.
Qed.

(** The magnitude of a positive number is the number itself. *)
Lemma abs_of_pos x : (0 <? x)%float = true -> abs x = x.
Proof.
  rewrite ltb_spec. intros H. apply Prim2SF_inj. rewrite abs_spec.
  change (Prim2SF 0) with (S754_zero false) in H.
  by destruct (Prim2SF x) as [[]|[]| |[] m e].
Qed.

(** A magnitude is NaN or at least 0. *)
Lemma abs_nonneg x : abs x <> nan -> (0 <=? abs x)%float = true.
Proof.
  intros H. rewrite leb_spec.
  change (Prim2SF 0) with (S754_zero false).
  assert (Prim2SF (abs x) <> S754_nan) as Hn.
  { intros E. apply H, Prim2SF_inj. by rewrite E. }
  rewrite abs_spec in *.
  by destruct (Prim2SF x) as [[]|[]| |[] m e].
Qed.

End FloatFacts.

(** * Properties of the solver *)

Module SolverFacts.
Import Graph GraphSpec Solver SolverSpec FloatSpec GraphFacts FloatFacts.

(** ** The shape of a run *)

Lemma emptyResult_voltages r :
  nodeVoltages r !! 0 = Some 0%float -> r <> emptyResult.
Proof. intros H ->. simpl in H. by rewrite lookup_empty in H. Qed.

Lemma extractVoltages_keys count : forall start x nv nv',
  extractVoltages count start x nv = Some nv' ->
  forall k, nv' !! k =
    if decide (start < k <= start + Z.of_nat count) then get x (k - 1) 0
    else nv !! k.
Proof.
  induction count as [|count IH]; intros start x nv nv' H k.
  - simpl in H. injection H as <-. rewrite decide_False by lia. done.
  - simpl in H. apply bind_Some in H as (v & Hv & H).
    rewrite (IH _ _ _ _ H k).
    destruct (decide (start + 1 < k <= start + 1 + Z.of_nat count)) as [Hk|Hk].
    + rewrite decide_True by lia. done.
    + destruct (decide (k = start + 1)) as [->|Hne].
      * rewrite decide_True by lia. rewrite lookup_insert_eq.
        by replace (start + 1 - 1) with start by lia.
      * rewrite decide_False by lia. by rewrite lookup_insert_ne.
Qed.

Lemma extractVoltages_get count : forall start x nv nv',
  extractVoltages count start x nv = Some nv' ->
  forall k, start < k <= start + Z.of_nat count -> is_Some (get x (k - 1) 0).
Proof.
  induction count as [|count IH]; intros start x nv nv' H k Hk; [lia|].
  simpl in H. apply bind_Some in H as (v & Hv & H).
  destruct (decide (k = start + 1)) as [->|Hne].
  - replace (start + 1 - 1) with start by lia. by eexists.
  - apply (IH _ _ _ _ H). lia.
Qed.

(** A run that does not return the empty result went through every stage. *)
Lemma solveCircuit_full lib els ws r :
  solveCircuit lib els ws = Some r -> r <> emptyResult ->
  exists nodes A z x,
    els <> [] /\ extractNodes els ws = Some nodes /\
    Z.of_nat (length nodes) - 1 > 0 /\
    assemble nodes els = Some (A, z) /\ solveSystem lib A z = Some x /\
    deriveResult nodes els x = Some r.
Proof.
  intros H Hne. unfold solveCircuit in H.
  destruct els as [|e els]; [by simplify_eq|].
  apply bind_Some in H as (nodes & Hn & H).
  unfold solveNodes in H.
  destruct (decide (Z.of_nat (length nodes) - 1 <= 0)); [by simplify_eq|].
  apply bind_Some in H as ([A z] & HA & H). simpl in H.
  destruct (solveSystem lib A z) as [x|] eqn:Hx; [|by simplify_eq].
  exists nodes, A, z, x. repeat split; try done. lia.
Qed.

Lemma deriveResult_voltages nodes els x r :
  deriveResult nodes els x = Some r ->
  forall k, nodeVoltages r !! k =
    if decide (k = 0) then Some 0%float
    else if decide (0 < k <= Z.of_nat (length nodes) - 1) then get x (k - 1) 0
    else None.
Proof.
  unfold deriveResult. intros H.
  apply bind_Some in H as (nv & Hnv & H).
  apply bind_Some in H as (cp & _ & H).
  apply bind_Some in H as (cp' & _ & H). injection H as <-. simpl.
  intros k. rewrite (extractVoltages_keys _ _ _ _ _ Hnv k).
  destruct (decide (k = 0)) as [->|Hk].
  - rewrite decide_False by lia. apply lookup_singleton_eq.
  - rewrite lookup_singleton_ne by done.
    destruct (decide (0 < k <= Z.of_nat (length nodes) - 1)).
    + rewrite decide_True by lia. done.
    + rewrite decide_False by lia. done.
Qed.

(** ** Ground *)

(** C4. Whenever [solveCircuit] returns a result other than the empty one,
    its [nodeVoltages] map has the entry [0 -> 0.0]. *)
Theorem solveCircuit_ground lib (elements : list CircuitElement)
    (wires : list Wire) r :
  solveCircuit lib elements wires = Some r -> r <> emptyResult ->
  nodeVoltages r !! 0 = Some 0%float.
Proof.
  intros H Hne.
  destruct (solveCircuit_full _ _ _ _ H Hne) as (nodes & A & z & x & _ & _ & _ & _ & _ & Hr).
  rewrite (deriveResult_voltages _ _ _ _ Hr 0). by rewrite decide_True.
Qed.

Lemma solveCircuit_ground_witness :
  exists r,
    solveCircuit MathJS.lib Examples.loopElements Examples.loopWires = Some r /\
    nodeVoltages r !! 0 = Some 0%float /\ nodeVoltages r !! 1 = Some (-5)%float.
Proof.
  eexists. split; [vm_compute; reflexivity|]. split.
  - apply (solveCircuit_ground MathJS.lib Examples.loopElements Examples.loopWires).
    + vm_compute. reflexivity.
    + apply emptyResult_voltages. vm_compute. reflexivity.
  - vm_compute. reflexivity.
Defined.

(** ** Assignment to a plain object *)

Lemma assign_proto v obj : assign "__proto__" v obj = obj.
Proof. unfold assign. by rewrite decide_True. Qed.

Lemma assign_eq key v obj :
  key <> "__proto__" -> assign key v obj !! key = Some v.
Proof.
  intros H. unfold assign. rewrite decide_False by done.
  by rewrite lookup_insert_eq.
Qed.

Lemma assign_ne key key' v obj :
  key' <> key -> assign key v obj !! key' = obj !! key'.
Proof.
  intros H. unfold assign. destruct (decide (key = "__proto__")); [done|].
  by rewrite lookup_insert_ne.
Qed.

Lemma dom_assign key v obj :
  dom (assign key v obj) = dom obj ∪ ({[key]} ∖ {["__proto__"]}).
Proof.
  unfold assign. destruct (decide (key = "__proto__")) as [->|H].
  - set_solver.
  - rewrite dom_insert_L. set_solver.
Qed.

(** ** The keys of the result *)

Lemma deriveVSource_dom nodes n x nv l : forall idx cp cp',
  forEachIdx (deriveVSource nodes n x nv) idx l cp = Some cp' ->
  dom (fst cp') = dom (fst cp) ∪ (idSet l ∖ {["__proto__"]}) /\
  dom (snd cp') = dom (snd cp) ∪ (idSet l ∖ {["__proto__"]}).
Proof.
  unfold idSet.
  induction l as [|e l IH]; intros idx cp cp' H; simpl in H.
  - injection H as <-. simpl. split; set_solver.
  - apply bind_Some in H as ([c1 p1] & He & H).
    destruct (IH _ _ _ H) as [-> ->]. destruct cp as [c p].
    unfold deriveVSource in He.
    apply bind_Some in He as (cur & _ & He).
    apply bind_Some in He as (i0 & _ & He).
    apply bind_Some in He as (i1 & _ & He).
    injection He as <- <-. simpl. rewrite !dom_assign. split; set_solver.
Qed.

Lemma isVSource_type e :
  isVSource e = match e_type e with
                | VoltageSource | VCVS => true
                | _ => false
                end.
Proof. unfold isVSource. by destruct (e_type e). Qed.

Lemma deriveElement_dom nodes nv l : forall cp cp',
  forEach (deriveElement nodes nv) l cp = Some cp' ->
  dom (fst cp') =
    dom (fst cp) ∪
    (idSet (filter (fun e => isVSource e = false) l) ∖ {["__proto__"]}) /\
  dom (snd cp') =
    dom (snd cp) ∪
    (idSet (filter (fun e => isVSource e = false) l) ∖ {["__proto__"]}).
Proof.
  unfold idSet.
  induction l as [|e l IH]; intros cp cp' H; simpl in H.
  - injection H as <-. simpl. split; set_solver.
  - apply bind_Some in H as ([c1 p1] & He & H).
    destruct (IH _ _ H) as [-> ->]. destruct cp as [c p].
    rewrite filter_cons. unfold deriveElement in He.
    destruct (decide (isVSource e = false)) as [Hv|Hv];
      rewrite isVSource_type in Hv; destruct (e_type e); try done; simpl;
      first
        [ apply bind_Some in He as (i0 & _ & He);
          apply bind_Some in He as (i1 & _ & He);
          injection He as <- <-; simpl; rewrite !dom_assign; split; set_solver
        | injection He as <- <-; done ].
Qed.

Lemma idSet_split l :
  idSet (vSources l) ∪ idSet (filter (fun e => isVSource e = false) l) = idSet l.
Proof.
  unfold idSet, vSources. induction l as [|e l IH]; [set_solver|].
  rewrite !filter_cons.
  destruct (decide (isVSource e = true)) as [Ht|Ht],
           (decide (isVSource e = false)) as [Hf|Hf].
  - congruence.
  - cbn [map list_to_set]. set_solver.
  - cbn [map list_to_set]. set_solver.
  - by destruct (isVSource e).
Qed.

(** The keys of a result other than the empty one. *)
Lemma deriveResult_keys nodes elements x r :
  deriveResult nodes elements x = Some r ->
  dom (elementCurrents r) = idSet elements ∖ {["__proto__"]} /\
  dom (elementPower r) = idSet elements ∖ {["__proto__"]}.
Proof.
  intros Hr. unfold deriveResult in Hr.
  apply bind_Some in Hr as (nv & Hnv & Hr).
  apply bind_Some in Hr as (cp & Hcp & Hr).
  apply bind_Some in Hr as (cp' & Hcp' & Hr). injection Hr as <-. simpl in *.
  destruct (deriveVSource_dom _ _ _ _ _ _ _ _ Hcp) as [Hc Hp].
  destruct (deriveElement_dom _ _ _ _ _ Hcp') as [Hc' Hp'].
  simpl in Hc, Hp. rewrite dom_empty_L in Hc, Hp.
  split.
  - rewrite Hc', Hc, <- (idSet_split elements). set_solver.
  - rewrite Hp', Hp, <- (idSet_split elements). set_solver.
Qed.

(** C10. In a result other than the empty one, [elementCurrents] and
    [elementPower] have an entry for the id of every element, of whatever
    kind, except for the id ["__proto__"], and for nothing else, and the keys
    of [nodeVoltages] are the integers from 0 to the number of non-ground
    nodes. *)
Theorem solveCircuit_keys lib (elements : list CircuitElement)
    (wires : list Wire) r nodes :
  solveCircuit lib elements wires = Some r -> r <> emptyResult ->
  extractNodes elements wires = Some nodes ->
  dom (elementCurrents r) =
    list_to_set (map e_id elements) ∖ {["__proto__"]} /\
  dom (elementPower r) =
    list_to_set (map e_id elements) ∖ {["__proto__"]} /\
  forall k, is_Some (nodeVoltages r !! k) <->
            0 <= k <= Z.of_nat (length nodes) - 1.
Proof.
  intros H Hne Hn.
  destruct (solveCircuit_full _ _ _ _ H Hne)
    as (nodes' & A & z & x & _ & Hn' & Hpos & _ & _ & Hr).
  assert (nodes' = nodes) as -> by congruence.
  pose proof (deriveResult_voltages _ _ _ _ Hr) as Hv.
  destruct (deriveResult_keys _ _ _ _ Hr) as [Hc Hp].
  split; [exact Hc|split; [exact Hp|]].
  unfold deriveResult in Hr.
  apply bind_Some in Hr as (nv & Hnv & Hr).
  apply bind_Some in Hr as (cp & Hcp & Hr).
  apply bind_Some in Hr as (cp' & Hcp' & Hr). injection Hr as <-. simpl in *.
  intros k. rewrite Hv.
  destruct (decide (k = 0)) as [->|Hk]; [split; [lia|by eexists]|].
  destruct (decide (0 < k <= Z.of_nat (length nodes) - 1)) as [Hin|Hout].
  - split; [lia|]. intros _.
    apply (extractVoltages_get _ _ _ _ _ Hnv). lia.
  - split; [by intros [? ?]|lia].
Qed.

Lemma solveCircuit_keys_witness :
  exists r,
    solveCircuit MathJS.lib Examples.loopElements Examples.loopWires = Some r /\
    dom (elementCurrents r) = list_to_set ["V1"; "R1"] /\
    dom (elementPower r) = list_to_set ["V1"; "R1"] /\
    forall k, is_Some (nodeVoltages r !! k) <-> 0 <= k <= 1.
Proof.
  destruct (solveCircuit MathJS.lib Examples.loopElements Examples.loopWires)
    as [r|] eqn:E; [|vm_compute in E; discriminate].
  exists r. split; [reflexivity|].
  apply (solveCircuit_keys MathJS.lib Examples.loopElements Examples.loopWires r
           [mkNode 0 [Examples.term "a"; Examples.term "c"];
            mkNode 1 [Examples.term "b"; Examples.term "d"]]).
  - exact E.
  - apply emptyResult_voltages. vm_compute in E. injection E as <-.
    vm_compute. reflexivity.
  - vm_compute. reflexivity.
Defined.

(** With an element whose id is ["__proto__"] the keys are not the ids of
    the elements: the assignments to that key leave both maps without an
    entry for it. *)
Lemma solveCircuit_keys_counterexample :
  exists r,
    solveCircuit MathJS.lib Examples.protoElements Examples.loopWires = Some r /\
    r <> emptyResult /\
    map e_id Examples.protoElements = ["V1"; "__proto__"] /\
    elementCurrents r !! "__proto__" = None /\
    elementPower r !! "__proto__" = None /\
    dom (elementCurrents r) <> list_to_set (map e_id Examples.protoElements) /\
    dom (elementPower r) <> list_to_set (map e_id Examples.protoElements).
Proof.
  destruct (solveCircuit MathJS.lib Examples.protoElements Examples.loopWires)
    as [r|] eqn:E; [|vm_compute in E; discriminate].
  exists r. split; [reflexivity|].
  assert (Hc : elementCurrents r !! "__proto__" = None).
  { vm_compute in E. injection E as <-. vm_compute. reflexivity. }
  assert (Hp : elementPower r !! "__proto__" = None).
  { vm_compute in E. injection E as <-. vm_compute. reflexivity. }
  split.
  { apply emptyResult_voltages. vm_compute in E. injection E as <-.
    vm_compute. reflexivity. }
  split; [reflexivity|]. split; [exact Hc|]. split; [exact Hp|].
  split; intros Heq.
  - assert ("__proto__" ∈ dom (elementCurrents r)) as Hin.
    { rewrite Heq. cbn [map]. set_solver. }
    apply elem_of_dom in Hin as [v Hv]. congruence.
  - assert ("__proto__" ∈ dom (elementPower r)) as Hin.
    { rewrite Heq. cbn [map]. set_solver. }
    apply elem_of_dom in Hin as [v Hv]. congruence.
Qed.

(** ** The empty result *)

Lemma deriveResult_nonempty nodes els x r :
  deriveResult nodes els x = Some r -> r <> emptyResult.
Proof.
  intros H. apply emptyResult_voltages.
  rewrite (deriveResult_voltages _ _ _ _ H 0). by rewrite decide_True.
Qed.




(** C5. [solveCircuit] returns the empty result exactly when the element
    list is empty, or the topology has no non-ground node, or the matrix
    could be assembled and solving the system threw. *)
Theorem solveCircuit_empty_iff lib (elements : list CircuitElement)
    (wires : list Wire) :
  solveCircuit lib elements wires = Some emptyResult <->
  elements = [] \/
  exists nodes, extractNodes elements wires = Some nodes /\
    (Z.of_nat (length nodes) - 1 <= 0 \/
     exists A z, assemble nodes elements = Some (A, z) /\
                 solveSystem lib A z = None).
Proof.
  unfold solveCircuit. destruct elements as [|e els]; [split; [by left|done]|].
  split.
  - intros H. right. apply bind_Some in H as (nodes & Hn & H).
    exists nodes. split; [done|]. unfold solveNodes in H.
    destruct (decide (Z.of_nat (length nodes) - 1 <= 0)); [by left|]. right.
    apply bind_Some in H as ([A z] & HA & H). simpl in H.
    exists A, z. split; [done|].
    destruct (solveSystem lib A z) as [x|]; [|done].
    by apply deriveResult_nonempty in H.
  - intros [?|(nodes & Hn & H)]; [done|]. rewrite Hn. simpl. unfold solveNodes.
    destruct (decide (Z.of_nat (length nodes) - 1 <= 0)) as [|Hpos]; [done|].
    destruct H as [?|(A & z & -> & Hs)]; [done|]. simpl. by rewrite Hs.
Qed.

(** Without the third case the equivalence fails: the result is empty for a
    circuit with two elements and one non-ground node. *)
Lemma solveCircuit_empty_counterexample :
  solveCircuit MathJS.lib Examples.shortedElements Examples.shortedWires
    = Some emptyResult /\
  Examples.shortedElements <> [] /\
  exists nodes,
    extractNodes Examples.shortedElements Examples.shortedWires = Some nodes /\
    Z.of_nat (length nodes) - 1 = 1.
Proof.
  split; [vm_compute; reflexivity|]. split; [done|].
  eexists. split; [vm_compute; reflexivity|done].
Qed.

(** ** Resistors *)

Lemma abs_not_negative x : (abs x <? 0)%float = false.
Proof.
  rewrite ltb_spec, abs_spec. by destruct (Prim2SF x) as [[]|[]| |[]].
Qed.

(** The magnitude of a product is the product of the magnitudes, also
    after rounding. *)
Lemma SFabs_round_aux sx m e l :
  SFabs (binary_round_aux prec emax sx m e l)
  = binary_round_aux prec emax false m e l.
Proof.
  unfold binary_round_aux.
  destruct (shr_fexp prec emax m e l) as [mrs' e'].
  destruct (shr_fexp prec emax _ e' loc_Exact) as [mrs'' e''].
  destruct (shr_m mrs''); [done| |done].
  by destruct (e'' <=? emax - prec)%Z.
Qed.

Lemma abs_mul x y : abs (x * y) = (abs x * abs y)%float.
Proof.
  apply Prim2SF_inj. rewrite abs_spec, !mul_spec, !abs_spec.
  unfold SF64mul.
  destruct (Prim2SF x) as [[]|[]| |[]], (Prim2SF y) as [[]|[]| |[]];
    try reflexivity; apply SFabs_round_aux.
Qed.

Lemma deriveElement_other nodes nv k l : forall cp cp',
  forEach (deriveElement nodes nv) l cp = Some cp' ->
  (forall e, e ∈ l -> e_id e <> k) ->
  fst cp' !! k = fst cp !! k /\ snd cp' !! k = snd cp !! k.
Proof.
  induction l as [|e l IH]; intros cp cp' H Hk; simpl in H.
  - by injection H as <-.
  - apply bind_Some in H as ([c1 p1] & He & H).
    destruct (IH _ _ H) as [-> ->].
    { intros e' He'. apply Hk, elem_of_cons. by right. }
    assert (e_id e <> k) by (apply Hk, elem_of_cons; by left).
    destruct cp as [c p]. unfold deriveElement in He.
    destruct (e_type e); simpl;
      first
        [ apply bind_Some in He as (i0 & _ & He);
          apply bind_Some in He as (i1 & _ & He);
          injection He as <- <-; simpl; by rewrite !assign_ne by congruence
        | by injection He as <- <- ].
Qed.

Lemma deriveElement_resistor nodes nv l : forall cp cp' e,
  forEach (deriveElement nodes nv) l cp = Some cp' ->
  e ∈ l -> e_type e = Resistor -> e_id e <> "__proto__" ->
  (forall e', e' ∈ l -> e_id e' = e_id e -> e' = e) ->
  exists i0 i1, terminalId e 0 = Some i0 /\ terminalId e 1 = Some i1 /\
    let startV := toNumber (nv !! getNodeIndex nodes i0) in
    let endV := toNumber (nv !! getNodeIndex nodes i1) in
    let current := ((startV - endV) / e_value e)%float in
    fst cp' !! e_id e = Some current /\
    snd cp' !! e_id e = Some (abs (current * current * e_value e))%float.
Proof.
  induction l as [|e' l IH]; intros cp cp' e H Hin Hty Hkey Huniq.
  - by apply elem_of_nil in Hin.
  - simpl in H. apply bind_Some in H as ([c1 p1] & He & H).
    destruct (decide (e_id e ∈ map e_id l)) as [Hl|Hl].
    + apply list_elem_of_fmap in Hl as (e'' & Hid & Hin'').
      assert (e'' = e) as ->.
      { apply Huniq; [apply elem_of_cons; by right|done]. }
      apply (IH _ _ _ H Hin'' Hty Hkey).
      intros e1 H1. apply Huniq, elem_of_cons. by right.
    + assert (e' = e) as ->.
      { apply elem_of_cons in Hin as [->|Hin]; [done|].
        destruct Hl. by apply list_elem_of_fmap_2. }
      destruct (deriveElement_other nodes nv (e_id e) l _ _ H) as [-> ->].
      { intros e1 H1 Hid. apply Hl. rewrite <- Hid. by apply list_elem_of_fmap_2. }
      destruct cp as [c p]. unfold deriveElement in He. rewrite Hty in He.
      apply bind_Some in He as (i0 & H0 & He).
      apply bind_Some in He as (i1 & H1 & He).
      injection He as <- <-. exists i0, i1. simpl.
      by rewrite !assign_eq.
Qed.

(** C7. For a resistor whose id is not ["__proto__"] and is shared by no
    other element, in a result other than the empty one: the returned
    current is the binary64 quotient of the voltage of the node of its first
    terminal minus that of the node of its second terminal by its value;
    when that current and its binary64 product with the value are normal
    numbers, the product differs from the voltage difference by at most
    [2 ^ -50] of its own magnitude; the returned power is the magnitude of
    current times current times value, it is never negative and it is at
    least 0 unless it is NaN; and when the value is positive the power is
    the binary64 product of the magnitude of the current, the magnitude of
    the current and the value. *)
Theorem resistor_quantities lib (elements : list CircuitElement)
    (wires : list Wire) r nodes e :
  solveCircuit lib elements wires = Some r -> r <> emptyResult ->
  extractNodes elements wires = Some nodes ->
  e ∈ elements -> e_type e = Resistor ->
  e_id e <> "__proto__" ->
  (forall e', e' ∈ elements -> e_id e' = e_id e -> e' = e) ->
  exists i0 i1, terminalId e 0 = Some i0 /\ terminalId e 1 = Some i1 /\
    let startV := toNumber (nodeVoltages r !! getNodeIndex nodes i0) in
    let endV := toNumber (nodeVoltages r !! getNodeIndex nodes i1) in
    let current := ((startV - endV) / e_value e)%float in
    let power := abs (current * current * e_value e)%float in
    elementCurrents r !! e_id e = Some current /\
    elementPower r !! e_id e = Some power /\
    (normal current = true -> normal (current * e_value e) = true ->
     2 ^ 50 * Z.abs (units (current * e_value e) - units (startV - endV))
     <= Z.abs (units (current * e_value e))) /\
    (power <? 0)%float = false /\
    (power <> nan -> (0 <=? power)%float = true) /\
    ((0 <? e_value e)%float = true ->
     power = (abs current * abs current * e_value e)%float).
Proof.
  intros H Hne Hn Hin Hty Hkey Huniq.
  destruct (solveCircuit_full _ _ _ _ H Hne)
    as (nodes' & A & z & x & _ & Hn' & _ & _ & _ & Hr).
  assert (nodes' = nodes) as -> by congruence.
  unfold deriveResult in Hr.
  apply bind_Some in Hr as (nv & Hnv & Hr).
  apply bind_Some in Hr as (cp & Hcp & Hr).
  apply bind_Some in Hr as (cp' & Hcp' & Hr). injection Hr as <-.
  destruct (deriveElement_resistor _ _ _ _ _ _ Hcp' Hin Hty Hkey Huniq)
    as (i0 & i1 & H0 & H1 & Hc & Hp).
  exists i0, i1. simpl in *.
  split; [done|]. split; [done|]. split; [done|]. split; [done|].
  split; [apply div_mul_round_trip|].
  split; [apply abs_not_negative|].
  split; [apply abs_nonneg|].
  intros Hpos. by rewrite !abs_mul, (abs_of_pos _ Hpos).
Qed.

Lemma resistor_quantities_witness :
  exists r,
    solveCircuit MathJS.lib Examples.loopElements Examples.loopWires = Some r /\
    elementCurrents r !! "R1" = Some 2.5%float /\
    elementPower r !! "R1" = Some 12.5%float /\
    2 ^ 50 * Z.abs (units (2.5 * 2) - units (0 - -5)) <= Z.abs (units (2.5 * 2)) /\
    (12.5 <? 0)%float = false /\ (0 <=? 12.5)%float = true /\
    12.5%float = (abs 2.5 * abs 2.5 * 2)%float.
Proof.
  destruct (solveCircuit MathJS.lib Examples.loopElements Examples.loopWires)
    as [r|] eqn:E; [|vm_compute in E; discriminate].
  exists r. split; [reflexivity|].
  destruct (resistor_quantities MathJS.lib Examples.loopElements
              Examples.loopWires r
              [mkNode 0 [Examples.term "a"; Examples.term "c"];
               mkNode 1 [Examples.term "b"; Examples.term "d"]]
              (Examples.elem "R1" Resistor 2 ["c"; "d"]))
    as (i0 & i1 & H0 & H1 & Hc & Hp & Ht & Hneg & Hnn & Hsq).
  - exact E.
  - apply emptyResult_voltages. vm_compute in E. injection E as <-.
    vm_compute. reflexivity.
  - vm_compute. reflexivity.
  - apply elem_of_cons. right. apply elem_of_cons. by left.
  - reflexivity.
  - discriminate.
  - intros e' He' Hid.
    apply elem_of_cons in He' as [->|He']; [by vm_compute in Hid|].
    apply elem_of_cons in He' as [->|He']; [done|]. by apply elem_of_nil in He'.
  - vm_compute in H0. injection H0 as <-. vm_compute in H1. injection H1 as <-.
    vm_compute in E. injection E as <-.
    split; [exact Hc|]. split; [exact Hp|].
    split; [apply Ht; vm_compute; reflexivity|].
    split; [exact Hneg|].
    split; [apply Hnn; vm_compute; discriminate|].
    apply Hsq. vm_compute. reflexivity.
Defined.

(** The round trip and the formula for the power fail. With a zero-valued
    resistor between two terminals of the ground node the current and the
    power are NaN: the current times the value is within no tolerance of the
    voltage difference 0, and the power is not at least 0. With a negative
    value the power is positive and differs from the squared current times
    the value. With [2 ^ 600] V across [2 ^ -600] ohm the quotient overflows:
    the current and its product with the value are infinite. With
    [2 ^ -600] V across [2 ^ 600] ohm it underflows: the current and its
    product with the value are 0. A resistor whose id is ["__proto__"] has
    no entry, and of two resistors with one id the entry is that of the
    second: twice the returned 1.25 is not the 5 V across the first. *)
Lemma resistor_quantities_counterexample :
  (exists r nodes current power,
     solveCircuit MathJS.lib Examples.zeroElements Examples.zeroWires = Some r /\
     r <> emptyResult /\
     extractNodes Examples.zeroElements Examples.zeroWires = Some nodes /\
     getNodeIndex nodes "a" = 0 /\ getNodeIndex nodes "b" = 0 /\
     elementCurrents r !! "R1" = Some current /\
     elementPower r !! "R1" = Some power /\
     nodeVoltages r !! 0 = Some 0%float /\
     (forall tol, (abs (current * 0 - (0 - 0)) <=? tol)%float = false) /\
     (0 <=? power)%float = false) /\
  (exists r current power,
     solveCircuit MathJS.lib Examples.negativeElements Examples.negativeWires
       = Some r /\
     r <> emptyResult /\
     elementCurrents r !! "R1" = Some current /\
     elementPower r !! "R1" = Some power /\
     (0 <? power)%float = true /\
     (abs current * abs current * -2 <? 0)%float = true) /\
  (exists r nodes,
     solveCircuit MathJS.lib Examples.overflowElements Examples.loopWires
       = Some r /\
     r <> emptyResult /\
     extractNodes Examples.overflowElements Examples.loopWires = Some nodes /\
     getNodeIndex nodes "c" = 0 /\ getNodeIndex nodes "d" = 1 /\
     nodeVoltages r !! 0 = Some 0%float /\
     nodeVoltages r !! 1 = Some (- 0x1p+600)%float /\
     elementCurrents r !! "R1" = Some infinity /\
     (infinity * 0x1p-600)%float = infinity) /\
  (exists r nodes,
     solveCircuit MathJS.lib Examples.underflowElements Examples.loopWires
       = Some r /\
     r <> emptyResult /\
     extractNodes Examples.underflowElements Examples.loopWires = Some nodes /\
     getNodeIndex nodes "c" = 0 /\ getNodeIndex nodes "d" = 1 /\
     nodeVoltages r !! 0 = Some 0%float /\
     nodeVoltages r !! 1 = Some (- 0x1p-600)%float /\
     elementCurrents r !! "R1" = Some 0%float /\
     (0 * 0x1p+600)%float = 0%float) /\
  (exists r,
     solveCircuit MathJS.lib Examples.protoElements Examples.loopWires
       = Some r /\
     r <> emptyResult /\
     elementCurrents r !! "__proto__" = None /\
     elementPower r !! "__proto__" = None) /\
  (exists r nodes,
     solveCircuit MathJS.lib Examples.twinElements Examples.twinWires
       = Some r /\
     r <> emptyResult /\
     extractNodes Examples.twinElements Examples.twinWires = Some nodes /\
     getNodeIndex nodes "c" = 0 /\ getNodeIndex nodes "d" = 1 /\
     nodeVoltages r !! 0 = Some 0%float /\
     nodeVoltages r !! 1 = Some (-5)%float /\
     elementCurrents r !! "R1" = Some 1.25%float /\
     (1.25 * 2)%float = 2.5%float).
Proof.
  split; [|split; [|split; [|split; [|split]]]].
  - eexists _, _, nan, nan. split; [vm_compute; reflexivity|].
    split; [apply emptyResult_voltages; vm_compute; reflexivity|].
    split; [vm_compute; reflexivity|].
    split; [reflexivity|]. split; [reflexivity|].
    split; [vm_compute; reflexivity|]. split; [vm_compute; reflexivity|].
    split; [vm_compute; reflexivity|]. split; [|vm_compute; reflexivity].
    intros tol. rewrite leb_spec. reflexivity.
  - eexists _, _, _. split; [vm_compute; reflexivity|].
    split; [apply emptyResult_voltages; vm_compute; reflexivity|].
    split; [vm_compute; reflexivity|]. split; [vm_compute; reflexivity|].
    split; vm_compute; reflexivity.
  - eexists _, _. split; [vm_compute; reflexivity|].
    split; [apply emptyResult_voltages; vm_compute; reflexivity|].
    split; [vm_compute; reflexivity|].
    repeat split; vm_compute; reflexivity.
  - eexists _, _. split; [vm_compute; reflexivity|].
    split; [apply emptyResult_voltages; vm_compute; reflexivity|].
    split; [vm_compute; reflexivity|].
    repeat split; vm_compute; reflexivity.
  - eexists. split; [vm_compute; reflexivity|].
    split; [apply emptyResult_voltages; vm_compute; reflexivity|].
    split; vm_compute; reflexivity.
  - eexists _, _. split; [vm_compute; reflexivity|].
    split; [apply emptyResult_voltages; vm_compute; reflexivity|].
    split; [vm_compute; reflexivity|].
    repeat split; vm_compute; reflexivity.
Qed.

(** ** Looking up the node of a terminal *)

Lemma hasTerminal_holds id n : hasTerminal id n = true <-> holds n id.
Proof.
  unfold hasTerminal. rewrite existsb_exists, holds_terminal_iff.
  split; intros (t & Ht & Hid); exists t; split.
  - by apply list_elem_of_In.
  - by apply bool_decide_eq_true in Hid.
  - by apply list_elem_of_In.
  - by apply bool_decide_eq_true.
Qed.

Lemma getNodeIndex_range nodes id :
  (forall i n, nodes !! i = Some n -> n_id n = Z.of_nat i) ->
  -1 <= getNodeIndex nodes id <= Z.of_nat (length nodes) - 1.
Proof.
  intros Hids. unfold getNodeIndex.
  destruct (List.find (hasTerminal id) nodes) as [n|] eqn:E; [|lia].
  apply find_some in E as [Hin _].
  apply list_elem_of_In, list_elem_of_lookup in Hin as [i Hi].
  rewrite (Hids _ _ Hi). apply lookup_lt_Some in Hi. lia.
Qed.

Lemma getNodeIndex_resolved nodes id :
  (forall i n, nodes !! i = Some n -> n_id n = Z.of_nat i) ->
  (exists n, n ∈ nodes /\ holds n id) ->
  0 <= getNodeIndex nodes id.
Proof.
  intros Hids (n & Hn & Hh). unfold getNodeIndex.
  destruct (List.find (hasTerminal id) nodes) as [n'|] eqn:E.
  - apply find_some in E as [Hin _].
    apply list_elem_of_In, list_elem_of_lookup in Hin as [i Hi].
    rewrite (Hids _ _ Hi). lia.
  - apply find_none with (x := n) in E; [|by apply list_elem_of_In].
    apply hasTerminal_holds in Hh. congruence.
Qed.

(** ** Indices at or below ground receive no stamp *)


Ltac clip t :=
  destruct (Z.max_spec 0 t) as [[? ->]|[? ->]];
  [|rewrite ?(bool_decide_eq_false_2 (t > 0)) by lia;
    rewrite ?(bool_decide_eq_false_2 (0 > 0)) by lia;
    rewrite ?andb_false_r]; try reflexivity.

Lemma stampResistor_clip g t1 t2 A :
  stampResistor g t1 t2 A = stampResistor g (Z.max 0 t1) (Z.max 0 t2) A.
Proof. unfold stampResistor. clip t1; clip t2. Qed.

Lemma stampCurrentSource_clip v tA tB z :
  stampCurrentSource v tA tB z =
  stampCurrentSource v (Z.max 0 tA) (Z.max 0 tB) z.
Proof. unfold stampCurrentSource. clip tA; clip tB. Qed.

Lemma stampB_clip vIdx p n A :
  stampB vIdx p n A = stampB vIdx (Z.max 0 p) (Z.max 0 n) A.
Proof. unfold stampB. clip p; clip n. Qed.

Lemma stampC_clip vIdx p n A :
  stampC vIdx p n A = stampC vIdx (Z.max 0 p) (Z.max 0 n) A.
Proof. unfold stampC. clip p; clip n. Qed.

Lemma stampGain_clip vIdx gain p n A :
  stampGain vIdx gain p n A = stampGain vIdx gain (Z.max 0 p) (Z.max 0 n) A.
Proof. unfold stampGain. clip p; clip n. Qed.

Lemma forEach_ext {S E} (f g : S -> E -> option S) l :
  (forall s e, f s e = g s e) -> forall s, forEach f l s = forEach g l s.
Proof.
  intros H. induction l as [|e l IH]; intros s; [done|]. simpl.
  rewrite H. destruct (g s e); simpl; [apply IH|done].
Qed.

Lemma forEachIdx_ext {S E} (f g : S -> Z -> E -> option S) l :
  (forall s i e, f s i e = g s i e) ->
  forall i s, forEachIdx f i l s = forEachIdx g i l s.
Proof.
  intros H. induction l as [|e l IH]; intros i s; [done|]. simpl.
  rewrite H. destruct (g s i e); simpl; [apply IH|done].
Qed.

Section SameClippedIndices.
Variables nodes nodes' : list ElectricalNode.
Hypothesis Hidx : forall id,
  Z.max 0 (getNodeIndex nodes id) = Z.max 0 (getNodeIndex nodes' id).

Lemma stampElement_clip Az e : stampElement nodes Az e = stampElement nodes' Az e.
Proof.
  unfold stampElement. destruct Az as [A z].
  destruct (e_type e); try done.
  - destruct (terminalId e 0) as [i0|]; [|done].
    destruct (terminalId e 1) as [i1|]; [|done]. simpl.
    rewrite stampResistor_clip, !Hidx, <- stampResistor_clip. done.
  - destruct (terminalId e 0) as [i0|]; [|done].
    destruct (terminalId e 1) as [i1|]; [|done]. simpl.
    rewrite stampCurrentSource_clip, !Hidx, <- stampCurrentSource_clip. done.
Qed.

Lemma stampVSource_clip n Az idx e :
  stampVSource nodes n Az idx e = stampVSource nodes' n Az idx e.
Proof.
  unfold stampVSource. destruct Az as [A z].
  destruct (terminalId e 0) as [i0|]; [|done].
  destruct (terminalId e 1) as [i1|]; [|done]. simpl.
  rewrite stampB_clip, !Hidx, <- stampB_clip.
  destruct (stampB _ _ _ A) as [A1|]; [|done]. simpl.
  destruct (e_type e); try done.
  - rewrite stampC_clip, !Hidx, <- stampC_clip. done.
  - destruct (terminalId e 2) as [i2|]; [|done].
    destruct (terminalId e 3) as [i3|]; [|done]. simpl.
    rewrite stampC_clip, !Hidx, <- stampC_clip.
    destruct (stampC _ _ _ A1) as [A2|]; [|done]. simpl.
    rewrite stampGain_clip, !Hidx, <- stampGain_clip. done.
Qed.

Lemma assemble_clip els :
  length nodes = length nodes' -> assemble nodes els = assemble nodes' els.
Proof.
  intros Hlen. unfold assemble. rewrite <- Hlen.
  rewrite (forEach_ext _ _ els stampElement_clip).
  destruct (forEach (stampElement nodes') els _) as [Az|]; [|done]. simpl.
  destruct (addGmin _ 0 Az.1) as [A|]; [|done]. simpl.
  apply forEachIdx_ext. intros s i e. apply stampVSource_clip.
Qed.
End SameClippedIndices.

(** ** Assembly never leaves the matrix *)

Lemma returns_bind {A B} (P : A -> Prop) (Q : B -> Prop) (o : option A)
    (k : A -> option B) :
  returns P o -> (forall a, P a -> returns Q (k a)) -> returns Q (o ≫= k).
Proof. intros (a & -> & Ha) Hk. simpl. by apply Hk. Qed.

Lemma returns_when {A} (P : A -> Prop) (c : bool) (f : A -> option A) a :
  P a -> (c = true -> returns P (f a)) -> returns P (when c f a).
Proof. intros Ha Hf. destruct c; simpl; [by apply Hf|]. by exists a. Qed.

Lemma zeros_dims r c : dims (zeros r c) r c.
Proof.
  split; [apply length_replicate|]. apply Forall_replicate, length_replicate.
Qed.

Lemma set_returns M r c i j v :
  dims M r c -> 0 <= i < Z.of_nat r -> 0 <= j < Z.of_nat c ->
  returns (fun M' => dims M' r c) (set M i j v).
Proof.
  intros [Hr Hc] Hi Hj. unfold set. rewrite decide_True by lia.
  destruct (lookup_lt_is_Some_2 M (Z.to_nat i)) as [row Hrow]; [lia|].
  rewrite Hrow. simpl.
  pose proof (Forall_lookup_1 _ _ _ _ Hc Hrow) as Hlen. simpl in Hlen.
  rewrite decide_True by lia. eexists. split; [done|]. split.
  - by rewrite length_insert.
  - apply Forall_insert; [done|]. by rewrite length_insert.
Qed.

Lemma get_returns M r c i j :
  dims M r c -> 0 <= i < Z.of_nat r -> 0 <= j < Z.of_nat c ->
  is_Some (get M i j).
Proof.
  intros [Hr Hc] Hi Hj. unfold get. rewrite decide_True by lia.
  destruct (lookup_lt_is_Some_2 M (Z.to_nat i)) as [row Hrow]; [lia|].
  rewrite Hrow. simpl.
  pose proof (Forall_lookup_1 _ _ _ _ Hc Hrow) as Hlen. simpl in Hlen.
  apply lookup_lt_is_Some_2. lia.
Qed.

Lemma addAt_returns M r c i j v :
  dims M r c -> 0 <= i < Z.of_nat r -> 0 <= j < Z.of_nat c ->
  returns (fun M' => dims M' r c) (addAt M i j v).
Proof.
  intros HM Hi Hj. unfold addAt.
  destruct (get_returns M r c i j HM Hi Hj) as [old ->]. simpl.
  by apply set_returns.
Qed.

Lemma subAt_returns M r c i j v :
  dims M r c -> 0 <= i < Z.of_nat r -> 0 <= j < Z.of_nat c ->
  returns (fun M' => dims M' r c) (subAt M i j v).
Proof.
  intros HM Hi Hj. unfold subAt.
  destruct (get_returns M r c i j HM Hi Hj) as [old ->]. simpl.
  by apply set_returns.
Qed.

Section InRange.
Variable nodes : list ElectricalNode.
Variables (n : Z) (size : nat).
Hypothesis Hrange : forall id, getNodeIndex nodes id <= n.
Hypothesis Hsize : n <= Z.of_nat size.

Abbreviation square := (fun M : Matrix => dims M size size).
Abbreviation column := (fun M : Matrix => dims M size 1).
Abbreviation system :=
  (fun Az : Matrix * Matrix => dims (fst Az) size size /\ dims (snd Az) size 1).

Lemma stampResistor_returns g t1 t2 A :
  t1 <= n -> t2 <= n -> dims A size size ->
  returns square (stampResistor g t1 t2 A).
Proof.
  intros H1 H2 HA. unfold stampResistor.
  apply (returns_bind square).
  { apply returns_when; [done|]. intros Ht%bool_decide_eq_true.
    apply addAt_returns; [done|lia..]. }
  intros A1 HA1. apply (returns_bind square).
  { apply returns_when; [done|]. intros Ht%bool_decide_eq_true.
    apply addAt_returns; [done|lia..]. }
  intros A2 HA2. apply returns_when; [done|].
  intros [Ht1%bool_decide_eq_true Ht2%bool_decide_eq_true]%andb_true_iff.
  apply (returns_bind square); [apply subAt_returns; [done|lia..]|].
  intros A3 HA3. apply subAt_returns; [done|lia..].
Qed.

Lemma stampCurrentSource_returns v tA tB z :
  tA <= n -> tB <= n -> dims z size 1 ->
  returns column (stampCurrentSource v tA tB z).
Proof.
  intros H1 H2 Hz. unfold stampCurrentSource.
  apply (returns_bind column).
  { apply returns_when; [done|]. intros Ht%bool_decide_eq_true.
    apply addAt_returns; [done|lia..]. }
  intros z1 Hz1. apply returns_when; [done|]. intros Ht%bool_decide_eq_true.
  apply subAt_returns; [done|lia..].
Qed.

Lemma terminalId_returns e k :
  (k < length (e_terminals e))%nat -> is_Some (terminalId e k).
Proof.
  intros Hk. unfold terminalId. apply fmap_is_Some. by apply lookup_lt_is_Some_2.
Qed.

Lemma stampElement_returns Az e :
  wellFormed e -> system Az -> returns system (stampElement nodes Az e).
Proof.
  intros Hwf [HA Hz]. destruct Az as [A z]. unfold stampElement, wellFormed in *.
  simpl in HA, Hz.
  destruct (e_type e); try (by eexists).
  - destruct (terminalId_returns e 0) as [i0 ->]; [lia|].
    destruct (terminalId_returns e 1) as [i1 ->]; [lia|]. simpl.
    apply (returns_bind square); [by apply stampResistor_returns|].
    intros A1 HA1. by eexists.
  - destruct (terminalId_returns e 0) as [i0 ->]; [lia|].
    destruct (terminalId_returns e 1) as [i1 ->]; [lia|]. simpl.
    apply (returns_bind column); [by apply stampCurrentSource_returns|].
    intros z1 Hz1. by eexists.
Qed.

Lemma forEach_stampElement_returns l : forall Az,
  Forall wellFormed l -> system Az ->
  returns system (forEach (stampElement nodes) l Az).
Proof.
  induction l as [|e l IH]; intros Az Hwf HAz; simpl.
  - by eexists.
  - apply Forall_cons in Hwf as [He Hl].
    apply (returns_bind system); [by apply stampElement_returns|].
    intros Az1 HAz1. by apply IH.
Qed.

Lemma addGmin_returns count : forall start A,
  0 <= start -> start + Z.of_nat count <= Z.of_nat size -> dims A size size ->
  returns square (addGmin count start A).
Proof.
  induction count as [|count IH]; intros start A H0 Hle HA; simpl.
  - by eexists.
  - apply (returns_bind square); [apply addAt_returns; [done|lia..]|].
    intros A1 HA1. apply IH; [lia..|done].
Qed.

Lemma stampRow_returns vIdx p q v w A :
  0 <= vIdx < Z.of_nat size -> p <= n -> q <= n -> dims A size size ->
  returns square
    (A ← when (bool_decide (p > 0)) (fun A => set A vIdx (p - 1) v) A;
     when (bool_decide (q > 0)) (fun A => set A vIdx (q - 1) w) A).
Proof.
  intros Hv Hp Hq HA. apply (returns_bind square).
  { apply returns_when; [done|]. intros Ht%bool_decide_eq_true.
    apply set_returns; [done|lia..]. }
  intros A1 HA1. apply returns_when; [done|]. intros Ht%bool_decide_eq_true.
  apply set_returns; [done|lia..].
Qed.

Lemma stampB_returns vIdx p q A :
  0 <= vIdx < Z.of_nat size -> p <= n -> q <= n -> dims A size size ->
  returns square (stampB vIdx p q A).
Proof.
  intros Hv Hp Hq HA. unfold stampB. apply (returns_bind square).
  { apply returns_when; [done|]. intros Ht%bool_decide_eq_true.
    apply set_returns; [done|lia..]. }
  intros A1 HA1. apply returns_when; [done|]. intros Ht%bool_decide_eq_true.
  apply set_returns; [done|lia..].
Qed.

Lemma stampVSource_returns Az idx e :
  wellFormed e -> isVSource e = true -> 0 <= idx -> n + idx < Z.of_nat size ->
  0 <= n -> system Az -> returns system (stampVSource nodes n Az idx e).
Proof.
  intros Hwf Hv Hidx Hlt Hn [HA Hz]. destruct Az as [A z]. simpl in HA, Hz.
  unfold stampVSource, wellFormed in *. rewrite isVSource_type in Hv.
  destruct (e_type e) eqn:Hty; try done.
  - destruct (terminalId_returns e 0) as [i0 ->]; [lia|].
    destruct (terminalId_returns e 1) as [i1 ->]; [lia|]. simpl.
    apply (returns_bind square); [apply stampB_returns; [lia|done..]|].
    intros A1 HA1.
    apply (returns_bind square); [apply stampRow_returns; [lia|done..]|].
    intros A2 HA2.
    apply (returns_bind column); [apply set_returns; [done|lia..]|].
    intros z1 Hz1. by eexists.
  - destruct (terminalId_returns e 0) as [i0 ->]; [lia|].
    destruct (terminalId_returns e 1) as [i1 ->]; [lia|].
    destruct (terminalId_returns e 2) as [i2 ->]; [lia|].
    destruct (terminalId_returns e 3) as [i3 ->]; [lia|]. simpl.
    apply (returns_bind square); [apply stampB_returns; [lia|done..]|].
    intros A1 HA1.
    apply (returns_bind square); [apply stampRow_returns; [lia|done..]|].
    intros A2 HA2.
    apply (returns_bind square); [apply stampRow_returns; [lia|done..]|].
    intros A3 HA3. by eexists.
Qed.

Lemma forEachIdx_stampVSource_returns l : forall idx Az,
  Forall wellFormed l -> Forall (fun e => isVSource e = true) l ->
  0 <= idx -> n + idx + Z.of_nat (length l) <= Z.of_nat size -> 0 <= n ->
  system Az -> returns system (forEachIdx (stampVSource nodes n) idx l Az).
Proof.
  induction l as [|e l IH]; intros idx Az Hwf Hvs Hidx Hle Hn HAz; simpl.
  - by eexists.
  - apply Forall_cons in Hwf as [He Hl]. apply Forall_cons in Hvs as [Hv Hvl].
    simpl in Hle.
    apply (returns_bind system);
      [apply stampVSource_returns; [done..|lia|done|done]|].
    intros Az1 HAz1. apply IH; [done..|lia|lia|done|done].
Qed.
End InRange.

(** With the node list of [extractNodes] and elements that have their
    terminals, assembly returns: no index leaves the matrix. *)
Lemma assemble_returns (elements : list CircuitElement) (wires : list Wire)
    nodes :
  extractNodes elements wires = Some nodes ->
  Z.of_nat (length nodes) - 1 > 0 ->
  Forall wellFormed elements ->
  is_Some (assemble nodes elements).
Proof.
  intros Hn Hpos Hwf. unfold assemble.
  set (n := Z.of_nat (length nodes) - 1) in *.
  set (size := Z.to_nat (n + Z.of_nat (length (vSources elements)))).
  assert (Hrange : forall id, getNodeIndex nodes id <= n).
  { intros id. apply getNodeIndex_range. intros i nd Hi.
    by apply (extractNodes_ids elements wires nodes i nd). }
  assert (Hsize : n <= Z.of_nat size) by (unfold size; lia).
  destruct (forEach_stampElement_returns nodes n size Hrange Hsize elements
              (zeros size size, zeros size 1) Hwf)
    as ([A1 z1] & -> & HA1 & Hz1); [split; apply zeros_dims|]. simpl in *.
  destruct (addGmin_returns size (Z.to_nat n) 0 A1)
    as (A2 & -> & HA2); [lia|lia|done|]. simpl.
  destruct (forEachIdx_stampVSource_returns nodes n size Hrange Hsize
              (vSources elements) 0 (A2, z1))
    as (Az & -> & _); try done.
  - unfold vSources. apply Forall_forall. intros e He.
    apply list_elem_of_filter in He as [_ He].
    by apply (proj1 (Forall_forall _ _) Hwf).
  - unfold vSources. apply Forall_forall. intros e He.
    by apply list_elem_of_filter in He as [He _].
  - unfold size. lia.
  - lia.
Qed.

(** ** Terminals without a node *)

Lemma terminal_in_all (els : list CircuitElement) e t :
  e ∈ els -> t ∈ e_terminals e -> t ∈ allTerminals els.
Proof.
  intros He Ht. unfold allTerminals. apply list_elem_of_In, in_concat.
  exists (e_terminals e). split; [|by apply list_elem_of_In].
  apply in_map. by apply list_elem_of_In.
Qed.

(** Inside [solveCircuit] the lookup of a terminal of an element never
    falls back to -1: every such terminal is found in a node, with an index
    between 0 and the number of non-ground nodes. *)
Lemma element_terminal_found (elements : list CircuitElement)
    (wires : list Wire) nodes e t :
  extractNodes elements wires = Some nodes ->
  e ∈ elements -> t ∈ e_terminals e ->
  0 <= getNodeIndex nodes (t_id t) <= Z.of_nat (length nodes) - 1.
Proof.
  intros Hn He Ht.
  pose proof (extractNodes_ids elements wires nodes) as Hids.
  split; [|apply getNodeIndex_range; eauto].
  apply getNodeIndex_resolved; [eauto|].
  destruct (extractNodes_covers elements wires nodes t Hn) as (n & Hin & Htn).
  { by eapply terminal_in_all. }
  exists n. split; [done|]. apply holds_terminal_iff. by exists t.
Qed.

(** A lookup that did fall back to -1 would find no voltage: the keys of
    [nodeVoltages] start at 0. *)
Lemma deriveResult_below_ground nodes (elements : list CircuitElement) x r :
  deriveResult nodes elements x = Some r -> nodeVoltages r !! (-1) = None.
Proof.
  intros Hr. rewrite (deriveResult_voltages _ _ _ _ Hr (-1)).
  rewrite decide_False by lia. by rewrite decide_False by lia.
Qed.

(** ** Reading the assembled system *)

Lemma get_set M i j v M' i' j' :
  set M i j v = Some M' ->
  get M' i' j' = if decide (i' = i /\ j' = j) then Some v else get M i' j'.
Proof.
  unfold set, get. intros H.
  destruct (decide (0 <= i /\ 0 <= j)) as [[Hi Hj]|]; [|done].
  apply bind_Some in H as (row & Hrow & H).
  destruct (decide (Z.to_nat j < length row)%nat) as [Hlt|]; [|done].
  injection H as <-.
  destruct (decide (i' = i /\ j' = j)) as [[-> ->]|Hne].
  - rewrite decide_True by done.
    rewrite list_lookup_insert_eq by (by eapply lookup_lt_Some). simpl.
    by rewrite list_lookup_insert_eq.
  - destruct (decide (0 <= i' /\ 0 <= j')) as [[Hi' Hj']|]; [|done].
    destruct (decide (i' = i)) as [->|Hii].
    + rewrite list_lookup_insert_eq by (by eapply lookup_lt_Some).
      rewrite Hrow. simpl. rewrite list_lookup_insert_ne; [done|]. lia.
    + rewrite list_lookup_insert_ne; [done|]. lia.
Qed.

Lemma addAt_get M i j v M' i' j' :
  addAt M i j v = Some M' ->
  get M' i' j' = if decide (i' = i /\ j' = j)
                 then (fun old => (old + v)%float) <$> get M i j
                 else get M i' j'.
Proof.
  unfold addAt. intros H. apply bind_Some in H as (old & Hold & H).
  rewrite (get_set _ _ _ _ _ i' j' H), Hold. done.
Qed.

Lemma subAt_get M i j v M' i' j' :
  subAt M i j v = Some M' ->
  get M' i' j' = if decide (i' = i /\ j' = j)
                 then (fun old => (old - v)%float) <$> get M i j
                 else get M i' j'.
Proof.
  unfold subAt. intros H. apply bind_Some in H as (old & Hold & H).
  rewrite (get_set _ _ _ _ _ i' j' H), Hold. done.
Qed.

Lemma when_Some {A} (c : bool) (f : A -> option A) a a' :
  when c f a = Some a' -> (c = true /\ f a = Some a') \/ (c = false /\ a' = a).
Proof. destruct c; simpl; [by left|]. intros [= <-]. by right. Qed.

Lemma zeros_get r c i j :
  0 <= i < Z.of_nat r -> 0 <= j < Z.of_nat c -> get (zeros r c) i j = Some 0%float.
Proof.
  intros Hi Hj. unfold get, zeros. rewrite decide_True by lia.
  rewrite lookup_replicate_2 by lia. simpl. by rewrite lookup_replicate_2 by lia.
Qed.

Lemma keepsRow_set R i j v : R <> i -> keepsRow R (fun M => set M i j v).
Proof.
  intros Hne M M' c H. rewrite (get_set _ _ _ _ _ R c H).
  rewrite decide_False; [done|]. lia.
Qed.

Lemma keepsRow_addAt R i j v : R <> i -> keepsRow R (fun M => addAt M i j v).
Proof.
  intros Hne M M' c H. rewrite (addAt_get _ _ _ _ _ R c H).
  rewrite decide_False; [done|]. lia.
Qed.

Lemma keepsRow_subAt R i j v : R <> i -> keepsRow R (fun M => subAt M i j v).
Proof.
  intros Hne M M' c H. rewrite (subAt_get _ _ _ _ _ R c H).
  rewrite decide_False; [done|]. lia.
Qed.

Lemma keepsRow_when R (t : Z) f :
  (t > 0 -> keepsRow R f) -> keepsRow R (when (bool_decide (t > 0)) f).
Proof.
  intros Hf M M' c H. apply when_Some in H as [[Ht H]|[_ ->]]; [|done].
  apply bool_decide_eq_true in Ht. by apply (Hf Ht).
Qed.

Lemma keepsRow_bind R f g :
  keepsRow R f -> keepsRow R g -> keepsRow R (fun M => M ← f M; g M).
Proof.
  intros Hf Hg M M' c H. apply bind_Some in H as (M1 & H1 & H2).
  rewrite (Hg _ _ c H2). by apply Hf.
Qed.

Lemma stampResistor_row R n g t1 t2 :
  t1 <= n -> t2 <= n -> n <= R -> keepsRow R (stampResistor g t1 t2).
Proof.
  intros H1 H2 HR. unfold stampResistor.
  apply keepsRow_bind; [apply keepsRow_when; intros; apply keepsRow_addAt; lia|].
  apply keepsRow_bind; [apply keepsRow_when; intros; apply keepsRow_addAt; lia|].
  intros M M' c H. apply when_Some in H as [[Hc H]|[_ ->]]; [|done].
  apply andb_true_iff in Hc as [Hc1 Hc2].
  apply bool_decide_eq_true in Hc1, Hc2.
  revert M M' c H. apply keepsRow_bind; apply keepsRow_subAt; lia.
Qed.

Lemma stampCurrentSource_row R n v tA tB :
  tA <= n -> tB <= n -> n <= R -> keepsRow R (stampCurrentSource v tA tB).
Proof.
  intros H1 H2 HR. unfold stampCurrentSource.
  apply keepsRow_bind.
  - apply keepsRow_when; intros; apply keepsRow_addAt; lia.
  - apply keepsRow_when; intros; apply keepsRow_subAt; lia.
Qed.

Lemma stampB_row R n vIdx p q :
  p <= n -> q <= n -> n <= R -> keepsRow R (stampB vIdx p q).
Proof.
  intros H1 H2 HR. unfold stampB.
  apply keepsRow_bind; apply keepsRow_when; intros; apply keepsRow_set; lia.
Qed.

Lemma stampC_row R vIdx p q : R <> vIdx -> keepsRow R (stampC vIdx p q).
Proof.
  intros HR. unfold stampC.
  apply keepsRow_bind; apply keepsRow_when; intros; by apply keepsRow_set.
Qed.

Lemma stampGain_row R vIdx gain p q : R <> vIdx -> keepsRow R (stampGain vIdx gain p q).
Proof.
  intros HR. unfold stampGain.
  apply keepsRow_bind; apply keepsRow_when; intros; by apply keepsRow_set.
Qed.

Lemma addGmin_row R count : forall start,
  start + Z.of_nat count <= R -> keepsRow R (addGmin count start).
Proof.
  induction count as [|count IH]; intros start HR M M' c H; simpl in H.
  - by injection H as <-.
  - apply bind_Some in H as (M1 & H1 & H2).
    rewrite (IH (start + 1) ltac:(lia) _ _ c H2).
    revert H1. apply keepsRow_addAt. lia.
Qed.

(** The row written by [stampC]. *)
Lemma stampC_get vIdx p q A A' c :
  stampC vIdx p q A = Some A' ->
  get A' vIdx c =
    if bool_decide (q > 0 /\ c = q - 1) then Some (-1)%float
    else if bool_decide (p > 0 /\ c = p - 1) then Some 1%float
    else get A vIdx c.
Proof.
  unfold stampC. intros H. apply bind_Some in H as (A1 & H1 & H2).
  assert (E1 : get A1 vIdx c =
    if bool_decide (p > 0 /\ c = p - 1) then Some 1%float else get A vIdx c).
  { apply when_Some in H1 as [[Hp H1]|[Hp ->]].
    - apply bool_decide_eq_true in Hp. rewrite (get_set _ _ _ _ _ vIdx c H1).
      destruct (decide (vIdx = vIdx /\ c = p - 1)) as [[_ ->]|N].
      + by rewrite bool_decide_eq_true_2.
      + rewrite bool_decide_eq_false_2; [done|]. intros [_ ->]. by apply N.
    - apply bool_decide_eq_false in Hp.
      rewrite bool_decide_eq_false_2; [done|]. intros [? _]. done. }
  apply when_Some in H2 as [[Hq H2]|[Hq ->]].
  - apply bool_decide_eq_true in Hq. rewrite (get_set _ _ _ _ _ vIdx c H2).
    destruct (decide (vIdx = vIdx /\ c = q - 1)) as [[_ ->]|N].
    + by rewrite bool_decide_eq_true_2.
    + rewrite (bool_decide_eq_false_2 (q > 0 /\ c = q - 1)); [done|].
      intros [_ ->]. by apply N.
  - apply bool_decide_eq_false in Hq.
    rewrite (bool_decide_eq_false_2 (q > 0 /\ c = q - 1)); [done|].
    intros [? _]. done.
Qed.

Section Rows.
Variable nodes : list ElectricalNode.
Variable n : Z.
Hypothesis Hrange : forall id, getNodeIndex nodes id <= n.

Lemma stampElement_rows R Az Az' e c :
  stampElement nodes Az e = Some Az' -> n <= R ->
  get (fst Az') R c = get (fst Az) R c /\ get (snd Az') R c = get (snd Az) R c.
Proof.
  intros H HR. destruct Az as [A z]. unfold stampElement in H.
  destruct (e_type e); try (by injection H as <-).
  - apply bind_Some in H as (i0 & _ & H). apply bind_Some in H as (i1 & _ & H).
    apply bind_Some in H as (A1 & HA & H). injection H as <-. simpl.
    split; [|done].
    exact (stampResistor_row R n _ _ _ (Hrange _) (Hrange _) HR _ _ c HA).
  - apply bind_Some in H as (i0 & _ & H). apply bind_Some in H as (i1 & _ & H).
    apply bind_Some in H as (z1 & Hz & H). injection H as <-. simpl.
    split; [done|].
    exact (stampCurrentSource_row R n _ _ _ (Hrange _) (Hrange _) HR _ _ c Hz).
Qed.

Lemma forEach_stampElement_rows R l c : forall Az Az',
  forEach (stampElement nodes) l Az = Some Az' -> n <= R ->
  get (fst Az') R c = get (fst Az) R c /\ get (snd Az') R c = get (snd Az) R c.
Proof.
  induction l as [|e l IH]; intros Az Az' H HR; simpl in H.
  - by injection H as <-.
  - apply bind_Some in H as (Az1 & H1 & H).
    destruct (IH _ _ H HR) as [-> ->]. by eapply stampElement_rows.
Qed.

Lemma stampVSource_other R Az Az' idx e c :
  stampVSource nodes n Az idx e = Some Az' -> n <= R -> R <> n + idx ->
  get (fst Az') R c = get (fst Az) R c /\ get (snd Az') R c = get (snd Az) R c.
Proof.
  intros H HR Hne. destruct Az as [A z]. unfold stampVSource in H.
  apply bind_Some in H as (i0 & _ & H). apply bind_Some in H as (i1 & _ & H).
  apply bind_Some in H as (A1 & HB & H).
  pose proof (stampB_row R n _ _ _ (Hrange _) (Hrange _) HR _ _ c HB) as HB'.
  simpl. rewrite <- HB'.
  destruct (e_type e); try (by injection H as <-).
  - apply bind_Some in H as (A2 & HC & H). apply bind_Some in H as (z1 & Hz & H).
    injection H as <-. simpl. split.
    + exact (stampC_row R _ _ _ Hne _ _ c HC).
    + exact (keepsRow_set R _ _ _ Hne _ _ c Hz).
  - apply bind_Some in H as (i2 & _ & H). apply bind_Some in H as (i3 & _ & H).
    apply bind_Some in H as (A2 & HC & H). apply bind_Some in H as (A3 & HG & H).
    injection H as <-. simpl. split; [|done].
    rewrite (stampGain_row R _ _ _ _ Hne _ _ c HG).
    exact (stampC_row R _ _ _ Hne _ _ c HC).
Qed.

Lemma stampVSource_self Az Az' idx e c :
  stampVSource nodes n Az idx e = Some Az' -> e_type e = VoltageSource ->
  0 <= idx ->
  exists i0 i1, terminalId e 0 = Some i0 /\ terminalId e 1 = Some i1 /\
    get (snd Az') (n + idx) 0 = Some (e_value e) /\
    get (fst Az') (n + idx) c =
      if bool_decide (getNodeIndex nodes i1 > 0 /\ c = getNodeIndex nodes i1 - 1)
      then Some (-1)%float
      else if bool_decide (getNodeIndex nodes i0 > 0 /\
                           c = getNodeIndex nodes i0 - 1)
      then Some 1%float
      else get (fst Az) (n + idx) c.
Proof.
  intros H Hty Hidx. destruct Az as [A z]. unfold stampVSource in H.
  apply bind_Some in H as (i0 & H0 & H). apply bind_Some in H as (i1 & H1 & H).
  apply bind_Some in H as (A1 & HB & H). rewrite Hty in H.
  apply bind_Some in H as (A2 & HC & H). apply bind_Some in H as (z1 & Hz & H).
  injection H as <-. exists i0, i1. split; [done|]. split; [done|]. simpl. split.
  - rewrite (get_set _ _ _ _ _ (n + idx) 0 Hz). by rewrite decide_True.
  - rewrite (stampC_get _ _ _ _ _ c HC).
    assert (HR : n <= n + idx) by lia.
    by rewrite (stampB_row (n + idx) n _ _ _ (Hrange _) (Hrange _) HR _ _ c HB).
Qed.

Lemma vSources_after R l c : forall idx0 Az Az',
  forEachIdx (stampVSource nodes n) idx0 l Az = Some Az' ->
  n <= R -> R < n + idx0 ->
  get (fst Az') R c = get (fst Az) R c /\ get (snd Az') R c = get (snd Az) R c.
Proof.
  induction l as [|e l IH]; intros idx0 Az Az' H HR Hlt; simpl in H.
  - by injection H as <-.
  - apply bind_Some in H as (Az1 & H1 & H).
    destruct (IH _ _ _ H HR) as [-> ->]; [lia|].
    eapply stampVSource_other; [exact H1|done|lia].
Qed.

Lemma vSources_at l c : forall idx0 Az Az' k e,
  forEachIdx (stampVSource nodes n) idx0 l Az = Some Az' ->
  l !! k = Some e -> e_type e = VoltageSource -> 0 <= idx0 ->
  exists i0 i1, terminalId e 0 = Some i0 /\ terminalId e 1 = Some i1 /\
    get (snd Az') (n + (idx0 + Z.of_nat k)) 0 = Some (e_value e) /\
    get (fst Az') (n + (idx0 + Z.of_nat k)) c =
      if bool_decide (getNodeIndex nodes i1 > 0 /\ c = getNodeIndex nodes i1 - 1)
      then Some (-1)%float
      else if bool_decide (getNodeIndex nodes i0 > 0 /\
                           c = getNodeIndex nodes i0 - 1)
      then Some 1%float
      else get (fst Az) (n + (idx0 + Z.of_nat k)) c.
Proof.
  induction l as [|e' l IH]; intros idx0 Az Az' k e H Hk Hty Hidx; [done|].
  simpl in H. apply bind_Some in H as (Az1 & H1 & H).
  destruct k as [|k]; simpl in Hk.
  - injection Hk as ->. replace (idx0 + Z.of_nat 0) with idx0 by lia.
    destruct (stampVSource_self _ _ _ _ c H1 Hty Hidx)
      as (i0 & i1 & H0 & Hi1 & Hz & HA).
    exists i0, i1. split; [done|]. split; [done|].
    destruct (vSources_after (n + idx0) l c _ _ _ H) as [-> _]; [lia..|].
    destruct (vSources_after (n + idx0) l 0 _ _ _ H) as [_ ->]; [lia..|].
    done.
  - destruct (IH (idx0 + 1) _ _ k e H Hk Hty) as (i0 & i1 & H0 & Hi1 & Hz & HA);
      [lia|].
    replace (idx0 + Z.of_nat (S k)) with (idx0 + 1 + Z.of_nat k) by lia.
    exists i0, i1. split; [done|]. split; [done|]. split; [done|].
    rewrite HA.
    destruct (stampVSource_other (n + (idx0 + 1 + Z.of_nat k)) _ _ _ _ c H1)
      as [-> _]; [lia..|]. done.
Qed.
End Rows.

(** ** Polarity of the sources *)

Lemma stampCurrentSource_get v tA tB z z' k old :
  stampCurrentSource v tA tB z = Some z' -> get z k 0 = Some old ->
  get z' k 0 =
    Some (let v1 := if bool_decide (tA > 0 /\ k = tA - 1)
                    then (old + v)%float else old in
          if bool_decide (tB > 0 /\ k = tB - 1) then (v1 - v)%float else v1).
Proof.
  unfold stampCurrentSource. intros H Hold.
  apply bind_Some in H as (z1 & H1 & H2).
  assert (E1 : get z1 k 0 =
    Some (if bool_decide (tA > 0 /\ k = tA - 1) then (old + v)%float else old)).
  { apply when_Some in H1 as [[Hp H1]|[Hp ->]].
    - apply bool_decide_eq_true in Hp. rewrite (addAt_get _ _ _ _ _ k 0 H1).
      destruct (decide (k = tA - 1 /\ 0 = 0)) as [[-> _]|N].
      + rewrite bool_decide_eq_true_2 by done. by rewrite Hold.
      + rewrite bool_decide_eq_false_2; [done|]. intros [_ ->]. by apply N.
    - apply bool_decide_eq_false in Hp.
      rewrite bool_decide_eq_false_2; [done|]. intros [? _]. done. }
  cbv zeta.
  apply when_Some in H2 as [[Hq H2]|[Hq ->]].
  - apply bool_decide_eq_true in Hq. rewrite (subAt_get _ _ _ _ _ k 0 H2).
    destruct (decide (k = tB - 1 /\ 0 = 0)) as [[-> _]|N].
    + rewrite (bool_decide_eq_true_2 (tB > 0 /\ tB - 1 = tB - 1)) by done.
      by rewrite E1.
    + rewrite (bool_decide_eq_false_2 (tB > 0 /\ k = tB - 1)); [done|].
      intros [_ ->]. by apply N.
  - apply bool_decide_eq_false in Hq.
    rewrite (bool_decide_eq_false_2 (tB > 0 /\ k = tB - 1)); [done|].
    intros [? _]. done.
Qed.

(** The convention of the solver: the terminal at index 0 of a source is
    the positive one and the terminal at index 1 the negative one. In the
    system assembled for a circuit, the row of an independent voltage source
    has the coefficient 1 in the column of the node of [terminals[0]], -1 in
    the column of the node of [terminals[1]] (ground has no column; when
    both terminals are on one node the -1 is what remains) and 0 elsewhere,
    and its right-hand side is the value of the source: the row states
    V(terminals[0]) - V(terminals[1]) = V. The stamp of a current source adds
    its value to the right-hand side of the node of [terminals[0]] and
    subtracts it from that of the node of [terminals[1]]. *)
Lemma source_rows :
  (forall (elements : list CircuitElement) (wires : list Wire) nodes A z idx e,
     extractNodes elements wires = Some nodes ->
     Z.of_nat (length nodes) - 1 > 0 ->
     assemble nodes elements = Some (A, z) ->
     vSources elements !! idx = Some e -> e_type e = VoltageSource ->
     exists i0 i1, terminalId e 0 = Some i0 /\ terminalId e 1 = Some i1 /\
       let n := Z.of_nat (length nodes) - 1 in
       let posNode := getNodeIndex nodes i0 in
       let negNode := getNodeIndex nodes i1 in
       get z (n + Z.of_nat idx) 0 = Some (e_value e) /\
       forall c, 0 <= c < n + Z.of_nat (length (vSources elements)) ->
         get A (n + Z.of_nat idx) c =
           Some (if bool_decide (negNode > 0 /\ c = negNode - 1) then (-1)%float
                 else if bool_decide (posNode > 0 /\ c = posNode - 1) then 1%float
                 else 0%float)) /\
  (forall nodes A z A' z' e i0 i1,
     e_type e = CurrentSource ->
     terminalId e 0 = Some i0 -> terminalId e 1 = Some i1 ->
     stampElement nodes (A, z) e = Some (A', z') ->
     let tA := getNodeIndex nodes i0 in
     let tB := getNodeIndex nodes i1 in
     A' = A /\
     forall k old, get z k 0 = Some old ->
       get z' k 0 =
         Some (let v1 := if bool_decide (tA > 0 /\ k = tA - 1)
                         then (old + e_value e)%float else old in
               if bool_decide (tB > 0 /\ k = tB - 1)
               then (v1 - e_value e)%float else v1)).
Proof.
  split.
  - intros els ws nodes A z idx e Hn Hpos HA Hidx Hty.
    set (n := Z.of_nat (length nodes) - 1) in *.
    assert (Hrange : forall id, getNodeIndex nodes id <= n).
    { intros id. apply getNodeIndex_range. intros i nd Hi.
      by apply (extractNodes_ids els ws nodes i nd). }
    unfold assemble in HA. fold n in HA.
    apply bind_Some in HA as (Az1 & H1 & HA).
    apply bind_Some in HA as (A1 & H2 & HA).
    pose proof (lookup_lt_Some _ _ _ Hidx) as Hlt.
    assert (Hc : forall c,
      exists i0 i1, terminalId e 0 = Some i0 /\ terminalId e 1 = Some i1 /\
        get z (n + Z.of_nat idx) 0 = Some (e_value e) /\
        get A (n + Z.of_nat idx) c =
          if bool_decide (getNodeIndex nodes i1 > 0 /\ c = getNodeIndex nodes i1 - 1)
          then Some (-1)%float
          else if bool_decide (getNodeIndex nodes i0 > 0 /\
                               c = getNodeIndex nodes i0 - 1)
          then Some 1%float
          else get A1 (n + Z.of_nat idx) c).
    { intros c.
      destruct (vSources_at nodes n Hrange _ c 0 _ _ idx e HA Hidx Hty)
        as (i0 & i1 & H0 & Hi1 & Hz & HAc); [lia|].
      replace (n + (0 + Z.of_nat idx)) with (n + Z.of_nat idx) in * by lia.
      exists i0, i1. done. }
    destruct (Hc 0) as (i0 & i1 & H0 & Hi1 & Hz & _).
    exists i0, i1. split; [done|]. split; [done|]. cbv zeta. split; [done|].
    intros c Hcr. destruct (Hc c) as (i0' & i1' & H0' & Hi1' & _ & HAc).
    assert (i0' = i0) as -> by congruence. assert (i1' = i1) as -> by congruence.
    rewrite HAc.
    assert (Hg : 0 + Z.of_nat (Z.to_nat n) <= n + Z.of_nat idx) by lia.
    rewrite (addGmin_row (n + Z.of_nat idx) (Z.to_nat n) 0 Hg _ _ c H2).
    destruct (forEach_stampElement_rows nodes n Hrange (n + Z.of_nat idx) els c
                _ _ H1) as [-> _]; [lia|].
    simpl. rewrite zeros_get by lia.
    by repeat destruct (bool_decide _).
  - intros nodes A z A' z' e i0 i1 Hty H0 H1 H. cbv zeta.
    unfold stampElement in H. rewrite Hty, H0, H1 in H. simpl in H.
    apply bind_Some in H as (z1 & Hz & H). injection H as <- <-.
    split; [done|]. intros k old Hold.
    by apply (stampCurrentSource_get _ _ _ _ _ _ _ Hz Hold).
Qed.

(** C6. The solver and the derivation disagree on the polarity of a source.
    For a 5 V source on its own, with [terminals[0]] on the ground node and
    [terminals[1]] on node 1, [solveCircuit] puts node 1 at -5 V, so
    V(terminals[1]) - V(terminals[0]) is -5 and not 5, while the step that
    [buildCircuitExplanation] writes for that source and that result names
    node 1 the + terminal and states V(N1) = V(GND) + 5 next to the value of
    -5 V. For a 1 A current source across a 2 ohm resistor, with
    [terminals[1]] of the source on node 1, the solver takes 1 A out of
    node 1: the right-hand side of that node is -1, its voltage is negative
    and the current through the resistor runs from the ground node to
    node 1. *)
Theorem source_polarity_reversed :
  (exists r nodes,
     solveCircuit MathJS.lib Examples.floatingSource [] = Some r /\
     r <> emptyResult /\
     extractNodes Examples.floatingSource [] = Some nodes /\
     getNodeIndex nodes "a" = 0 /\ getNodeIndex nodes "b" = 1 /\
     nodeVoltages r !! 0 = Some 0%float /\
     nodeVoltages r !! 1 = Some (-5)%float /\
     (toNumber (nodeVoltages r !! getNodeIndex nodes "b")
      - toNumber (nodeVoltages r !! getNodeIndex nodes "a"))%float
     = (-5)%float /\
     forall toFixed4 numberToString,
       Explanation.buildCircuitExplanation toFixed4 numberToString
         Examples.floatingSource nodes (nodeVoltages r) (elementCurrents r)
         !! 1%nat
       = Some (Explanation.mkStep 2 "V1 forces N1"
           [Explanation.mkLine
              ("V1 is a " +:+ numberToString 5%float +:+ " V source") None;
            Explanation.mkLine
              ("  − terminal → GND = " +:+ toFixed4 0%float +:+ " V") None;
            Explanation.mkLine "  + terminal → N1" None;
            Explanation.mkLine
              ("V(N1) = V(GND) + " +:+ numberToString 5%float) None;
            Explanation.mkLine
              ("V(N1) = " +:+ toFixed4 0%float +:+ " + "
               +:+ numberToString 5%float)
              (Some (toFixed4 (-5)%float +:+ " V"))])) /\
  (exists r nodes A z v c,
     solveCircuit MathJS.lib Examples.currentElements Examples.currentWires
       = Some r /\
     r <> emptyResult /\
     extractNodes Examples.currentElements Examples.currentWires = Some nodes /\
     assemble nodes Examples.currentElements = Some (A, z) /\
     getNodeIndex nodes "p" = 0 /\ getNodeIndex nodes "q" = 1 /\
     getNodeIndex nodes "a" = 0 /\ getNodeIndex nodes "b" = 1 /\
     get z 0 0 = Some (-1)%float /\
     nodeVoltages r !! 0 = Some 0%float /\
     nodeVoltages r !! 1 = Some v /\ (v <? 0)%float = true /\
     elementCurrents r !! "R1" = Some c /\ c = ((0 - v) / 2)%float /\
     (0 <? c)%float = true).
Proof.
  split.
  - eexists _, _. split; [vm_compute; reflexivity|].
    split; [apply emptyResult_voltages; vm_compute; reflexivity|].
    split; [vm_compute; reflexivity|].
    split; [reflexivity|]. split; [reflexivity|].
    split; [reflexivity|]. split; [reflexivity|].
    split; [vm_compute; reflexivity|].
    intros toFixed4 numberToString. vm_compute. reflexivity.
  - eexists _, _, _, _, _, _. split; [vm_compute; reflexivity|].
    split; [apply emptyResult_voltages; vm_compute; reflexivity|].
    split; [vm_compute; reflexivity|]. split; [vm_compute; reflexivity|].
    do 4 (split; [reflexivity|]).
    split; [reflexivity|]. split; [reflexivity|]. split; [reflexivity|].
    split; [vm_compute; reflexivity|]. split; [reflexivity|].
    split; vm_compute; reflexivity.
Qed.

End SolverFacts.

(** * Further properties of the topology extraction *)

Module GraphExtras.
Import Graph GraphSpec ExtraSpec GraphFacts.

(** ** Wires that induce the same connectivity

    Grouping the terminals over two forests with the same classes proceeds
    in step: the groups hold the same terminals in the same order, only the
    keys (the roots) differ. *)

Lemma pushGroup_paired m m' r r' t g g' :
  rep m (t_id t) r -> rep m' (t_id t) r' ->
  (forall x y, same m x y <-> same m' x y) ->
  paired m m' g g' -> paired m m' (pushGroup r t g) (pushGroup r' t g').
Proof.
  intros Hr Hr' Hsame. induction 1 as [|[k ts] [k' ts'] g g' (Hts & Hne & Hk) Hg IH];
    simpl in *.
  - constructor; [|constructor]. simpl. split; [done|]. split; [done|].
    intros u Hu. apply list_elem_of_singleton in Hu as ->. done.
  - subst ts'.
    assert (exists u, u ∈ ts) as (u & Hin).
    { destruct ts as [|u ts]; [done|]. exists u. apply elem_of_cons. by left. }
    destruct (Hk u Hin) as [Hu Hu'].
    assert (Hiff : k = r <-> k' = r').
    { split; intros ->.
      - assert (Hs : same m' (t_id u) (t_id t)) by (apply Hsame; by exists r).
        destruct Hs as (q & Hq1 & Hq2).
        by rewrite (rep_fun _ _ _ _ Hu' Hq1), (rep_fun _ _ _ _ Hr' Hq2).
      - assert (Hs : same m (t_id u) (t_id t)) by (apply Hsame; by exists r').
        destruct Hs as (q & Hq1 & Hq2).
        by rewrite (rep_fun _ _ _ _ Hu Hq1), (rep_fun _ _ _ _ Hr Hq2). }
    destruct (decide (k = r)) as [->|N], (decide (k' = r')) as [->|N'];
      try tauto.
    + constructor; [|done]. simpl. split; [done|]. split.
      { intros E. by apply app_eq_nil in E as [_ ?]. }
      intros v Hv. apply elem_of_app in Hv as [Hv|Hv]; [by apply Hk|].
      apply list_elem_of_singleton in Hv as ->. done.
    + constructor; [|by apply IH]. simpl. done.
Qed.

Lemma groupTerminals_paired m0 m0' k k' fuel fuel' ts : forall m m' g g',
  bounded m0 k -> (k < fuel)%nat -> refines m0 m ->
  bounded m0' k' -> (k' < fuel')%nat -> refines m0' m' ->
  (forall x y, same m0 x y <-> same m0' x y) ->
  paired m0 m0' g g' ->
  exists h h', groupTerminals fuel m ts g = Some h /\
               groupTerminals fuel' m' ts g' = Some h' /\
               paired m0 m0' h h'.
Proof.
  induction ts as [|t ts IH]; intros m m' g g' Hb Hf Href Hb' Hf' Href' Hsame Hp.
  - exists g, g'. done.
  - simpl. destruct (Hb (t_id t)) as (r & d & Hr & Hd).
    destruct (Href _ _ _ Hr) as (d1 & Hd1 & Hr1).
    destruct (getParent_spec _ _ _ _ Hr1 fuel) as (m1 & -> & Href1); [lia|].
    destruct (Hb' (t_id t)) as (r' & d' & Hr' & Hd').
    destruct (Href' _ _ _ Hr') as (d1' & Hd1' & Hr1').
    destruct (getParent_spec _ _ _ _ Hr1' fuel') as (m1' & -> & Href1'); [lia|].
    apply (IH m1 m1'); try done.
    + by eapply refines_trans.
    + by eapply refines_trans.
    + apply pushGroup_paired; [by exists d|by exists d'|done|done].
Qed.

Lemma paired_terminals m m' g g' : paired m m' g g' -> map snd g = map snd g'.
Proof.
  induction 1 as [|kv kv' g g' (H & _) _ IH]; [done|]. simpl. by rewrite H, IH.
Qed.

(** Hence the nodes depend on the wires through their connectivity only. *)
Lemma extractNodes_connected_ext (elements : list CircuitElement)
    (wires wires' : list Wire) :
  (forall x y, connected wires x y <-> connected wires' x y) ->
  extractNodes elements wires = extractNodes elements wires'.
Proof.
  intros Hconn. unfold extractNodes, extractNodesWith.
  destruct (connectWires_connected wires (S (length wires)))
    as (m & -> & Hb & Hs); [lia|].
  destruct (connectWires_connected wires' (S (length wires')))
    as (m' & -> & Hb' & Hs'); [lia|].
  destruct (groupTerminals_paired m m' (length wires) (length wires')
              (S (length wires)) (S (length wires')) (allTerminals elements)
              m m' [] [])
    as (h & h' & -> & -> & Hp); try done; try apply refines_refl; try lia.
  - intros x y. by rewrite Hs, Hs', Hconn.
  - constructor.
  - apply paired_terminals in Hp. unfold nodesData.
    assert (E : map (fun kv : string * list Terminal => mkNode (-1) (snd kv)) h
              = map (fun kv : string * list Terminal => mkNode (-1) (snd kv)) h').
    { rewrite <- (map_map snd (mkNode (-1)) h), <- (map_map snd (mkNode (-1)) h').
      by rewrite Hp. }
    by rewrite E.
Qed.

(** X1. The result of [extractNodes], and with it the result of
    [solveCircuit], depends on the wires only through the connectivity they
    induce: two wire lists that connect the same ids give the same nodes,
    with the same terminals in the same order and the same ids, and the same
    solution. *)
Theorem extractNodes_connectivity (elements : list CircuitElement)
    (wires wires' : list Wire) :
  (forall x y, connected wires x y <-> connected wires' x y) ->
  extractNodes elements wires = extractNodes elements wires' /\
  forall lib, Solver.solveCircuit lib elements wires
              = Solver.solveCircuit lib elements wires'.
Proof.
  intros Hconn.
  pose proof (extractNodes_connected_ext elements wires wires' Hconn) as E.
  split; [exact E|]. intros lib. unfold Solver.solveCircuit. by rewrite E.
Qed.

Lemma connected_sub ws ws' x y :
  (forall u v, wired ws u v -> connected ws' u v) ->
  connected ws x y -> connected ws' x y.
Proof. intros H. unfold connected. by apply rtsc_subrel. Qed.

Lemma flipWire_bound w : bound (flipWire w) = bound w.
Proof. unfold bound. simpl. apply andb_comm. Qed.

Lemma extractNodes_connectivity_witness :
  extractNodes Examples.chainElements Examples.chainWires
  = extractNodes Examples.chainElements (rev Examples.chainWires).
Proof.
  refine (proj1 (extractNodes_connectivity Examples.chainElements
                   Examples.chainWires (rev Examples.chainWires) _)).
  intros x y. split; apply connected_sub; intros u v (w & Hin & Hw);
    apply rtsc_lr; exists w; (split; [|exact Hw]).
  - apply elem_of_reverse. exact Hin.
  - apply elem_of_reverse in Hin. exact Hin.
Defined.

(** X2. Reordering the wires, exchanging the two ends of every wire, or
    adding a wire between two ids that are already connected does not change
    the result of [extractNodes]. *)
Theorem extractNodes_wire_order (elements : list CircuitElement)
    (wires : list Wire) :
  (forall wires', wires ≡ₚ wires' ->
     extractNodes elements wires' = extractNodes elements wires) /\
  extractNodes elements (map flipWire wires) = extractNodes elements wires /\
  (forall w s e, startTerminalId w = Some s -> endTerminalId w = Some e ->
     connected wires s e ->
     extractNodes elements (w :: wires) = extractNodes elements wires).
Proof.
  split; [|split].
  - intros wires' Hp. apply extractNodes_connected_ext.
    intros x y. split; apply connected_sub; intros u v (w & Hin & Hw);
      apply rtsc_lr; exists w; (split; [|exact Hw]).
    + by rewrite Hp.
    + by rewrite <- Hp.
  - apply extractNodes_connected_ext. intros x y.
    split; apply connected_sub; intros u v (w & Hin & Hb & Hs & He).
    + apply list_elem_of_fmap in Hin as (w0 & -> & Hin0).
      rewrite flipWire_bound in Hb. simpl in Hs, He.
      apply rtsc_rl. by exists w0.
    + apply rtsc_rl. exists (flipWire w). split; [by apply list_elem_of_fmap_2|].
      rewrite flipWire_bound. done.
  - intros w s e Hs He Hc. apply extractNodes_connected_ext. intros x y.
    split; apply connected_sub; intros u v Huv.
    + apply wired_cons in Huv as [(_ & Hu & Hv)|Huv]; [|by apply rtsc_lr].
      assert (u = s) as -> by congruence. assert (v = e) as -> by congruence.
      done.
    + apply rtsc_lr. apply wired_cons. by right.
Qed.

Lemma extractNodes_wire_order_witness :
  extractNodes Examples.chainElements (map flipWire (rev Examples.chainWires))
  = extractNodes Examples.chainElements Examples.chainWires.
Proof.
  destruct (extractNodes_wire_order Examples.chainElements
              (rev Examples.chainWires)) as (Hperm & Hflip & _).
  rewrite Hflip. symmetry. apply Hperm. symmetry. apply Permutation_rev.
Defined.

(** ** Sizes and unconnected terminals *)

Lemma concat_length_nonempty {A} (l : list (list A)) :
  Forall (fun x => x <> []) l -> (length l <= length (concat l))%nat.
Proof.
  induction 1 as [|x l Hx _ IH]; simpl; [lia|].
  rewrite length_app. destruct x; [done|]. simpl. lia.
Qed.

(** X3. No node returned by [extractNodes] is empty, there are at most as
    many nodes as the elements have terminals, the sizes of the nodes add up
    to the number of terminals, and the node list is empty exactly when the
    elements have no terminal at all. *)
Theorem extractNodes_sizes (elements : list CircuitElement)
    (wires : list Wire) nodes :
  extractNodes elements wires = Some nodes ->
  Forall (fun n => n_terminals n <> []) nodes /\
  (length nodes <= length (allTerminals elements))%nat /\
  length (concat (map n_terminals nodes)) = length (allTerminals elements) /\
  (nodes = [] <-> allTerminals elements = []).
Proof.
  intros E.
  destruct (extractNodesWith_groups sortNodes (S (length wires)) elements wires
              sortNodes_stable (extractNodes_fuel wires))
    as (nodes' & m & g & E' & _ & _ & [_ Hok] & Hts & _ & _ & Hp).
  assert (nodes' = nodes) as -> by (unfold extractNodes in E; congruence).
  assert (Hne : Forall (fun x : list Terminal => x <> []) (map n_terminals nodes)).
  { rewrite Hts. apply Forall_fmap. eapply Forall_impl; [exact Hok|].
    by intros kv [H _]. }
  assert (Hlen : length (concat (map n_terminals nodes))
                 = length (allTerminals elements)).
  { rewrite Hts. by apply Permutation_length. }
  pose proof (concat_length_nonempty _ Hne) as Hle. rewrite length_map in Hle.
  split.
  { apply Forall_forall. intros n Hn. rewrite Forall_forall in Hne.
    apply Hne. by apply list_elem_of_fmap_2. }
  split; [lia|]. split; [done|].
  split.
  - intros ->. simpl in Hlen. by destruct (allTerminals elements).
  - intros H0. rewrite Hlen, H0 in Hle. simpl in Hle. destruct nodes; [done|].
    simpl in Hle. lia.
Qed.

Lemma extractNodes_sizes_witness :
  exists nodes, extractNodes Examples.chainElements Examples.chainWires
                = Some nodes /\
    Forall (fun n => n_terminals n <> []) nodes.
Proof.
  destruct (extractNodes Examples.chainElements Examples.chainWires)
    as [nodes|] eqn:E; [|vm_compute in E; discriminate].
  exists nodes. split; [reflexivity|].
  exact (proj1 (extractNodes_sizes Examples.chainElements Examples.chainWires
                  nodes E)).
Defined.

(** X4. A terminal whose id is no end of a bound wire shares its node only
    with terminals of the same id: an unconnected terminal is a node of its
    own. *)
Theorem extractNodes_isolated (elements : list CircuitElement)
    (wires : list Wire) nodes n t t' :
  extractNodes elements wires = Some nodes ->
  n ∈ nodes -> t ∈ n_terminals n -> t' ∈ n_terminals n ->
  (forall w, w ∈ wires -> bound w = true ->
     startTerminalId w <> Some (t_id t) /\ endTerminalId w <> Some (t_id t)) ->
  t_id t' = t_id t.
Proof.
  intros E Hn Ht Ht' Hiso.
  destruct (extractNodesWith_groups sortNodes (S (length wires)) elements wires
              sortNodes_stable (extractNodes_fuel wires))
    as (nodes' & m & g & E' & _ & Hsame & [_ Hok] & Hts & _).
  assert (nodes' = nodes) as -> by (unfold extractNodes in E; congruence).
  apply list_elem_of_lookup in Hn as [i Hi].
  destruct (node_group _ _ _ _ Hts Hi) as [k Hg].
  destruct (Forall_lookup_1 _ _ _ _ Hok Hg) as [_ Hrep]. simpl in Hrep.
  assert (Hc : connected wires (t_id t) (t_id t')).
  { apply Hsame. exists k. split; by apply Hrep. }
  symmetry. eapply rtc_nf; [exact Hc|].
  intros (y & [(w & Hin & Hb & Hs & He)|(w & Hin & Hb & Hs & He)]);
    destruct (Hiso w Hin Hb) as [H1 H2]; congruence.
Qed.

Lemma extractNodes_isolated_witness :
  exists nodes n,
    extractNodes Examples.chainElements Examples.chainWires = Some nodes /\
    n ∈ nodes /\ Examples.term "f" ∈ n_terminals n /\
    t_id (Examples.term "f") = t_id (Examples.term "f").
Proof.
  destruct (extractNodes Examples.chainElements Examples.chainWires)
    as [nodes|] eqn:E; [|vm_compute in E; discriminate].
  pose proof E as E2. vm_compute in E2. injection E2 as <-.
  eexists _, (mkNode 2 [Examples.term "f"]).
  assert (Hn : mkNode 2 [Examples.term "f"] ∈
               [mkNode 0 (map Examples.term ["b"; "c"; "d"; "e"]);
                mkNode 1 [Examples.term "a"]; mkNode 2 [Examples.term "f"]]).
  { do 2 (apply elem_of_cons; right). apply elem_of_cons. by left. }
  assert (Ht : Examples.term "f" ∈ n_terminals (mkNode 2 [Examples.term "f"])).
  { apply elem_of_cons. by left. }
  split; [reflexivity|]. split; [exact Hn|]. split; [exact Ht|].
  apply (extractNodes_isolated Examples.chainElements Examples.chainWires
           _ _ _ _ E Hn Ht Ht).
  intros w Hin _.
  repeat (apply elem_of_cons in Hin as [->|Hin]);
    [..|by apply elem_of_nil in Hin]; split; discriminate.
Defined.

End GraphExtras.

(** * Further properties of the solver *)

Module SolverExtras.
Import Graph GraphSpec Solver SolverSpec ExtraSpec GraphFacts SolverFacts.

(** ** Elements without the terminals their kind reads *)

Lemma forEach_body {S E} (body : S -> E -> option S) l : forall s s' e,
  forEach body l s = Some s' -> e ∈ l -> exists s0, is_Some (body s0 e).
Proof.
  induction l as [|a l IH]; intros s s' e H He; [by apply elem_of_nil in He|].
  simpl in H. apply bind_Some in H as (s1 & H1 & H2).
  apply elem_of_cons in He as [->|He]; [by exists s; eexists|by eapply IH].
Qed.

Lemma forEachIdx_body {S E} (body : S -> Z -> E -> option S) l :
  forall idx s s' e,
  forEachIdx body idx l s = Some s' -> e ∈ l ->
  exists s0 i, is_Some (body s0 i e).
Proof.
  induction l as [|a l IH]; intros idx s s' e H He; [by apply elem_of_nil in He|].
  simpl in H. apply bind_Some in H as (s1 & H1 & H2).
  apply elem_of_cons in He as [->|He]; [by exists s, idx; eexists|by eapply IH].
Qed.

Lemma terminalId_length e k i :
  terminalId e k = Some i -> (k < length (e_terminals e))%nat.
Proof.
  unfold terminalId. intros H. apply fmap_Some in H as (t & Ht & _).
  by eapply lookup_lt_Some.
Qed.

Lemma stampElement_wellFormed nodes Az e :
  is_Some (stampElement nodes Az e) -> isVSource e = false -> wellFormed e.
Proof.
  intros [Az' H] Hv. destruct Az as [A z]. unfold stampElement in H.
  unfold wellFormed. unfold isVSource in Hv.
  destruct (e_type e); try done.
  - apply bind_Some in H as (i0 & _ & H). apply bind_Some in H as (i1 & H1 & _).
    apply terminalId_length in H1. lia.
  - apply bind_Some in H as (i0 & _ & H). apply bind_Some in H as (i1 & H1 & _).
    apply terminalId_length in H1. lia.
Qed.

Lemma stampVSource_wellFormed nodes n Az idx e :
  is_Some (stampVSource nodes n Az idx e) -> isVSource e = true -> wellFormed e.
Proof.
  intros [Az' H] Hv. destruct Az as [A z]. unfold stampVSource in H.
  apply bind_Some in H as (i0 & _ & H). apply bind_Some in H as (i1 & H1 & H).
  apply bind_Some in H as (A1 & _ & H).
  unfold wellFormed. unfold isVSource in Hv.
  destruct (e_type e); try done.
  - apply terminalId_length in H1. lia.
  - apply bind_Some in H as (i2 & _ & H). apply bind_Some in H as (i3 & H3 & _).
    apply terminalId_length in H3. lia.
Qed.

(** Assembly reads two terminals of every element, and four of a VCVS. *)
Lemma assemble_wellFormed nodes els Az :
  assemble nodes els = Some Az -> Forall wellFormed els.
Proof.
  unfold assemble. intros H.
  apply bind_Some in H as (Az1 & H1 & H).
  apply bind_Some in H as (A1 & H2 & H3).
  apply Forall_forall. intros e He.
  destruct (isVSource e) eqn:Hv.
  - destruct (forEachIdx_body _ _ _ _ _ e H3) as (s0 & i & Hs).
    { apply list_elem_of_filter. done. }
    by eapply stampVSource_wellFormed.
  - destruct (forEach_body _ _ _ _ e H1 He) as (s0 & Hs).
    by eapply stampElement_wellFormed.
Qed.

(** X5. An element that lacks a terminal its kind reads (a two-terminal
    element with fewer than two, a VCVS with fewer than four) makes
    [solveCircuit] throw for any solver library, unless the circuit has at
    most one node, in which case the empty result is returned before any
    terminal is read. *)
Theorem solveCircuit_malformed (lib : MathLib) (elements : list CircuitElement)
    (wires : list Wire) nodes e :
  extractNodes elements wires = Some nodes ->
  e ∈ elements -> ~ wellFormed e ->
  solveCircuit lib elements wires =
    if decide (Z.of_nat (length nodes) - 1 <= 0) then Some emptyResult
    else None.
Proof.
  intros E He Hwf. unfold solveCircuit.
  destruct elements as [|e0 l]; [by apply elem_of_nil in He|].
  rewrite E. simpl. unfold solveNodes.
  destruct (decide (Z.of_nat (length nodes) - 1 <= 0)); [done|].
  destruct (assemble nodes (e0 :: l)) as [Az|] eqn:HA; [|done].
  apply assemble_wellFormed in HA.
  exfalso. apply Hwf. by apply (proj1 (Forall_forall _ _) HA).
Qed.

Lemma solveCircuit_malformed_witness :
  solveCircuit MathJS.lib
    [Examples.elem "R1" Resistor 1 ["a"]; Examples.elem "R2" Resistor 1 ["b"; "c"]]
    [] = None.
Proof.
  destruct (extractNodes
              [Examples.elem "R1" Resistor 1 ["a"];
               Examples.elem "R2" Resistor 1 ["b"; "c"]] [])
    as [nodes|] eqn:E; [|vm_compute in E; discriminate].
  rewrite (solveCircuit_malformed MathJS.lib _ [] nodes
             (Examples.elem "R1" Resistor 1 ["a"]) E).
  - vm_compute in E. injection E as <-. reflexivity.
  - apply elem_of_cons. by left.
  - unfold wellFormed. simpl. lia.
Defined.

(** ** The size of the assembled system *)

Lemma preserves_bind {A} (P : A -> Prop) (f g : A -> option A) :
  preserves P f -> preserves P g -> preserves P (fun a => a ← f a; g a).
Proof.
  intros Hf Hg a a' H Ha. apply bind_Some in H as (a1 & H1 & H2).
  eapply Hg; [done|]. by eapply Hf.
Qed.

Lemma preserves_when {A} (P : A -> Prop) c (f : A -> option A) :
  preserves P f -> preserves P (when c f).
Proof.
  intros Hf a a' H Ha. destruct c; simpl in H; [by eapply Hf|by simplify_eq].
Qed.

Lemma set_dims r c i j v : preserves (fun M => dims M r c) (fun M => set M i j v).
Proof.
  intros M M' H [Hr Hc]. unfold set in H.
  destruct (decide (0 <= i /\ 0 <= j)); [|done].
  apply bind_Some in H as (row & Hrow & H).
  destruct (decide (Z.to_nat j < length row)%nat); [|done]. simplify_eq.
  split; [by rewrite length_insert|].
  apply Forall_insert; [done|]. rewrite length_insert.
  by apply (Forall_lookup_1 _ _ _ _ Hc Hrow).
Qed.

Lemma addAt_dims r c i j v :
  preserves (fun M => dims M r c) (fun M => addAt M i j v).
Proof.
  intros M M' H HM. unfold addAt in H. apply bind_Some in H as (old & _ & H).
  by eapply set_dims.
Qed.

Lemma subAt_dims r c i j v :
  preserves (fun M => dims M r c) (fun M => subAt M i j v).
Proof.
  intros M M' H HM. unfold subAt in H. apply bind_Some in H as (old & _ & H).
  by eapply set_dims.
Qed.

Lemma stampResistor_dims r c g t1 t2 :
  preserves (fun M => dims M r c) (stampResistor g t1 t2).
Proof.
  unfold stampResistor.
  apply (preserves_bind _ (when _ _)); [apply preserves_when, addAt_dims|].
  apply (preserves_bind _ (when _ _)); [apply preserves_when, addAt_dims|].
  apply preserves_when.
  apply (preserves_bind _ (fun A => subAt A _ _ _)); apply subAt_dims.
Qed.

Lemma stampCurrentSource_dims r c v tA tB :
  preserves (fun M => dims M r c) (stampCurrentSource v tA tB).
Proof.
  unfold stampCurrentSource.
  apply (preserves_bind _ (when _ _)); apply preserves_when;
    [apply addAt_dims|apply subAt_dims].
Qed.

Lemma stampB_dims r c vIdx p q : preserves (fun M => dims M r c) (stampB vIdx p q).
Proof.
  unfold stampB.
  apply (preserves_bind _ (when _ _)); apply preserves_when; apply set_dims.
Qed.

Lemma stampC_dims r c vIdx p q : preserves (fun M => dims M r c) (stampC vIdx p q).
Proof.
  unfold stampC.
  apply (preserves_bind _ (when _ _)); apply preserves_when; apply set_dims.
Qed.

Lemma stampGain_dims r c vIdx g p q :
  preserves (fun M => dims M r c) (stampGain vIdx g p q).
Proof.
  unfold stampGain.
  apply (preserves_bind _ (when _ _)); apply preserves_when; apply set_dims.
Qed.

Lemma addGmin_dims r c count : forall start,
  preserves (fun M => dims M r c) (addGmin count start).
Proof.
  induction count as [|count IH]; intros start M M' H HM; simpl in H.
  - by simplify_eq.
  - apply bind_Some in H as (M1 & H1 & H2).
    eapply IH; [done|]. by eapply addAt_dims.
Qed.

Lemma forEach_preserves {S E} (P : S -> Prop) (body : S -> E -> option S) l :
  (forall e, preserves P (fun s => body s e)) ->
  preserves P (forEach body l).
Proof.
  intros Hb. induction l as [|e l IH]; intros s s' H Hs; simpl in H.
  - by simplify_eq.
  - apply bind_Some in H as (s1 & H1 & H2). eapply IH; [done|].
    by eapply (Hb e).
Qed.

Lemma forEachIdx_preserves {S E} (P : S -> Prop)
    (body : S -> Z -> E -> option S) l :
  (forall i e, preserves P (fun s => body s i e)) ->
  forall idx, preserves P (forEachIdx body idx l).
Proof.
  intros Hb. induction l as [|e l IH]; intros idx s s' H Hs; simpl in H.
  - by simplify_eq.
  - apply bind_Some in H as (s1 & H1 & H2). eapply IH; [done|].
    by eapply (Hb idx e).
Qed.

Lemma stampElement_dims nodes s e :
  preserves (fun Az : Matrix * Matrix => dims (fst Az) s s /\ dims (snd Az) s 1)
    (fun Az => stampElement nodes Az e).
Proof.
  intros [A z] [A' z'] H [HA Hz]. simpl in *. unfold stampElement in H.
  destruct (e_type e).
  - apply bind_Some in H as (i0 & _ & H). apply bind_Some in H as (i1 & _ & H).
    apply bind_Some in H as (A1 & H1 & H). simplify_eq.
    split; [|done]. by eapply stampResistor_dims.
  - by simplify_eq.
  - apply bind_Some in H as (i0 & _ & H). apply bind_Some in H as (i1 & _ & H).
    apply bind_Some in H as (z1 & H1 & H). simplify_eq.
    split; [done|]. by eapply stampCurrentSource_dims.
  - by simplify_eq.
Qed.

Lemma stampVSource_dims nodes n s idx e :
  preserves (fun Az : Matrix * Matrix => dims (fst Az) s s /\ dims (snd Az) s 1)
    (fun Az => stampVSource nodes n Az idx e).
Proof.
  intros [A z] [A' z'] H [HA Hz]. simpl in *. unfold stampVSource in H.
  apply bind_Some in H as (i0 & _ & H). apply bind_Some in H as (i1 & _ & H).
  apply bind_Some in H as (A1 & H1 & H).
  pose proof (stampB_dims _ _ _ _ _ _ _ H1 HA) as HA1.
  destruct (e_type e).
  - by simplify_eq.
  - apply bind_Some in H as (A2 & H2 & H). apply bind_Some in H as (z2 & H3 & H).
    simplify_eq. split; [by eapply stampC_dims|by eapply set_dims].
  - by simplify_eq.
  - apply bind_Some in H as (i2 & _ & H). apply bind_Some in H as (i3 & _ & H).
    apply bind_Some in H as (A2 & H2 & H). apply bind_Some in H as (A3 & H3 & H).
    simplify_eq. split; [|done].
    eapply stampGain_dims; [done|]. by eapply stampC_dims.
Qed.

(** X6. Whenever the assembly of the system for the nodes of a circuit
    returns, the matrix is square with one row for every node but ground
    and one for every voltage-type source, and the right-hand side is a
    column of the same height. (For these nodes every index written lies
    inside the matrix, see [assemble_returns], so no write could grow it.) *)
Theorem assemble_dims (elements : list CircuitElement) (wires : list Wire)
    nodes A z :
  extractNodes elements wires = Some nodes ->
  assemble nodes elements = Some (A, z) ->
  let size := Z.to_nat (Z.of_nat (length nodes) - 1
                        + Z.of_nat (length (vSources elements))) in
  dims A size size /\ dims z size 1.
Proof.
  intros _ H size. unfold assemble in H.
  apply bind_Some in H as ([A1 z1] & H1 & H).
  apply bind_Some in H as (A2 & H2 & H3). simpl in *.
  assert (H0 : dims A1 size size /\ dims z1 size 1).
  { eapply (forEach_preserves
              (fun Az : Matrix * Matrix =>
                 dims (fst Az) size size /\ dims (snd Az) size 1)
              (stampElement nodes) elements (stampElement_dims nodes size)
              (zeros size size, zeros size 1) (A1, z1) H1).
    split; apply zeros_dims. }
  destruct H0 as [HA1 Hz1].
  pose proof (addGmin_dims _ _ _ _ _ _ H2 HA1) as HA2.
  eapply (forEachIdx_preserves
            (fun Az : Matrix * Matrix =>
               dims (fst Az) size size /\ dims (snd Az) size 1)
            (stampVSource nodes (Z.of_nat (length nodes) - 1))
            (vSources elements)
            (fun i e => stampVSource_dims nodes _ size i e) 0
            (A2, z1) (A, z) H3).
  done.
Qed.

Lemma assemble_dims_witness :
  exists nodes A z,
    extractNodes Examples.loopElements Examples.loopWires = Some nodes /\
    assemble nodes Examples.loopElements = Some (A, z) /\
    dims A 2 2 /\ dims z 2 1.
Proof.
  destruct (extractNodes Examples.loopElements Examples.loopWires)
    as [nodes|] eqn:E; [|vm_compute in E; discriminate].
  destruct (assemble nodes Examples.loopElements) as [[A z]|] eqn:EA;
    [|vm_compute in E; injection E as <-; vm_compute in EA; discriminate].
  exists nodes, A, z. split; [reflexivity|]. split; [exact EA|].
  pose proof (assemble_dims Examples.loopElements Examples.loopWires nodes A z
                E EA) as H.
  vm_compute in E. injection E as <-. exact H.
Defined.

(** ** Well-formed circuits are solved without an exception *)

Lemma wellFormed_two e : wellFormed e -> (2 <= length (e_terminals e))%nat.
Proof. unfold wellFormed. destruct (e_type e); lia. Qed.

Lemma extractVoltages_returns x count : forall start nv,
  (forall i, start <= i < start + Z.of_nat count -> is_Some (get x i 0)) ->
  is_Some (extractVoltages count start x nv).
Proof.
  induction count as [|count IH]; intros start nv Hx; simpl; [by eexists|].
  destruct (Hx start) as [v Hv]; [lia|]. rewrite Hv. simpl.
  apply IH. intros i Hi. apply Hx. lia.
Qed.

Lemma deriveVSource_returns nodes n x nv l : forall idx cp,
  Forall wellFormed l ->
  (forall i, n + idx <= i < n + idx + Z.of_nat (length l) ->
     is_Some (get x i 0)) ->
  is_Some (forEachIdx (deriveVSource nodes n x nv) idx l cp).
Proof.
  induction l as [|e l IH]; intros idx [c p] Hwf Hx; simpl; [by eexists|].
  apply Forall_cons in Hwf as [He Hl].
  destruct (Hx (n + idx)) as [v Hv]; [simpl; lia|]. rewrite Hv. simpl.
  apply wellFormed_two in He.
  destruct (terminalId_returns e 0) as [i0 ->]; [lia|].
  destruct (terminalId_returns e 1) as [i1 ->]; [lia|]. simpl.
  apply IH; [done|]. intros i Hi. apply Hx. simpl length. lia.
Qed.

Lemma deriveElement_returns nodes nv l : forall cp,
  Forall wellFormed l -> is_Some (forEach (deriveElement nodes nv) l cp).
Proof.
  induction l as [|e l IH]; intros [c p] Hwf; simpl; [by eexists|].
  apply Forall_cons in Hwf as [He Hl]. apply wellFormed_two in He.
  destruct (terminalId_returns e 0) as [i0 H0]; [lia|].
  destruct (terminalId_returns e 1) as [i1 H1]; [lia|].
  destruct (e_type e); rewrite ?H0, ?H1; simpl; by apply IH.
Qed.

Lemma deriveResult_returns nodes els x :
  Forall wellFormed els -> Z.of_nat (length nodes) - 1 >= 0 ->
  (forall i, 0 <= i < Z.of_nat (length nodes) - 1
                      + Z.of_nat (length (vSources els)) ->
     is_Some (get x i 0)) ->
  is_Some (deriveResult nodes els x).
Proof.
  intros Hwf Hn Hx. unfold deriveResult.
  destruct (extractVoltages_returns x (Z.to_nat (Z.of_nat (length nodes) - 1)) 0
              {[ 0 := 0%float ]}) as [nv ->].
  { intros i Hi. apply Hx. lia. }
  simpl.
  destruct (deriveVSource_returns nodes (Z.of_nat (length nodes) - 1) x nv
              (vSources els) 0 (∅, ∅)) as [cp ->].
  { unfold vSources. apply Forall_forall. intros e He.
    apply list_elem_of_filter in He as [_ He].
    by apply (proj1 (Forall_forall _ _) Hwf). }
  { intros i Hi. apply Hx. lia. }
  simpl. destruct (deriveElement_returns nodes nv els cp Hwf) as [cp' ->].
  simpl. by eexists.
Qed.

(** X7. For elements that have the terminals their kind reads,
    [solveCircuit] never throws, provided the solution handed back by the
    solver library has an entry in column 0 of every row of the system. *)
Theorem solveCircuit_returns (lib : MathLib) (elements : list CircuitElement)
    (wires : list Wire) :
  Forall wellFormed elements ->
  (forall nodes A z x,
     extractNodes elements wires = Some nodes ->
     assemble nodes elements = Some (A, z) ->
     solveSystem lib A z = Some x ->
     forall i, 0 <= i < Z.of_nat (length nodes) - 1
                        + Z.of_nat (length (vSources elements)) ->
       is_Some (get x i 0)) ->
  is_Some (solveCircuit lib elements wires).
Proof.
  intros Hwf Hlib. unfold solveCircuit.
  destruct elements as [|e0 l] eqn:El; [by eexists|]. rewrite <- El in *.
  destruct (extractNodes_total elements wires) as [nodes E]. rewrite E. simpl.
  unfold solveNodes.
  destruct (decide (Z.of_nat (length nodes) - 1 <= 0)); [by eexists|].
  destruct (assemble_returns elements wires nodes E) as [[A z] HA]; [lia|done|].
  rewrite HA. simpl.
  destruct (solveSystem lib A z) as [x|] eqn:Hx; [|by eexists].
  apply deriveResult_returns; [done|lia|].
  intros i Hi. by apply (Hlib nodes A z x E HA Hx).
Qed.

Lemma solveCircuit_returns_witness :
  is_Some (solveCircuit MathJS.lib Examples.loopElements Examples.loopWires).
Proof.
  apply (solveCircuit_returns MathJS.lib Examples.loopElements Examples.loopWires).
  - repeat constructor; vm_compute; lia.
  - intros nodes A z x E HA Hx i Hi.
    vm_compute in E. injection E as <-.
    vm_compute in HA. injection HA as <- <-.
    vm_compute in Hx. injection Hx as <-.
    replace (length (vSources Examples.loopElements)) with 1%nat in Hi
      by reflexivity.
    simpl in Hi.
    assert (i = 0 \/ i = 1) as [-> | ->] by lia; vm_compute; by eexists.
Defined.

(** ** The constraint row of a controlled source *)

Lemma stampGain_get vIdx g p q A A' c :
  stampGain vIdx g p q A = Some A' ->
  get A' vIdx c =
    if bool_decide (q > 0 /\ c = q - 1) then Some g
    else if bool_decide (p > 0 /\ c = p - 1) then Some (- g)%float
    else get A vIdx c.
Proof.
  unfold stampGain. intros H. apply bind_Some in H as (A1 & H1 & H2).
  assert (E1 : get A1 vIdx c =
    if bool_decide (p > 0 /\ c = p - 1) then Some (- g)%float
    else get A vIdx c).
  { apply when_Some in H1 as [[Hp H1]|[Hp ->]].
    - apply bool_decide_eq_true in Hp. rewrite (get_set _ _ _ _ _ vIdx c H1).
      destruct (decide (vIdx = vIdx /\ c = p - 1)) as [[_ ->]|N].
      + by rewrite bool_decide_eq_true_2.
      + rewrite bool_decide_eq_false_2; [done|]. intros [_ ->]. by apply N.
    - apply bool_decide_eq_false in Hp.
      rewrite bool_decide_eq_false_2; [done|]. intros [? _]. done. }
  apply when_Some in H2 as [[Hq H2]|[Hq ->]].
  - apply bool_decide_eq_true in Hq. rewrite (get_set _ _ _ _ _ vIdx c H2).
    destruct (decide (vIdx = vIdx /\ c = q - 1)) as [[_ ->]|N].
    + by rewrite bool_decide_eq_true_2.
    + rewrite (bool_decide_eq_false_2 (q > 0 /\ c = q - 1)); [done|].
      intros [_ ->]. by apply N.
  - apply bool_decide_eq_false in Hq.
    rewrite (bool_decide_eq_false_2 (q > 0 /\ c = q - 1)); [done|].
    intros [? _]. done.
Qed.

Section ControlledRows.
Variable nodes : list ElectricalNode.
Variable n : Z.
Hypothesis Hrange : forall id, getNodeIndex nodes id <= n.

Lemma stampVSource_controlled Az Az' idx e c :
  stampVSource nodes n Az idx e = Some Az' -> e_type e = VCVS -> 0 <= idx ->
  exists i0 i1 i2 i3,
    terminalId e 0 = Some i0 /\ terminalId e 1 = Some i1 /\
    terminalId e 2 = Some i2 /\ terminalId e 3 = Some i3 /\
    get (snd Az') (n + idx) 0 = get (snd Az) (n + idx) 0 /\
    get (fst Az') (n + idx) c = controlledRow nodes e i0 i1 i2 i3 c
                                  (get (fst Az) (n + idx) c).
Proof.
  intros H Hty Hidx. destruct Az as [A z]. unfold stampVSource in H.
  apply bind_Some in H as (i0 & H0 & H). apply bind_Some in H as (i1 & H1 & H).
  apply bind_Some in H as (A1 & HB & H). rewrite Hty in H.
  apply bind_Some in H as (i2 & H2 & H). apply bind_Some in H as (i3 & H3 & H).
  apply bind_Some in H as (A2 & HC & H). apply bind_Some in H as (A3 & HG & H).
  injection H as <-. exists i0, i1, i2, i3. do 4 (split; [done|]). simpl.
  split; [done|]. unfold controlledRow.
  rewrite (stampGain_get _ _ _ _ _ _ c HG), (stampC_get _ _ _ _ _ c HC).
  assert (HR : n <= n + idx) by lia.
  by rewrite (stampB_row (n + idx) n _ _ _ (Hrange _) (Hrange _) HR _ _ c HB).
Qed.

Lemma vSources_controlled l c : forall idx0 Az Az' k e,
  forEachIdx (stampVSource nodes n) idx0 l Az = Some Az' ->
  l !! k = Some e -> e_type e = VCVS -> 0 <= idx0 ->
  exists i0 i1 i2 i3,
    terminalId e 0 = Some i0 /\ terminalId e 1 = Some i1 /\
    terminalId e 2 = Some i2 /\ terminalId e 3 = Some i3 /\
    get (snd Az') (n + (idx0 + Z.of_nat k)) 0
      = get (snd Az) (n + (idx0 + Z.of_nat k)) 0 /\
    get (fst Az') (n + (idx0 + Z.of_nat k)) c =
      controlledRow nodes e i0 i1 i2 i3 c
        (get (fst Az) (n + (idx0 + Z.of_nat k)) c).
Proof.
  induction l as [|e' l IH]; intros idx0 Az Az' k e H Hk Hty Hidx; [done|].
  simpl in H. apply bind_Some in H as (Az1 & H1 & H).
  destruct k as [|k]; simpl in Hk.
  - injection Hk as ->. replace (idx0 + Z.of_nat 0) with idx0 by lia.
    destruct (stampVSource_controlled _ _ _ _ c H1 Hty Hidx)
      as (i0 & i1 & i2 & i3 & H0 & Hi1 & Hi2 & Hi3 & Hz & HA).
    exists i0, i1, i2, i3. do 4 (split; [done|]).
    destruct (vSources_after nodes n Hrange (n + idx0) l c _ _ _ H)
      as [-> _]; [lia..|].
    destruct (vSources_after nodes n Hrange (n + idx0) l 0 _ _ _ H)
      as [_ ->]; [lia..|].
    done.
  - destruct (IH (idx0 + 1) _ _ k e H Hk Hty)
      as (i0 & i1 & i2 & i3 & H0 & Hi1 & Hi2 & Hi3 & Hz & HA); [lia|].
    replace (idx0 + Z.of_nat (S k)) with (idx0 + 1 + Z.of_nat k) by lia.
    exists i0, i1, i2, i3. do 4 (split; [done|]).
    rewrite HA, Hz.
    destruct (stampVSource_other nodes n Hrange (n + (idx0 + 1 + Z.of_nat k))
                _ _ _ _ c H1) as [-> _]; [lia..|].
    destruct (stampVSource_other nodes n Hrange (n + (idx0 + 1 + Z.of_nat k))
                _ _ _ _ 0 H1) as [_ ->]; [lia..|].
    done.
Qed.
End ControlledRows.

(** X8. In the system assembled for a circuit, the row of a voltage-controlled
    voltage source of gain [g] holds, among the columns of the nodes, the
    value written last to each column: [g] at the node of [terminals[3]],
    else [-g] at the node of [terminals[2]], else -1 at the node of
    [terminals[1]], else 1 at the node of [terminals[0]], and 0 elsewhere
    (ground has no column); its right-hand side is 0. A later write replaces
    an earlier one, it is not added to it. *)
Theorem controlled_source_row (elements : list CircuitElement)
    (wires : list Wire) nodes A z idx e :
  extractNodes elements wires = Some nodes ->
  Z.of_nat (length nodes) - 1 > 0 ->
  assemble nodes elements = Some (A, z) ->
  vSources elements !! idx = Some e -> e_type e = VCVS ->
  exists i0 i1 i2 i3,
    terminalId e 0 = Some i0 /\ terminalId e 1 = Some i1 /\
    terminalId e 2 = Some i2 /\ terminalId e 3 = Some i3 /\
    let n := Z.of_nat (length nodes) - 1 in
    get z (n + Z.of_nat idx) 0 = Some 0%float /\
    forall c, 0 <= c < n + Z.of_nat (length (vSources elements)) ->
      get A (n + Z.of_nat idx) c
        = controlledRow nodes e i0 i1 i2 i3 c (Some 0%float).
Proof.
  intros Hn Hpos HA Hidx Hty.
  set (n := Z.of_nat (length nodes) - 1) in *.
  assert (Hrange : forall id, getNodeIndex nodes id <= n).
  { intros id. apply getNodeIndex_range. intros i nd Hi.
    by apply (extractNodes_ids elements wires nodes i nd). }
  unfold assemble in HA. fold n in HA.
  apply bind_Some in HA as (Az1 & H1 & HA).
  apply bind_Some in HA as (A1 & H2 & HA).
  pose proof (lookup_lt_Some _ _ _ Hidx) as Hlt.
  assert (Hc : forall c,
    exists i0 i1 i2 i3,
      terminalId e 0 = Some i0 /\ terminalId e 1 = Some i1 /\
      terminalId e 2 = Some i2 /\ terminalId e 3 = Some i3 /\
      get z (n + Z.of_nat idx) 0 = get (snd Az1) (n + Z.of_nat idx) 0 /\
      get A (n + Z.of_nat idx) c =
        controlledRow nodes e i0 i1 i2 i3 c (get A1 (n + Z.of_nat idx) c)).
  { intros c.
    destruct (vSources_controlled nodes n Hrange _ c 0 _ _ idx e HA Hidx Hty)
      as (i0 & i1 & i2 & i3 & H0 & Hi1 & Hi2 & Hi3 & Hz & HAc); [lia|].
    replace (n + (0 + Z.of_nat idx)) with (n + Z.of_nat idx) in * by lia.
    exists i0, i1, i2, i3. done. }
  destruct (Hc 0) as (i0 & i1 & i2 & i3 & H0 & Hi1 & Hi2 & Hi3 & Hz & _).
  exists i0, i1, i2, i3. do 4 (split; [done|]). split.
  - rewrite Hz.
    destruct (forEach_stampElement_rows nodes n Hrange (n + Z.of_nat idx)
                elements 0 _ _ H1) as [_ ->]; [lia|].
    simpl. apply zeros_get; lia.
  - intros c Hcr.
    destruct (Hc c) as (i0' & i1' & i2' & i3' & H0' & Hi1' & Hi2' & Hi3' & _ & HAc).
    assert (i0' = i0) as -> by congruence. assert (i1' = i1) as -> by congruence.
    assert (i2' = i2) as -> by congruence. assert (i3' = i3) as -> by congruence.
    rewrite HAc.
    assert (Hg : 0 + Z.of_nat (Z.to_nat n) <= n + Z.of_nat idx) by lia.
    rewrite (addGmin_row (n + Z.of_nat idx) (Z.to_nat n) 0 Hg _ _ c H2).
    destruct (forEach_stampElement_rows nodes n Hrange (n + Z.of_nat idx)
                elements c _ _ H1) as [-> _]; [lia|].
    simpl. by rewrite zeros_get by lia.
Qed.

Lemma controlled_source_row_witness :
  exists nodes A z,
    extractNodes MoreExamples.controlledElements MoreExamples.controlledWires
      = Some nodes /\
    assemble nodes MoreExamples.controlledElements = Some (A, z) /\
    get z 3 0 = Some 0%float /\
    get A 3 0 = Some (-2)%float /\ get A 3 1 = Some 1%float.
Proof.
  destruct (extractNodes MoreExamples.controlledElements
              MoreExamples.controlledWires)
    as [nodes|] eqn:E; [|vm_compute in E; discriminate].
  destruct (assemble nodes MoreExamples.controlledElements) as [[A z]|] eqn:EA;
    [|vm_compute in E; injection E as <-; vm_compute in EA; discriminate].
  exists nodes, A, z. split; [reflexivity|]. split; [exact EA|].
  destruct (controlled_source_row MoreExamples.controlledElements
              MoreExamples.controlledWires nodes A z 1%nat
              (Examples.elem "E1" VCVS 2 ["p"; "q"; "c"; "d"]))
    as (i0 & i1 & i2 & i3 & H0 & H1 & H2 & H3 & Hz & Hrow).
  - exact E.
  - vm_compute in E. injection E as <-. reflexivity.
  - exact EA.
  - reflexivity.
  - reflexivity.
  - pose proof (Hrow 0) as Hr0. pose proof (Hrow 1) as Hr1.
    vm_compute in E. injection E as <-.
    vm_compute in H0. injection H0 as <-. vm_compute in H1. injection H1 as <-.
    vm_compute in H2. injection H2 as <-. vm_compute in H3. injection H3 as <-.
    split; [exact Hz|].
    split; [apply Hr0; simpl; lia|apply Hr1; simpl; lia].
Defined.

(** ** Symmetry of the system without controlled sources *)

Lemma zeros_entry r c i j :
  get (zeros r c) i j =
    if decide (0 <= i < Z.of_nat r /\ 0 <= j < Z.of_nat c) then Some 0%float
    else None.
Proof.
  destruct (decide (0 <= i < Z.of_nat r /\ 0 <= j < Z.of_nat c)) as [H|H].
  - apply zeros_get; lia.
  - unfold get, zeros. destruct (decide (0 <= i /\ 0 <= j)) as [H0|]; [|done].
    destruct (replicate r (replicate c 0%float) !! Z.to_nat i) as [row|] eqn:E;
      [|done].
    apply lookup_replicate in E as [-> Hi]. simpl.
    apply lookup_replicate_None. lia.
Qed.

Lemma zeros_symmetric s : symmetric (zeros s s).
Proof.
  intros i j. rewrite !zeros_entry.
  destruct (decide (0 <= i < Z.of_nat s /\ 0 <= j < Z.of_nat s)),
           (decide (0 <= j < Z.of_nat s /\ 0 <= i < Z.of_nat s));
    try done; try lia.
Qed.

Lemma addAt_diagonal i v : preserves symmetric (fun M => addAt M i i v).
Proof.
  intros M M' H Hs a b.
  rewrite (addAt_get _ _ _ _ _ a b H), (addAt_get _ _ _ _ _ b a H).
  destruct (decide (a = i /\ b = i)), (decide (b = i /\ a = i));
    try done; try lia.
Qed.

Lemma subAt_pair a b g :
  preserves symmetric (fun M => M ← subAt M a b g; subAt M b a g).
Proof.
  intros M M' H Hs x y. apply bind_Some in H as (M1 & H1 & H2).
  rewrite (subAt_get _ _ _ _ _ x y H2), (subAt_get _ _ _ _ _ y x H2).
  rewrite !(subAt_get _ _ _ _ _ _ _ H1).
  repeat case_decide; destruct_and?; simplify_eq; try done; try lia;
    try (by rewrite (Hs a b)); try (by rewrite (Hs b a)).
Qed.

Lemma stampResistor_symmetric g t1 t2 : preserves symmetric (stampResistor g t1 t2).
Proof.
  unfold stampResistor.
  apply (preserves_bind _ (when _ _)); [apply preserves_when, addAt_diagonal|].
  apply (preserves_bind _ (when _ _)); [apply preserves_when, addAt_diagonal|].
  apply preserves_when, subAt_pair.
Qed.

Lemma addGmin_symmetric count : forall start,
  preserves symmetric (addGmin count start).
Proof.
  induction count as [|count IH]; intros start M M' H HM; simpl in H.
  - by simplify_eq.
  - apply bind_Some in H as (M1 & H1 & H2).
    eapply IH; [done|]. by eapply addAt_diagonal.
Qed.

Lemma stampElement_symmetric nodes e :
  preserves (fun Az : Matrix * Matrix => symmetric (fst Az))
    (fun Az => stampElement nodes Az e).
Proof.
  intros [A z] [A' z'] H HA. simpl in *. unfold stampElement in H.
  destruct (e_type e).
  - apply bind_Some in H as (i0 & _ & H). apply bind_Some in H as (i1 & _ & H).
    apply bind_Some in H as (A1 & H1 & H). simplify_eq.
    by eapply stampResistor_symmetric.
  - by simplify_eq.
  - apply bind_Some in H as (i0 & _ & H). apply bind_Some in H as (i1 & _ & H).
    apply bind_Some in H as (z1 & H1 & H). by simplify_eq.
  - by simplify_eq.
Qed.

Lemma stampB_entry v p q A A' i j :
  stampB v p q A = Some A' ->
  get A' i j =
    if bool_decide (q > 0 /\ i = q - 1 /\ j = v) then Some (-1)%float
    else if bool_decide (p > 0 /\ i = p - 1 /\ j = v) then Some 1%float
    else get A i j.
Proof.
  unfold stampB. intros H. apply bind_Some in H as (A1 & H1 & H2).
  apply when_Some in H1 as [[Hp H1]|[Hp ->]];
    apply when_Some in H2 as [[Hq H2]|[Hq ->]];
    try apply bool_decide_eq_true in Hp; try apply bool_decide_eq_false in Hp;
    try apply bool_decide_eq_true in Hq; try apply bool_decide_eq_false in Hq;
    rewrite ?(get_set _ _ _ _ _ i j H2), ?(get_set _ _ _ _ _ i j H1);
    repeat case_bool_decide; repeat case_decide; try done; lia.
Qed.

Lemma stampC_entry v p q A A' i j :
  stampC v p q A = Some A' ->
  get A' i j =
    if bool_decide (q > 0 /\ i = v /\ j = q - 1) then Some (-1)%float
    else if bool_decide (p > 0 /\ i = v /\ j = p - 1) then Some 1%float
    else get A i j.
Proof.
  unfold stampC. intros H. apply bind_Some in H as (A1 & H1 & H2).
  apply when_Some in H1 as [[Hp H1]|[Hp ->]];
    apply when_Some in H2 as [[Hq H2]|[Hq ->]];
    try apply bool_decide_eq_true in Hp; try apply bool_decide_eq_false in Hp;
    try apply bool_decide_eq_true in Hq; try apply bool_decide_eq_false in Hq;
    rewrite ?(get_set _ _ _ _ _ i j H2), ?(get_set _ _ _ _ _ i j H1);
    repeat case_bool_decide; repeat case_decide; try done; lia.
Qed.

Lemma stampVSource_symmetric nodes n idx e :
  (forall id, getNodeIndex nodes id <= n) -> 0 <= idx ->
  e_type e = VoltageSource ->
  preserves (fun Az : Matrix * Matrix => symmetric (fst Az))
    (fun Az => stampVSource nodes n Az idx e).
Proof.
  intros Hrange Hidx Hty [A z] [A' z'] H HA. simpl in *.
  unfold stampVSource in H.
  apply bind_Some in H as (i0 & _ & H). apply bind_Some in H as (i1 & _ & H).
  apply bind_Some in H as (A1 & HB & H). rewrite Hty in H.
  apply bind_Some in H as (A2 & HC & H). apply bind_Some in H as (z2 & _ & H).
  simplify_eq. intros i j.
  pose proof (Hrange i0). pose proof (Hrange i1).
  rewrite (stampC_entry _ _ _ _ _ i j HC), (stampC_entry _ _ _ _ _ j i HC).
  rewrite (stampB_entry _ _ _ _ _ i j HB), (stampB_entry _ _ _ _ _ j i HB).
  repeat case_bool_decide; try done; try lia.
Qed.

Lemma vSources_plain els :
  (forall e, e ∈ els -> e_type e <> VCVS) ->
  Forall (fun e => e_type e = VoltageSource) (vSources els).
Proof.
  intros H. apply Forall_forall. intros e He.
  apply list_elem_of_filter in He as [Hv He]. specialize (H e He).
  unfold isVSource in Hv. destruct (e_type e); done.
Qed.

Lemma forEachIdx_stampVSource_symmetric nodes n l :
  (forall id, getNodeIndex nodes id <= n) ->
  Forall (fun e => e_type e = VoltageSource) l ->
  forall idx, 0 <= idx ->
  preserves (fun Az : Matrix * Matrix => symmetric (fst Az))
    (forEachIdx (stampVSource nodes n) idx l).
Proof.
  intros Hrange. induction 1 as [|e l He Hl IH]; intros idx Hidx s s' H Hs;
    simpl in H.
  - by simplify_eq.
  - apply bind_Some in H as (s1 & H1 & H2).
    eapply (IH (idx + 1)); [lia|done|].
    by eapply (stampVSource_symmetric nodes n idx e).
Qed.

(** X9. For a circuit without controlled sources the assembled matrix is
    symmetric: the conductance block by the resistor stamps, and the column
    of an independent voltage source mirrors its row. *)
Theorem assemble_symmetric (elements : list CircuitElement)
    (wires : list Wire) nodes A z :
  extractNodes elements wires = Some nodes ->
  assemble nodes elements = Some (A, z) ->
  (forall e, e ∈ elements -> e_type e <> VCVS) ->
  symmetric A.
Proof.
  intros Hn HA Hplain.
  set (n := Z.of_nat (length nodes) - 1) in *.
  assert (Hrange : forall id, getNodeIndex nodes id <= n).
  { intros id. apply getNodeIndex_range. intros i nd Hi.
    by apply (extractNodes_ids elements wires nodes i nd). }
  unfold assemble in HA. fold n in HA.
  apply bind_Some in HA as ([A1 z1] & H1 & HA).
  apply bind_Some in HA as (A2 & H2 & H3). simpl in *.
  assert (HA1 : symmetric A1).
  { apply (forEach_preserves (fun Az : Matrix * Matrix => symmetric (fst Az))
             (stampElement nodes) elements (stampElement_symmetric nodes)
             _ (A1, z1) H1). apply zeros_symmetric. }
  pose proof (addGmin_symmetric _ _ _ _ H2 HA1) as HA2.
  apply (forEachIdx_stampVSource_symmetric nodes n (vSources elements) Hrange
           (vSources_plain elements Hplain) 0 ltac:(lia) (A2, z1) (A, z) H3).
  done.
Qed.

Lemma assemble_symmetric_witness :
  exists nodes A z,
    extractNodes Examples.loopElements Examples.loopWires = Some nodes /\
    assemble nodes Examples.loopElements = Some (A, z) /\ symmetric A.
Proof.
  destruct (extractNodes Examples.loopElements Examples.loopWires)
    as [nodes|] eqn:E; [|vm_compute in E; discriminate].
  destruct (assemble nodes Examples.loopElements) as [[A z]|] eqn:EA;
    [|vm_compute in E; injection E as <-; vm_compute in EA; discriminate].
  exists nodes, A, z. split; [reflexivity|]. split; [exact EA|].
  apply (assemble_symmetric Examples.loopElements Examples.loopWires nodes A z
           E EA).
  intros e He.
  repeat (apply elem_of_cons in He as [->|He]); [..|by apply elem_of_nil in He];
    discriminate.
Defined.

(** ** Current and power of the sources *)

Lemma deriveElement_skip nodes nv k l : forall cp cp',
  forEach (deriveElement nodes nv) l cp = Some cp' ->
  (forall e, e ∈ l -> e_id e = k -> isVSource e = true) ->
  fst cp' !! k = fst cp !! k /\ snd cp' !! k = snd cp !! k.
Proof.
  induction l as [|e l IH]; intros cp cp' H Hk; simpl in H.
  - by injection H as <-.
  - apply bind_Some in H as ([c1 p1] & He & H).
    destruct (IH _ _ H) as [-> ->].
    { intros e' He'. apply Hk, elem_of_cons. by right. }
    assert (Hv : e_id e = k -> isVSource e = true).
    { apply Hk, elem_of_cons. by left. }
    destruct cp as [c p]. unfold deriveElement in He. unfold isVSource in Hv.
    destruct (e_type e); simpl in *;
      first
        [ by injection He as <- <-
        | apply bind_Some in He as (i0 & _ & He);
          apply bind_Some in He as (i1 & _ & He);
          injection He as <- <-; simpl;
          destruct (decide (e_id e = k)) as [Hid|Hid]; [by specialize (Hv Hid)|];
          by rewrite !assign_ne by congruence ].
Qed.

Lemma deriveElement_currentSource nodes nv l : forall cp cp' e,
  forEach (deriveElement nodes nv) l cp = Some cp' ->
  e ∈ l -> e_type e = CurrentSource -> e_id e <> "__proto__" ->
  (forall e', e' ∈ l -> e_id e' = e_id e -> e' = e) ->
  exists i0 i1, terminalId e 0 = Some i0 /\ terminalId e 1 = Some i1 /\
    let vDelta := (toNumber (nv !! getNodeIndex nodes i0)
                   - toNumber (nv !! getNodeIndex nodes i1))%float in
    fst cp' !! e_id e = Some (e_value e) /\
    snd cp' !! e_id e = Some (vDelta * e_value e)%float.
Proof.
  induction l as [|e' l IH]; intros cp cp' e H Hin Hty Hkey Huniq.
  - by apply elem_of_nil in Hin.
  - simpl in H. apply bind_Some in H as ([c1 p1] & He & H).
    destruct (decide (e_id e ∈ map e_id l)) as [Hl|Hl].
    + apply list_elem_of_fmap in Hl as (e'' & Hid & Hin'').
      assert (e'' = e) as ->.
      { apply Huniq; [apply elem_of_cons; by right|done]. }
      apply (IH _ _ _ H Hin'' Hty Hkey).
      intros e1 H1. apply Huniq, elem_of_cons. by right.
    + assert (e' = e) as ->.
      { apply elem_of_cons in Hin as [->|Hin]; [done|].
        destruct Hl. by apply list_elem_of_fmap_2. }
      destruct (deriveElement_other nodes nv (e_id e) l _ _ H) as [-> ->].
      { intros e1 H1 Hid. apply Hl. rewrite <- Hid. by apply list_elem_of_fmap_2. }
      destruct cp as [c p]. unfold deriveElement in He. rewrite Hty in He.
      apply bind_Some in He as (i0 & H0 & He).
      apply bind_Some in He as (i1 & H1 & He).
      injection He as <- <-. exists i0, i1. simpl.
      by rewrite !assign_eq.
Qed.

Lemma deriveVSource_other nodes n x nv k l : forall idx cp cp',
  forEachIdx (deriveVSource nodes n x nv) idx l cp = Some cp' ->
  (forall e, e ∈ l -> e_id e <> k) ->
  fst cp' !! k = fst cp !! k /\ snd cp' !! k = snd cp !! k.
Proof.
  induction l as [|e l IH]; intros idx cp cp' H Hk; simpl in H.
  - by injection H as <-.
  - apply bind_Some in H as ([c1 p1] & He & H).
    destruct (IH _ _ _ H) as [-> ->].
    { intros e' He'. apply Hk, elem_of_cons. by right. }
    assert (e_id e <> k) by (apply Hk, elem_of_cons; by left).
    destruct cp as [c p]. unfold deriveVSource in He.
    apply bind_Some in He as (cur & _ & He).
    apply bind_Some in He as (i0 & _ & He).
    apply bind_Some in He as (i1 & _ & He).
    injection He as <- <-. simpl. by rewrite !assign_ne by congruence.
Qed.

Lemma deriveVSource_at nodes n x nv l : forall idx cp cp' k e,
  forEachIdx (deriveVSource nodes n x nv) idx l cp = Some cp' ->
  l !! k = Some e -> e_id e <> "__proto__" -> NoDup (map e_id l) ->
  exists i0 i1 current,
    terminalId e 0 = Some i0 /\ terminalId e 1 = Some i1 /\
    get x (n + (idx + Z.of_nat k)) 0 = Some current /\
    let vDelta := (toNumber (nv !! getNodeIndex nodes i0)
                   - toNumber (nv !! getNodeIndex nodes i1))%float in
    fst cp' !! e_id e = Some current /\
    snd cp' !! e_id e = Some (- (vDelta * current))%float.
Proof.
  induction l as [|e' l IH]; intros idx cp cp' k e H Hk Hkey Hnd; [done|].
  simpl in H. apply bind_Some in H as ([c1 p1] & He & H).
  simpl in Hnd. apply NoDup_cons in Hnd as [Hnotin Hnd].
  destruct k as [|k]; simpl in Hk.
  - injection Hk as ->.
    destruct (deriveVSource_other nodes n x nv (e_id e) l _ _ _ H) as [-> ->].
    { intros e1 H1 Hid. apply Hnotin. rewrite <- Hid.
      by apply list_elem_of_fmap_2. }
    destruct cp as [c p]. unfold deriveVSource in He.
    apply bind_Some in He as (cur & Hcur & He).
    apply bind_Some in He as (i0 & H0 & He).
    apply bind_Some in He as (i1 & H1 & He).
    injection He as <- <-. exists i0, i1, cur.
    replace (idx + Z.of_nat 0) with idx by lia. simpl.
    by rewrite !assign_eq.
  - destruct (IH (idx + 1) _ _ k e H Hk Hkey Hnd)
      as (i0 & i1 & cur & H0 & H1 & Hcur & Hc & Hp).
    exists i0, i1, cur.
    replace (idx + Z.of_nat (S k)) with (idx + 1 + Z.of_nat k) by lia. done.
Qed.

Lemma vSources_NoDup els :
  NoDup (map e_id els) -> NoDup (map e_id (vSources els)).
Proof.
  intros H. apply (sublist_NoDup _ (map e_id els)); [exact H|].
  apply fmap_sublist. unfold vSources. apply sublist_filter.
Qed.

(** X10. For a current source whose id is not ["__proto__"] and is shared by
    no other element, in a result other than the empty one: the returned
    current is the value of the source itself, and the returned power is the
    voltage of the node of [terminals[0]] minus that of the node of
    [terminals[1]], times the value. *)
Theorem current_source_quantities lib (elements : list CircuitElement)
    (wires : list Wire) r nodes e :
  solveCircuit lib elements wires = Some r -> r <> emptyResult ->
  extractNodes elements wires = Some nodes ->
  e ∈ elements -> e_type e = CurrentSource ->
  e_id e <> "__proto__" ->
  (forall e', e' ∈ elements -> e_id e' = e_id e -> e' = e) ->
  exists i0 i1, terminalId e 0 = Some i0 /\ terminalId e 1 = Some i1 /\
    let vDelta := (toNumber (nodeVoltages r !! getNodeIndex nodes i0)
                   - toNumber (nodeVoltages r !! getNodeIndex nodes i1))%float in
    elementCurrents r !! e_id e = Some (e_value e) /\
    elementPower r !! e_id e = Some (vDelta * e_value e)%float.
Proof.
  intros H Hne Hn Hin Hty Hkey Huniq.
  destruct (solveCircuit_full _ _ _ _ H Hne)
    as (nodes' & A & z & x & _ & Hn' & _ & _ & _ & Hr).
  assert (nodes' = nodes) as -> by congruence.
  unfold deriveResult in Hr.
  apply bind_Some in Hr as (nv & Hnv & Hr).
  apply bind_Some in Hr as (cp & Hcp & Hr).
  apply bind_Some in Hr as (cp' & Hcp' & Hr). injection Hr as <-.
  destruct (deriveElement_currentSource _ _ _ _ _ _ Hcp' Hin Hty Hkey Huniq)
    as (i0 & i1 & H0 & H1 & Hc & Hp).
  exists i0, i1. simpl in *. done.
Qed.

Lemma current_source_quantities_witness :
  exists r,
    solveCircuit MathJS.lib Examples.currentElements Examples.currentWires
      = Some r /\
    elementCurrents r !! "I1" = Some 1%float /\
    exists p, elementPower r !! "I1" = Some p /\ (1.5 <? p)%float = true.
Proof.
  destruct (solveCircuit MathJS.lib Examples.currentElements
              Examples.currentWires) as [r|] eqn:E;
    [|vm_compute in E; discriminate].
  exists r. split; [reflexivity|].
  destruct (current_source_quantities MathJS.lib Examples.currentElements
              Examples.currentWires r
              [mkNode 0 [Examples.term "p"; Examples.term "a"];
               mkNode 1 [Examples.term "q"; Examples.term "b"]]
              (Examples.elem "I1" CurrentSource 1 ["p"; "q"]))
    as (i0 & i1 & H0 & H1 & Hc & Hp).
  - exact E.
  - apply emptyResult_voltages. vm_compute in E. injection E as <-.
    vm_compute. reflexivity.
  - vm_compute. reflexivity.
  - apply elem_of_cons. by left.
  - reflexivity.
  - discriminate.
  - intros e' He' Hid.
    apply elem_of_cons in He' as [->|He']; [done|].
    apply elem_of_cons in He' as [->|He']; [by vm_compute in Hid|].
    by apply elem_of_nil in He'.
  - split; [exact Hc|]. eexists. split; [exact Hp|].
    vm_compute in H0. injection H0 as <-. vm_compute in H1. injection H1 as <-.
    vm_compute in E. injection E as <-.
    vm_compute. reflexivity.
Defined.

(** X11. For an independent or controlled voltage source whose id is not
    ["__proto__"], in a circuit whose elements have distinct ids, at
    position [idx] among the voltage-type sources, in a result other than
    the empty one: the returned current is the entry of
    the solution vector in the row of the source (the number of non-ground
    nodes plus [idx]), and the returned power is the negated product of that
    current with the voltage of the node of [terminals[0]] minus that of the
    node of [terminals[1]]. *)
Theorem voltage_source_quantities lib (elements : list CircuitElement)
    (wires : list Wire) r nodes idx e :
  solveCircuit lib elements wires = Some r -> r <> emptyResult ->
  extractNodes elements wires = Some nodes ->
  vSources elements !! idx = Some e ->
  e_id e <> "__proto__" ->
  NoDup (map e_id elements) ->
  exists A z x i0 i1 current,
    assemble nodes elements = Some (A, z) /\ solveSystem lib A z = Some x /\
    terminalId e 0 = Some i0 /\ terminalId e 1 = Some i1 /\
    get x (Z.of_nat (length nodes) - 1 + Z.of_nat idx) 0 = Some current /\
    let vDelta := (toNumber (nodeVoltages r !! getNodeIndex nodes i0)
                   - toNumber (nodeVoltages r !! getNodeIndex nodes i1))%float in
    elementCurrents r !! e_id e = Some current /\
    elementPower r !! e_id e = Some (- (vDelta * current))%float.
Proof.
  intros H Hne Hn Hidx Hkey Hnd.
  destruct (solveCircuit_full _ _ _ _ H Hne)
    as (nodes' & A & z & x & _ & Hn' & _ & HA & Hx & Hr).
  assert (nodes' = nodes) as -> by congruence.
  unfold deriveResult in Hr.
  apply bind_Some in Hr as (nv & Hnv & Hr).
  apply bind_Some in Hr as (cp & Hcp & Hr).
  apply bind_Some in Hr as (cp' & Hcp' & Hr). injection Hr as <-.
  destruct (deriveVSource_at _ _ _ _ _ _ _ _ idx e Hcp Hidx Hkey
              (vSources_NoDup _ Hnd))
    as (i0 & i1 & cur & H0 & H1 & Hcur & Hc & Hp).
  assert (Hin : e ∈ vSources elements) by (by eapply list_elem_of_lookup_2).
  apply list_elem_of_filter in Hin as [Hv Hin].
  destruct (deriveElement_skip nodes nv (e_id e) elements _ _ Hcp')
    as [Hc' Hp'].
  { intros e' He' Hid. assert (e' = e) as ->; [|done].
    apply list_elem_of_lookup in He' as [a Ha].
    apply list_elem_of_lookup in Hin as [b Hb].
    assert (a = b).
    { apply (NoDup_lookup _ a b (e_id e) Hnd);
        rewrite list_lookup_fmap; [rewrite Ha|rewrite Hb]; simpl; congruence. }
    congruence. }
  exists A, z, x, i0, i1, cur. simpl in *.
  replace (Z.of_nat (length nodes) - 1 + (0 + Z.of_nat idx))
    with (Z.of_nat (length nodes) - 1 + Z.of_nat idx) in Hcur by lia.
  rewrite Hc', Hp'. done.
Qed.

Lemma voltage_source_quantities_witness :
  exists r current,
    solveCircuit MathJS.lib Examples.loopElements Examples.loopWires = Some r /\
    elementCurrents r !! "V1" = Some current /\
    (current <? -2)%float = true.
Proof.
  destruct (solveCircuit MathJS.lib Examples.loopElements Examples.loopWires)
    as [r|] eqn:E; [|vm_compute in E; discriminate].
  destruct (voltage_source_quantities MathJS.lib Examples.loopElements
              Examples.loopWires r
              [mkNode 0 [Examples.term "a"; Examples.term "c"];
               mkNode 1 [Examples.term "b"; Examples.term "d"]] 0%nat
              (Examples.elem "V1" VoltageSource 5 ["a"; "b"]))
    as (A & z & x & i0 & i1 & cur & HA & Hx & H0 & H1 & Hcur & Hc & Hp).
  - exact E.
  - apply emptyResult_voltages. vm_compute in E. injection E as <-.
    vm_compute. reflexivity.
  - vm_compute. reflexivity.
  - reflexivity.
  - discriminate.
  - apply (bool_decide_unpack _). vm_compute. exact I.
  - exists r, cur. split; [reflexivity|]. split; [exact Hc|].
    vm_compute in HA. injection HA as <- <-.
    vm_compute in Hx. injection Hx as <-.
    vm_compute in Hcur. injection Hcur as <-.
    vm_compute. reflexivity.
Defined.


End SolverExtras.

(** * Properties of the editor state *)

Module StoreFacts.
Import Graph GraphSpec Solver SolverSpec Store StoreSpec GraphFacts SolverFacts.

(** ** Deleting the selection *)

Lemma filter_all {A} (P : A -> Prop) `{!forall x, Decision (P x)} (l : list A) :
  (forall x, x ∈ l -> P x) -> filter P l = l.
Proof.
  induction l as [|a l IH]; intros Hall; [done|].
  rewrite filter_cons_True by (apply Hall, elem_of_cons; by left).
  f_equal. apply IH. intros x Hx. apply Hall, elem_of_cons. by right.
Qed.

Lemma filter_none {A} (P : A -> Prop) `{!forall x, Decision (P x)} (l : list A) :
  (forall x, x ∈ l -> ~ P x) -> filter P l = [].
Proof.
  induction l as [|a l IH]; intros Hall; [done|].
  rewrite filter_cons_False by (apply Hall, elem_of_cons; by left).
  apply IH. intros x Hx. apply Hall, elem_of_cons. by right.
Qed.

Lemma terminalIdsToDelete_spec st id :
  id ∈ terminalIdsToDelete st <->
  exists e t, e ∈ elements st /\ e_id e ∈ selectedElementIds st /\
              t ∈ e_terminals e /\ t_id t = id.
Proof.
  unfold terminalIdsToDelete. rewrite list_elem_of_In, in_flat_map. split.
  - intros (e & He & Hid). apply list_elem_of_In, list_elem_of_filter in He as [Hs He].
    apply list_elem_of_In, list_elem_of_fmap in Hid as (t & -> & Ht).
    by exists e, t.
  - intros (e & t & He & Hs & Ht & <-). exists e. split.
    + apply list_elem_of_In, list_elem_of_filter. done.
    + apply list_elem_of_In, list_elem_of_fmap. by exists t.
Qed.

Lemma terminalIds_spec els id :
  id ∈ terminalIds els <->
  exists e t, e ∈ els /\ t ∈ e_terminals e /\ t_id t = id.
Proof.
  unfold terminalIds, allTerminals. rewrite list_elem_of_fmap. split.
  - intros (t & -> & Ht). apply list_elem_of_In, in_concat in Ht as (l & Hl & Ht).
    apply in_map_iff in Hl as (e & <- & He).
    exists e, t. by rewrite !list_elem_of_In.
  - intros (e & t & He & Ht & <-). exists t. split; [done|].
    apply list_elem_of_In, in_concat. exists (e_terminals e).
    split; [apply in_map|]; by apply list_elem_of_In.
Qed.

(** X12. After [deleteSelection] no wire is left with an end at a terminal
    of a deleted element, and if every end of every wire was a terminal of
    some element before, the same holds afterwards for the remaining wires and
    elements: deleting never leaves a wire dangling. The selection is
    empty afterwards, and with nothing selected the state is unchanged. *)
Theorem deleteSelection_wires (st : CircuitState) :
  (forall w e t, w ∈ wires (deleteSelection st) ->
     e ∈ elements st -> e_id e ∈ selectedElementIds st -> t ∈ e_terminals e ->
     startTerminalId w <> Some (t_id t) /\ endTerminalId w <> Some (t_id t)) /\
  ((forall w, w ∈ wires st -> attached (elements st) w) ->
   forall w, w ∈ wires (deleteSelection st) ->
     attached (elements (deleteSelection st)) w) /\
  selectedElementIds (deleteSelection st) = [] /\
  selectedWireIds (deleteSelection st) = [] /\
  (selectedElementIds st = [] -> selectedWireIds st = [] ->
   deleteSelection st = st).
Proof.
  split; [|split; [|split; [done|split; [done|]]]].
  - intros w e t Hw He Hs Ht. simpl in Hw.
    apply list_elem_of_filter in Hw as [[H1 H2] _].
    assert (Hdel : t_id t ∈ terminalIdsToDelete st).
    { apply terminalIdsToDelete_spec. by exists e, t. }
    split; intros E; rewrite E in *; simpl in *; done.
  - intros Hatt w Hw id Hid. simpl in Hw.
    apply list_elem_of_filter in Hw as [[H1 H2] Hw].
    apply list_elem_of_filter in Hw as [_ Hw].
    assert (Hnot : id ∉ terminalIdsToDelete st).
    { destruct Hid as [E|E]; rewrite E in *; done. }
    apply (Hatt w Hw), terminalIds_spec in Hid as (e & t & He & Ht & <-).
    apply terminalIds_spec. exists e, t. split; [|done]. simpl.
    apply list_elem_of_filter. split; [|done].
    intros Hs. apply Hnot, terminalIdsToDelete_spec. by exists e, t.
  - intros He Hw. destruct st as [els ws se sw dw]. simpl in *. subst.
    unfold deleteSelection, terminalIdsToDelete. simpl.
    rewrite (filter_none (fun e => e_id e ∈ []) els)
      by (intros e _; apply not_elem_of_nil).
    simpl. f_equal.
    + apply filter_all. intros e _. apply not_elem_of_nil.
    + rewrite filter_all; [apply filter_all|].
      * intros w _. apply not_elem_of_nil.
      * intros w _. split; apply not_elem_of_nil.
Qed.

Lemma deleteSelection_wires_witness :
  Forall (attached (elements (deleteSelection StoreExamples.editedState)))
    (wires (deleteSelection StoreExamples.editedState)) /\
  length (wires (deleteSelection StoreExamples.editedState)) = 1%nat.
Proof.
  split; [|reflexivity]. apply Forall_forall.
  apply (proj1 (proj2 (deleteSelection_wires StoreExamples.editedState))).
  intros w Hw id Hid. apply (bool_decide_unpack _).
  vm_compute in Hw.
  repeat (apply elem_of_cons in Hw as [->|Hw]); [..|by apply elem_of_nil in Hw];
    simpl in Hid; destruct Hid as [Hid|Hid]; injection Hid as <-;
    vm_compute; exact I.
Defined.


(** ** Drawing wires *)

(** X13. [finishWire] always ends the drawing; it adds at most one wire, at
    the end of the list, whose id, points and start are those of the wire
    being drawn; and it never adds a wire whose two ends are the same
    terminal, so wires from a terminal to itself never enter the store this
    way. Without a wire being drawn it does nothing. *)
Theorem finishWire_spec (terminalId : option string) (st : CircuitState) :
  drawingWire (finishWire terminalId st) = None /\
  elements (finishWire terminalId st) = elements st /\
  (wires (finishWire terminalId st) = wires st \/
   exists dw, drawingWire st = Some dw /\
     startTerminalId dw <> terminalId /\
     wires (finishWire terminalId st) =
       wires st ++ [mkWire (w_id dw) (w_points dw) (startTerminalId dw)
                      terminalId]) /\
  ((forall w, w ∈ wires st -> startTerminalId w <> endTerminalId w) ->
   forall w, w ∈ wires (finishWire terminalId st) ->
     startTerminalId w <> endTerminalId w) /\
  (drawingWire st = None -> finishWire terminalId st = st).
Proof.
  unfold finishWire. destruct (drawingWire st) as [dw|] eqn:Hdw.
  - destruct (decide (startTerminalId dw <> terminalId)) as [Hne|He]; simpl.
    + split; [done|]. split; [done|]. split; [right; by exists dw|].
      split; [|done]. intros Hall w Hw.
      apply elem_of_app in Hw as [Hw|Hw]; [by apply Hall|].
      apply list_elem_of_singleton in Hw as ->. done.
    + split; [done|]. split; [done|]. split; [by left|]. split; [|done].
      intros Hall w Hw. by apply Hall.
  - split; [done|]. split; [done|]. split; [by left|]. split; [|done].
    intros Hall w Hw. by apply Hall.
Qed.

Lemma finishWire_spec_witness :
  Forall (fun w => startTerminalId w <> endTerminalId w)
    (wires (finishWire (Some "v1") StoreExamples.drawingState)).
Proof.
  apply Forall_forall.
  apply (proj1 (proj2 (proj2 (proj2
           (finishWire_spec (Some "v1") StoreExamples.drawingState))))).
  intros w Hw. vm_compute in Hw. by apply elem_of_nil in Hw.
Defined.


(** X14. [deleteSelection] does not end a drawing in progress: when the wire
    being drawn starts at a terminal of a selected element (and of no
    other element), deleting the selection and then finishing the wire at
    another terminal puts a wire into the store whose start is a terminal
    that no longer exists. *)
Theorem deleteSelection_keeps_drawing (st : CircuitState) dw t terminalId :
  drawingWire st = Some dw -> startTerminalId dw = Some t ->
  (forall e, e ∈ elements st -> t ∈ map t_id (e_terminals e) ->
     e_id e ∈ selectedElementIds st) ->
  terminalId <> Some t ->
  let st' := finishWire terminalId (deleteSelection st) in
  exists w, w ∈ wires st' /\ w_id w = w_id dw /\
    startTerminalId w = Some t /\ endTerminalId w = terminalId /\
    t ∉ terminalIds (elements st').
Proof.
  intros Hdw Hs Hsel Hne st'. unfold st', finishWire. simpl. rewrite Hdw.
  rewrite decide_True by (rewrite Hs; congruence). simpl.
  exists (mkWire (w_id dw) (w_points dw) (startTerminalId dw) terminalId).
  split; [apply elem_of_app; right; by apply list_elem_of_singleton|].
  split; [done|]. split; [done|]. split; [done|].
  intros Hin. apply terminalIds_spec in Hin as (e & t0 & He & Ht0 & Hid).
  apply list_elem_of_filter in He as [Hnot He]. apply Hnot, Hsel; [done|].
  apply list_elem_of_fmap. by exists t0.
Qed.

Lemma deleteSelection_keeps_drawing_witness :
  exists w,
    w ∈ wires (finishWire (Some "v1")
                 (deleteSelection StoreExamples.drawingState)) /\
    startTerminalId w = Some "r1" /\
    "r1" ∉ terminalIds
             (elements (finishWire (Some "v1")
                          (deleteSelection StoreExamples.drawingState))).
Proof.
  destruct (deleteSelection_keeps_drawing StoreExamples.drawingState
              (mkWire "w0" [(0%float, 0%float); (0%float, 0%float)]
                 (Some "r1") None) "r1" (Some "v1"))
    as (w & Hw & _ & Hs & _ & Hnot).
  - reflexivity.
  - reflexivity.
  - intros e He Ht. vm_compute in He.
    repeat (apply elem_of_cons in He as [->|He]); [..|by apply elem_of_nil in He];
      apply (bool_decide_unpack _); vm_compute; try exact I;
      apply (bool_decide_pack _) in Ht; vm_compute in Ht; destruct Ht.
  - discriminate.
  - exists w. split; [exact Hw|]. split; [exact Hs|exact Hnot].
Defined.


(** ** Selecting *)

Lemma toggle_spec id selected x :
  x ∈ toggle id selected <->
  if decide (x = id) then id ∉ selected else x ∈ selected.
Proof.
  unfold toggle. destruct (decide (id ∈ selected)) as [Hin|Hin].
  - rewrite list_elem_of_filter. destruct (decide (x = id)) as [->|Hx]; tauto.
  - rewrite elem_of_app, list_elem_of_singleton.
    destruct (decide (x = id)) as [->|Hx]; tauto.
Qed.

Lemma toggle_NoDup id selected : NoDup selected -> NoDup (toggle id selected).
Proof.
  intros Hnd. unfold toggle. destruct (decide (id ∈ selected)) as [Hin|Hin].
  - by apply NoDup_filter.
  - apply NoDup_app. split; [done|]. split; [|apply NoDup_singleton].
    intros x Hx Hx'. apply list_elem_of_singleton in Hx' as ->. done.
Qed.

(** X15. [selectItem] with [multi] toggles the id in the selection of its
    kind and leaves every other id and the other selection alone, and it
    never makes an id occur twice; without [multi] the id becomes the only
    selected item of either kind. Elements and wires are not touched. *)
Theorem selectItem_spec (id : string) (multi isWire : bool)
    (st : CircuitState) :
  let st' := selectItem id multi isWire st in
  let own s := if isWire then selectedWireIds s else selectedElementIds s in
  let other s := if isWire then selectedElementIds s else selectedWireIds s in
  elements st' = elements st /\ wires st' = wires st /\
  (multi = true ->
     (forall x, x ∈ own st' <->
                if decide (x = id) then id ∉ own st else x ∈ own st) /\
     other st' = other st /\
     (NoDup (own st) -> NoDup (own st'))) /\
  (multi = false -> own st' = [id] /\ other st' = []).
Proof.
  unfold selectItem. destruct isWire, multi; simpl;
    (split; [done|]); (split; [done|]); (split; [|done]); try done;
    intros _; (split; [intros x; apply toggle_spec|]); (split; [done|]);
    apply toggle_NoDup.
Qed.

Lemma selectItem_spec_witness :
  NoDup (selectedElementIds
           (selectItem "v0" true false StoreExamples.editedState)).
Proof.
  apply (proj2 (proj2 (proj1 (proj2 (proj2
           (selectItem_spec "v0" true false StoreExamples.editedState)))
           eq_refl))).
  apply (bool_decide_unpack _). vm_compute. exact I.
Defined.


(** X16. Selecting a single element and deleting the selection removes
    exactly the elements with that id, and exactly the wires that have an
    end at one of their terminals; in particular wires that were selected
    before are kept. Selecting a single wire and deleting removes exactly
    the wires with that id and no element. *)
Theorem select_delete (id : string) (st : CircuitState) :
  (let st' := deleteSelection (selectItem id false false st) in
   elements st' = filter (fun e => e_id e <> id) (elements st) /\
   forall w, w ∈ wires st' <->
     w ∈ wires st /\
     forall e t, e ∈ elements st -> e_id e = id -> t ∈ e_terminals e ->
       default "" (startTerminalId w) <> t_id t /\
       default "" (endTerminalId w) <> t_id t) /\
  (let st' := deleteSelection (selectItem id false true st) in
   elements st' = elements st /\
   wires st' = filter (fun w => w_id w <> id) (wires st)).
Proof.
  split.
  - cbv zeta. simpl. split.
    + apply list_filter_iff. intros e. rewrite list_elem_of_singleton. done.
    + intros w. rewrite list_elem_of_filter, list_elem_of_filter.
      assert (Hdel : forall x,
        x ∈ terminalIdsToDelete (selectItem id false false st) <->
        exists e t, e ∈ elements st /\ e_id e = id /\ t ∈ e_terminals e /\
                    t_id t = x).
      { intros x. rewrite terminalIdsToDelete_spec. simpl.
        split; intros (e & t & He & Hs & Ht); exists e, t;
          (split; [done|]); (split; [|done]);
          by apply list_elem_of_singleton. }
      rewrite !Hdel. split.
      * intros [[H1 H2] [_ Hw]]. split; [done|]. intros e t He Hid Ht.
        split; intros E; [apply H1|apply H2]; by exists e, t.
      * intros [Hw Hall]. split; [|split; [apply not_elem_of_nil|done]].
        split; intros (e & t & He & Hid & Ht & E);
          destruct (Hall e t He Hid Ht) as [H1 H2]; done.
  - cbv zeta. simpl. split.
    + apply filter_all. intros e _. apply not_elem_of_nil.
    + unfold terminalIdsToDelete. simpl.
      rewrite (filter_none (fun e => e_id e ∈ []) (elements st)).
      2:{ intros e _. apply not_elem_of_nil. }
      simpl. rewrite filter_all.
      2:{ intros w _. split; apply not_elem_of_nil. }
      apply list_filter_iff. intros w. rewrite list_elem_of_singleton. done.
Qed.

(** ** Actions that change the drawing only *)

Lemma electrical_inv e e' :
  electrical e = electrical e' ->
  e_id e = e_id e' /\ e_type e = e_type e' /\ e_value e = e_value e' /\
  e_terminals e = e_terminals e'.
Proof. unfold electrical. intros H. by simplify_eq. Qed.

Lemma map_cons_inv {A B} (f : A -> B) a l b l' :
  map f (a :: l) = map f (b :: l') -> f a = f b /\ map f l = map f l'.
Proof. simpl. intros H. split; congruence. Qed.

Lemma forEach_electrical {S} (body : S -> CircuitElement -> option S) l :
  (forall e e' s, electrical e = electrical e' -> body s e = body s e') ->
  forall l' s, map electrical l = map electrical l' ->
  forEach body l s = forEach body l' s.
Proof.
  intros Hb. induction l as [|e l IH]; intros [|e' l'] s H; try done.
  apply map_cons_inv in H as [He Hl]. simpl. rewrite (Hb e e' s He).
  destruct (body s e'); simpl; [by apply IH|done].
Qed.

Lemma forEachIdx_electrical {S} (body : S -> Z -> CircuitElement -> option S) l :
  (forall e e' s i, electrical e = electrical e' -> body s i e = body s i e') ->
  forall l' idx s, map electrical l = map electrical l' ->
  forEachIdx body idx l s = forEachIdx body idx l' s.
Proof.
  intros Hb. induction l as [|e l IH]; intros [|e' l'] idx s H; try done.
  apply map_cons_inv in H as [He Hl]. simpl. rewrite (Hb e e' s idx He).
  destruct (body s idx e'); simpl; [by apply IH|done].
Qed.

Lemma vSources_electrical l : forall l',
  map electrical l = map electrical l' ->
  map electrical (vSources l) = map electrical (vSources l').
Proof.
  unfold vSources. induction l as [|e l IH]; intros [|e' l'] H; try done.
  apply map_cons_inv in H as [He Hl]. rewrite !filter_cons.
  assert (Hv : isVSource e = isVSource e').
  { unfold isVSource. by apply electrical_inv in He as (_ & -> & _). }
  rewrite Hv. destruct (decide (isVSource e' = true)); simpl;
    [f_equal; [done|]|]; by apply IH.
Qed.

Lemma terminalId_electrical e e' k :
  electrical e = electrical e' -> terminalId e k = terminalId e' k.
Proof.
  intros H. unfold terminalId. by apply electrical_inv in H as (_ & _ & _ & ->).
Qed.

Lemma stampElement_electrical nodes e e' Az :
  electrical e = electrical e' ->
  stampElement nodes Az e = stampElement nodes Az e'.
Proof.
  intros H. unfold stampElement.
  rewrite !(terminalId_electrical e e' _ H).
  by apply electrical_inv in H as (_ & -> & -> & _).
Qed.

Lemma stampVSource_electrical nodes n e e' Az idx :
  electrical e = electrical e' ->
  stampVSource nodes n Az idx e = stampVSource nodes n Az idx e'.
Proof.
  intros H. unfold stampVSource.
  rewrite !(terminalId_electrical e e' _ H).
  by apply electrical_inv in H as (_ & -> & -> & _).
Qed.

Lemma deriveVSource_electrical nodes n x nv e e' cp idx :
  electrical e = electrical e' ->
  deriveVSource nodes n x nv cp idx e = deriveVSource nodes n x nv cp idx e'.
Proof.
  intros H. unfold deriveVSource.
  rewrite !(terminalId_electrical e e' _ H).
  by apply electrical_inv in H as (-> & _).
Qed.

Lemma deriveElement_electrical nodes nv e e' cp :
  electrical e = electrical e' ->
  deriveElement nodes nv cp e = deriveElement nodes nv cp e'.
Proof.
  intros H. unfold deriveElement.
  rewrite !(terminalId_electrical e e' _ H).
  by apply electrical_inv in H as (-> & -> & -> & _).
Qed.

Lemma allTerminals_electrical l l' :
  map electrical l = map electrical l' -> allTerminals l = allTerminals l'.
Proof.
  intros H. unfold allTerminals. f_equal.
  apply (f_equal (map snd)) in H. by rewrite !map_map in H.
Qed.

Lemma assemble_electrical nodes l l' :
  map electrical l = map electrical l' -> assemble nodes l = assemble nodes l'.
Proof.
  intros H. pose proof (vSources_electrical _ _ H) as Hv.
  assert (Hlen : length (vSources l) = length (vSources l')).
  { apply (f_equal length) in Hv. by rewrite !length_map in Hv. }
  unfold assemble. rewrite Hlen.
  rewrite (forEach_electrical (stampElement nodes) l
             (fun a b s => stampElement_electrical nodes a b s) l' _ H).
  destruct (forEach _ _ _) as [Az|]; [simpl|done].
  destruct (addGmin _ _ _) as [A|]; [simpl|done].
  apply forEachIdx_electrical; [|done].
  intros a b s i. apply stampVSource_electrical.
Qed.

Lemma deriveResult_electrical nodes l l' x :
  map electrical l = map electrical l' ->
  deriveResult nodes l x = deriveResult nodes l' x.
Proof.
  intros H. pose proof (vSources_electrical _ _ H) as Hv.
  unfold deriveResult.
  destruct (extractVoltages _ _ _ _) as [nv|]; [simpl|done].
  rewrite (forEachIdx_electrical (deriveVSource nodes _ x nv) _
             (fun a b s i => deriveVSource_electrical nodes _ x nv a b s i)
             _ 0 _ Hv).
  destruct (forEachIdx _ _ _ _) as [cp|]; [simpl|done].
  by rewrite (forEach_electrical (deriveElement nodes nv) l
                (fun a b s => deriveElement_electrical nodes nv a b s) l' _ H).
Qed.

(** The engine reads nothing else of the elements. *)
Lemma engine_electrical lib l l' ws :
  map electrical l = map electrical l' ->
  extractNodes l ws = extractNodes l' ws /\
  solveCircuit lib l ws = solveCircuit lib l' ws.
Proof.
  intros H.
  assert (E : extractNodes l ws = extractNodes l' ws).
  { unfold extractNodes, extractNodesWith.
    by rewrite (allTerminals_electrical l l' H). }
  split; [done|]. unfold solveCircuit. rewrite E.
  assert (Hs : forall nodes, solveNodes lib nodes l = solveNodes lib nodes l').
  { intros nodes. unfold solveNodes.
    rewrite (assemble_electrical nodes l l' H).
    destruct (decide _); [done|].
    destruct (assemble nodes l') as [[A z]|]; [simpl|done].
    destruct (solveSystem lib A z) as [x|]; [|done].
    by apply deriveResult_electrical. }
  destruct l as [|e l], l' as [|e' l']; try done.
  destruct (extractNodes (e' :: l') ws) as [nodes|]; [|done].
  apply Hs.
Qed.

Lemma updateElement_electrical id f st :
  (forall e, electrical (f e) = electrical e) ->
  map electrical (elements (updateElement id f st))
  = map electrical (elements st).
Proof.
  intros Hf. unfold updateElement. simpl. rewrite map_map.
  apply map_ext. intros e. by destruct (decide (e_id e = id)).
Qed.

Lemma updateElement_terminals id f st :
  (forall e, e_terminals (f e) = e_terminals e) ->
  allTerminals (elements (updateElement id f st)) = allTerminals (elements st).
Proof.
  intros Hf. unfold updateElement, allTerminals. simpl. rewrite map_map.
  f_equal. apply map_ext. intros e. by destruct (decide (e_id e = id)).
Qed.

(** X17. Moving or rotating an element changes neither the nodes found by
    [extractNodes] nor the result of [solveCircuit], whatever the wires and
    the solver library; changing the value of an element leaves the nodes
    unchanged. *)
Theorem drawing_actions (rem : float -> float -> float) (id : string)
    (dx dy v : float) (st : CircuitState) (ws : list Wire) (lib : MathLib) :
  extractNodes (elements (moveElement id dx dy st)) ws
    = extractNodes (elements st) ws /\
  solveCircuit lib (elements (moveElement id dx dy st)) ws
    = solveCircuit lib (elements st) ws /\
  extractNodes (elements (rotateElement rem id st)) ws
    = extractNodes (elements st) ws /\
  solveCircuit lib (elements (rotateElement rem id st)) ws
    = solveCircuit lib (elements st) ws /\
  extractNodes (elements (updateElementValue id v st)) ws
    = extractNodes (elements st) ws.
Proof.
  assert (Hm : map electrical (elements (moveElement id dx dy st))
               = map electrical (elements st))
    by (by apply updateElement_electrical).
  assert (Hr : map electrical (elements (rotateElement rem id st))
               = map electrical (elements st))
    by (by apply updateElement_electrical).
  destruct (engine_electrical lib _ _ ws Hm) as [E1 E2].
  destruct (engine_electrical lib _ _ ws Hr) as [E3 E4].
  repeat (split; [done|]).
  unfold extractNodes, extractNodesWith, updateElementValue.
  by rewrite updateElement_terminals.
Qed.

(** ** What the editor keeps true of the elements *)

Lemma terminalIds_app l1 l2 :
  terminalIds (l1 ++ l2) = terminalIds l1 ++ terminalIds l2.
Proof.
  unfold terminalIds, allTerminals. by rewrite map_app, concat_app, map_app.
Qed.

Lemma terminalIds_cons e l :
  terminalIds (e :: l) = map t_id (e_terminals e) ++ terminalIds l.
Proof. unfold terminalIds, allTerminals. simpl. by rewrite map_app. Qed.

Lemma consistent_nil : consistent [].
Proof. split; [apply NoDup_nil_2|split; constructor]. Qed.

Lemma consistent_update id f els :
  (forall e, e_id (f e) = e_id e /\ e_type (f e) = e_type e /\
             e_terminals (f e) = e_terminals e) ->
  consistent els ->
  consistent (map (fun e => if decide (e_id e = id) then f e else e) els).
Proof.
  intros Hf (Hnd & Hwf & Hsh).
  set (g := fun e => if decide (e_id e = id) then f e else e).
  assert (Hg : forall e, e_id (g e) = e_id e /\ e_type (g e) = e_type e /\
                         e_terminals (g e) = e_terminals e).
  { intros e. unfold g. destruct (decide (e_id e = id)); [apply Hf|done]. }
  split; [|split].
  - replace (map e_id (map g els)) with (map e_id els).
    2:{ rewrite map_map. apply map_ext. intros e. by destruct (Hg e) as (-> & _). }
    replace (terminalIds (map g els)) with (terminalIds els); [done|].
    unfold terminalIds, allTerminals. rewrite map_map. do 2 f_equal.
    apply map_ext. intros e. by destruct (Hg e) as (_ & _ & ->).
  - apply Forall_fmap. eapply Forall_impl; [exact Hwf|]. intros e He.
    unfold wellFormed, compose in *. destruct (Hg e) as (_ & -> & ->). done.
  - apply Forall_fmap. eapply Forall_impl; [exact Hsh|]. intros e He.
    unfold shaped, compose in *. destruct (Hg e) as (-> & -> & ->). done.
Qed.

Lemma terminalIds_filter_sublist (P : CircuitElement -> Prop)
    `{!forall e, Decision (P e)} els :
  terminalIds (filter P els) `sublist_of` terminalIds els.
Proof.
  induction els as [|e els IH]; [done|].
  rewrite filter_cons, terminalIds_cons. destruct (decide (P e)).
  - rewrite terminalIds_cons. by apply sublist_app.
  - by apply sublist_inserts_l.
Qed.

Lemma consistent_filter (P : CircuitElement -> Prop)
    `{!forall e, Decision (P e)} els :
  consistent els -> consistent (filter P els).
Proof.
  intros (Hnd & Hwf & Hsh). split; [|split].
  - apply (sublist_NoDup _ (map e_id els ++ terminalIds els)); [done|].
    apply sublist_app; [|apply terminalIds_filter_sublist].
    apply fmap_sublist, sublist_filter.
  - apply Forall_forall. intros e He. apply list_elem_of_filter in He as [_ He].
    by apply (proj1 (Forall_forall _ _) Hwf).
  - apply Forall_forall. intros e He. apply list_elem_of_filter in He as [_ He].
    by apply (proj1 (Forall_forall _ _) Hsh).
Qed.

Lemma consistent_add uuidv4 type x y st :
  fresh uuidv4 type st -> consistent (elements st) ->
  consistent (elements (addElement uuidv4 type x y st)).
Proof.
  intros [Hnd Hfresh] (Hok & Hwf & Hsh). simpl.
  set (new := mkElement _ _ _ _ _ _ _ _).
  assert (Hids : e_id new :: map t_id (e_terminals new)
                 = map uuidv4 (seq 0 (draws type))).
  { unfold new. simpl. by destruct type. }
  split; [|split].
  - rewrite map_app, terminalIds_app. simpl.
    rewrite terminalIds_cons. simpl. rewrite app_nil_r.
    apply (NoDup_Permutation_proper _
             ((map e_id (elements st) ++ terminalIds (elements st))
              ++ e_id new :: map t_id (e_terminals new))).
    { rewrite <- !app_assoc. apply Permutation_app_head. simpl.
      rewrite <- Permutation_middle. done. }
    rewrite Hids. apply NoDup_app. split; [done|]. split; [|done].
    intros u Hu Hu'. apply list_elem_of_fmap in Hu' as (k & -> & Hk).
    apply elem_of_seq in Hk. apply (Hfresh k); [lia|done].
  - apply Forall_app. split; [done|]. constructor; [|constructor].
    unfold wellFormed, new. simpl. destruct type; simpl; lia.
  - apply Forall_app. split; [done|]. constructor; [|constructor].
    unfold shaped, new. simpl. destruct type; simpl; split; try done;
      repeat constructor.
Qed.

(** Every action keeps the elements consistent. *)
Lemma action_consistent rem st st' :
  action rem st st' -> consistent (elements st) -> consistent (elements st').
Proof.
  intros Hact H. destruct Hact; try done.
  - by apply consistent_add.
  - by apply consistent_update.
  - by apply consistent_update.
  - by apply consistent_update.
  - by apply consistent_filter.
  - unfold finishWire. destruct (drawingWire st); [|done].
    by destruct (decide _).
  - unfold selectItem. by destruct isWire, multi.
Qed.

(** X18. In every state reached from the initial one by the actions of the
    editor (with new, distinct values drawn from [uuidv4] when an element is
    added), the ids of the elements and of their terminals are all
    distinct, every element has two terminals named A and B, or four named
    A to D for a VCVS, each carrying the id of its element; so every element
    has the terminals that the solver reads, and the assembly of the system
    for the elements of the state never throws, whatever the wires. *)
Theorem editor_consistent (rem : float -> float -> float)
    (st : CircuitState) :
  reachable rem st ->
  NoDup (map e_id (elements st)) /\ NoDup (terminalIds (elements st)) /\
  Forall shaped (elements st) /\ Forall wellFormed (elements st) /\
  forall ws nodes,
    extractNodes (elements st) ws = Some nodes ->
    Z.of_nat (length nodes) - 1 > 0 ->
    is_Some (assemble nodes (elements st)).
Proof.
  intros Hr.
  assert (H : consistent (elements st)).
  { apply (rtc_ind_r (R := action rem) (fun s => consistent (elements s))
             initialState consistent_nil); [|exact Hr].
    intros y z _ Hact Hy. by eapply action_consistent. }
  destruct H as (Hnd & Hwf & Hsh). apply NoDup_app in Hnd as (H1 & _ & H2).
  do 4 (split; [done|]). intros ws nodes Hn Hpos.
  by apply (assemble_returns (elements st) ws nodes).
Qed.

Lemma editor_consistent_witness :
  NoDup (map e_id (elements StoreExamples.editedState)) /\
  Forall wellFormed (elements StoreExamples.editedState).
Proof.
  assert (Hfresh : forall prefix st,
    bool_decide (NoDup (map (StoreExamples.uuids prefix) (seq 0 3))) = true ->
    bool_decide (Forall (fun k => StoreExamples.uuids prefix k ∉ usedIds st)
                   (seq 0 3)) = true ->
    fresh (StoreExamples.uuids prefix) Resistor st /\
    fresh (StoreExamples.uuids prefix) VoltageSource st).
  { intros prefix st H1 H2. apply bool_decide_eq_true in H1, H2.
    split; (split; [exact H1|]); intros k Hk;
      apply (proj1 (Forall_forall _ _) H2), elem_of_seq; simpl in *; lia. }
  destruct (editor_consistent (fun a _ => a) StoreExamples.editedState)
    as (H1 & _ & _ & H4 & _); [|split; [exact H1|exact H4]].
  unfold reachable, StoreExamples.editedState, StoreExamples.threeElements.
  eapply rtc_r; [|apply edit_select].
  eapply rtc_r; [|apply edit_finish].
  eapply rtc_r; [|apply edit_start].
  eapply rtc_r; [|apply edit_finish].
  eapply rtc_r; [|apply edit_start].
  eapply rtc_r; [|apply edit_add, Hfresh; vm_compute; reflexivity].
  eapply rtc_r; [|apply edit_add, Hfresh; vm_compute; reflexivity].
  eapply rtc_r; [|apply edit_add, Hfresh; vm_compute; reflexivity].
  apply rtc_refl.
Defined.


(** ** Round trips and the effect of a new wire *)

(** Two terminals of the elements whose ids are connected lie in a common
    node. *)
Lemma share_node els ws nodes t1 t2 :
  extractNodes els ws = Some nodes ->
  t1 ∈ allTerminals els -> t2 ∈ allTerminals els ->
  connected ws (t_id t1) (t_id t2) ->
  exists n, n ∈ nodes /\ t1 ∈ n_terminals n /\ t2 ∈ n_terminals n.
Proof.
  intros E H1 H2 Hc.
  destruct (extractNodesWith_groups sortNodes (S (length ws)) els ws
              sortNodes_stable (extractNodes_fuel ws))
    as (nodes' & m & g & E' & Hb & Hsame & [Hnd Hok] & Hts & _ & _ & Hp).
  assert (nodes' = nodes) as -> by (unfold extractNodes in E; congruence).
  assert (Hrep : forall i k l t, g !! i = Some (k, l) -> t ∈ l -> rep m (t_id t) k).
  { intros i k l t Hi Ht.
    destruct (Forall_lookup_1 _ _ _ _ Hok Hi) as [_ H]. by apply H. }
  destruct (proj2 (Hsame _ _) Hc) as (r & Hr1 & Hr2).
  destruct (terminal_group _ _ _ Hp H1) as (i1 & k1 & l1 & Hg1 & Hl1).
  destruct (terminal_group _ _ _ Hp H2) as (i2 & k2 & l2 & Hg2 & Hl2).
  assert (k1 = r) as -> by (eapply rep_fun; eauto).
  assert (k2 = r) as -> by (eapply rep_fun; eauto).
  assert (i1 = i2) as -> by (eapply group_key_unique; eauto).
  assert (l1 = l2) as -> by congruence.
  destruct (group_node _ _ _ _ _ Hts Hg2) as (n & Hn & <-).
  exists n. split; [by eapply list_elem_of_lookup_2|done].
Qed.

(** X19. Adding an element and deleting it again restores the elements and
    the wires: when the id drawn for the new element is not in use and no
    wire has an end (a missing end read as the empty string) among the ids
    drawn for its terminals, selecting the new element and deleting the
    selection gives back the elements and wires of the state before. *)
Theorem add_delete (uuidv4 : nat -> string) (type : ElementType)
    (x y : float) (st : CircuitState) :
  uuidv4 0%nat ∉ map e_id (elements st) ->
  (forall w k, w ∈ wires st ->
     default "" (startTerminalId w) <> uuidv4 (S k) /\
     default "" (endTerminalId w) <> uuidv4 (S k)) ->
  let st' :=
    deleteSelection
      (selectItem (uuidv4 0%nat) false false (addElement uuidv4 type x y st)) in
  elements st' = elements st /\ wires st' = wires st.
Proof.
  intros Hid Hw st'. split.
  - unfold st'. simpl. rewrite filter_app.
    rewrite (filter_all _ (elements st)).
    2:{ intros e He' Hin. apply list_elem_of_singleton in Hin. apply Hid.
        rewrite <- Hin. by apply list_elem_of_fmap_2. }
    rewrite filter_cons_False.
    2:{ simpl. intros Hn. apply Hn. by apply list_elem_of_singleton. }
    by rewrite app_nil_r.
  - unfold st'. simpl.
    rewrite (filter_all (fun w => w_id w ∉ []) (wires st))
      by (intros w _; apply not_elem_of_nil).
    apply filter_all. intros w Hin.
    assert (Hdel : forall s,
      s ∈ terminalIdsToDelete
            (selectItem (uuidv4 0%nat) false false
               (addElement uuidv4 type x y st)) ->
      exists k, s = uuidv4 (S k)).
    { intros s Hs. apply terminalIdsToDelete_spec in Hs
        as (e & t & He' & Hsel & Ht & <-). simpl in He', Hsel.
      apply list_elem_of_singleton in Hsel.
      apply elem_of_app in He' as [He'|He'].
      - destruct Hid. rewrite <- Hsel. by apply list_elem_of_fmap_2.
      - apply list_elem_of_singleton in He' as ->. simpl in Ht.
        destruct type; simpl in Ht;
          repeat (apply elem_of_cons in Ht as [->|Ht]; [by eexists|]);
          by apply elem_of_nil in Ht. }
    split; intros Hs; apply Hdel in Hs as [k Hk];
      destruct (Hw w k Hin) as [H1 H2]; done.
Qed.

Lemma add_delete_witness :
  elements
    (deleteSelection
       (selectItem "x0" false false
          (addElement (StoreExamples.uuids "x") VCVS 0 0
             StoreExamples.editedState)))
  = elements StoreExamples.editedState.
Proof.
  refine (proj1 (add_delete (StoreExamples.uuids "x") VCVS 0 0
                   StoreExamples.editedState _ _)).
  - apply (bool_decide_unpack _). vm_compute. exact I.
  - intros w k Hw. vm_compute in Hw.
    repeat (apply elem_of_cons in Hw as [->|Hw]); [..|by apply elem_of_nil in Hw];
      split; simpl; unfold StoreExamples.uuids; intros E; by simplify_eq.
Defined.

(** X20. Drawing a wire from one terminal to another puts the two in one
    node: after [startWire] at a terminal and [finishWire] at another, both
    with non-empty ids, [extractNodes] on the new state returns a node that
    holds both terminals. *)
Theorem draw_wire_joins (uuid : string) (x y : float) (st : CircuitState)
    (ta tb : Terminal) nodes :
  ta ∈ allTerminals (elements st) -> tb ∈ allTerminals (elements st) ->
  t_id ta <> "" -> t_id tb <> "" ->
  let st' :=
    finishWire (Some (t_id tb)) (startWire uuid x y (Some (t_id ta)) st) in
  extractNodes (elements st') (wires st') = Some nodes ->
  exists n, n ∈ nodes /\ ta ∈ n_terminals n /\ tb ∈ n_terminals n.
Proof.
  intros Ha Hb Hna Hnb st' E.
  assert (Hel : elements st' = elements st).
  { unfold st', finishWire. simpl. by destruct (decide _). }
  rewrite Hel in E. apply (share_node _ _ _ _ _ E Ha Hb).
  unfold st', finishWire. simpl.
  destruct (decide (Some (t_id ta) <> Some (t_id tb))) as [Hne|Heq]; simpl.
  - apply rtsc_lr.
    exists (mkWire uuid [(x, y); (x, y)] (Some (t_id ta)) (Some (t_id tb))).
    split; [apply elem_of_app; right; by apply list_elem_of_singleton|].
    split; [|done]. unfold bound, truthy. simpl.
    apply andb_true_iff. split; apply negb_true_iff, String.eqb_neq; done.
  - apply dec_stable in Heq. injection Heq as ->. apply rtc_refl.
Qed.

Lemma draw_wire_joins_witness :
  exists nodes n,
    extractNodes (elements StoreExamples.editedState)
      (wires StoreExamples.editedState) = Some nodes /\
    n ∈ nodes /\
    mkTerminal "v2" "v0" NameB 0 40 ∈ n_terminals n /\
    mkTerminal "s1" "s0" NameA 0 (-40) ∈ n_terminals n.
Proof.
  destruct (extractNodes (elements StoreExamples.editedState)
              (wires StoreExamples.editedState)) as [nodes|] eqn:E;
    [|vm_compute in E; discriminate].
  destruct (draw_wire_joins "w1" 0 0
              (finishWire (Some "v1")
                 (startWire "w0" 0 0 (Some "r1") StoreExamples.threeElements))
              (mkTerminal "v2" "v0" NameB 0 40)
              (mkTerminal "s1" "s0" NameA 0 (-40)) nodes)
    as (n & Hn & Ha & Hb).
  - apply (list_elem_of_lookup_2 _ 1%nat). vm_compute. reflexivity.
  - apply (list_elem_of_lookup_2 _ 4%nat). vm_compute. reflexivity.
  - discriminate.
  - discriminate.
  - exact E.
  - exists nodes, n. done.
Defined.

End StoreFacts.

(** * Properties of the short-circuit highlighting *)

Module CanvasFacts.
Import Graph GraphSpec Solver SolverSpec ExtraSpec Canvas GraphFacts SolverFacts
  GraphExtras.

Lemma wired_filter ws x y :
  wired (filter (fun w => bound w = true) ws) x y <-> wired ws x y.
Proof.
  unfold wired. split; intros (w & Hin & Hb & H); exists w; (split; [|done]).
  - by apply list_elem_of_filter in Hin as [_ Hin].
  - by apply list_elem_of_filter.
Qed.

(** Leaving out the wires with a missing end makes no difference to the
    solver. *)
Lemma solverResult_all lib els ws :
  solverResult lib els ws = solveCircuit lib els ws.
Proof.
  unfold solverResult, solveCircuit.
  rewrite (extractNodes_connected_ext els
             (filter (fun w => bound w = true) ws) ws); [done|].
  intros x y. split; apply connected_sub; intros u v Huv; apply rtsc_lr;
    by apply wired_filter.
Qed.

Lemma some_empty `{Countable K} p : some p (∅ : gmap K float) = false.
Proof. unfold some. by rewrite map_to_list_empty. Qed.

(** X21. The solver result of the canvas, computed on the wires that have
    both ends bound, is the result of [solveCircuit] on all the wires. When
    solving the assembled system throws, that result is the empty one; and
    for the empty result [isShortCircuit] is false and no wire and no
    element is marked. *)
Theorem unsolved_not_flagged lib (elements : list CircuitElement)
    (wires : list Wire) :
  solverResult lib elements wires = solveCircuit lib elements wires /\
  (forall nodes A z,
     extractNodes elements wires = Some nodes ->
     assemble nodes elements = Some (A, z) ->
     solveSystem lib A z = None ->
     solverResult lib elements wires = Some emptyResult) /\
  isShortCircuit emptyResult = false /\
  shortedWireIds elements wires emptyResult = ∅ /\
  shortedElementIds elements emptyResult = ∅.
Proof.
  assert (Hflag : isShortCircuit emptyResult = false).
  { unfold isShortCircuit. simpl. by rewrite !some_empty. }
  split; [apply solverResult_all|]. split; [|split; [done|]].
  - intros nodes A z Hn HA Hx.
    rewrite solverResult_all. unfold solveCircuit.
    destruct elements as [|e els]; [done|]. rewrite Hn. simpl.
    unfold solveNodes. destruct (decide _); [done|]. rewrite HA. simpl.
    by rewrite Hx.
  - unfold shortedWireIds, shortedElementIds. by rewrite Hflag.
Qed.

(** Two sources of 5 V and 3 V across one pair of nodes make the solve
    throw, and nothing is marked; with a zero-valued resistor across the
    same pair the solve does not throw, the result is flagged and all three
    elements are marked. *)
Lemma unsolved_not_flagged_witness :
  (solverResult MathJS.lib (Examples.parallelSources 5 3) Examples.parallelWires
     = Some emptyResult /\
   shortedElementIds (Examples.parallelSources 5 3) emptyResult = ∅) /\
  (exists r,
     solverResult MathJS.lib (Examples.bridgedSources 5 3) Examples.bridgedWires
       = Some r /\
     isShortCircuit r = true /\
     forall x, x ∈ shortedElementIds (Examples.bridgedSources 5 3) r <->
               x ∈ ["V1"; "V2"; "R1"]).
Proof.
  split.
  - destruct (unsolved_not_flagged MathJS.lib (Examples.parallelSources 5 3)
                Examples.parallelWires) as (_ & H1 & _ & _ & H4).
    split; [|exact H4].
    apply (H1 [mkNode 0 [Examples.term "a"; Examples.term "c"];
               mkNode 1 [Examples.term "b"; Examples.term "d"]]
              [[GMIN; (-1)%float; (-1)%float]; [(-1)%float; 0%float; 0%float];
               [(-1)%float; 0%float; 0%float]]
              [[0%float]; [5%float]; [3%float]]).
    + vm_compute. reflexivity.
    + vm_compute. reflexivity.
    + vm_compute. reflexivity.
  - destruct (solverResult MathJS.lib (Examples.bridgedSources 5 3)
                Examples.bridgedWires) as [r|] eqn:E;
      [|vm_compute in E; discriminate].
    exists r. split; [reflexivity|].
    assert (Hflag : isShortCircuit r = true).
    { vm_compute in E. injection E as <-. vm_compute. reflexivity. }
    split; [exact Hflag|]. intros x.
    unfold shortedElementIds. rewrite Hflag. cbn [negb].
    by rewrite elem_of_list_to_set.
Defined.

Lemma foldl_mark (P : Wire -> bool) ws : forall (acc : gset string) x,
  x ∈ foldl (fun (shorts : gset string) w =>
               if P w then shorts ∪ {[ w_id w ]} else shorts) acc ws <->
  x ∈ acc \/ exists w, w ∈ ws /\ P w = true /\ w_id w = x.
Proof.
  induction ws as [|w ws IH]; intros acc x; simpl.
  - split; [by left|]. intros [H|(w & Hw & _)]; [done|].
    by apply elem_of_nil in Hw.
  - rewrite IH. split.
    + intros [H|(w' & Hw' & HP & Hid)].
      * destruct (P w) eqn:HP; [|by left].
        apply elem_of_union in H as [H|H]; [by left|].
        apply elem_of_singleton in H as ->. right. exists w.
        split; [apply elem_of_cons; by left|done].
      * right. exists w'. split; [apply elem_of_cons; by right|done].
    + intros [H|(w' & Hw' & HP & Hid)].
      * left. destruct (P w); [|done]. apply elem_of_union. by left.
      * apply elem_of_cons in Hw' as [->|Hw'].
        -- left. rewrite HP. apply elem_of_union. right.
           by apply elem_of_singleton.
        -- right. by exists w'.
Qed.

Lemma foldl_all ws : forall (acc : gset string) x,
  x ∈ foldl (fun (shorts : gset string) w => shorts ∪ {[ w_id w ]}) acc ws <->
  x ∈ acc \/ x ∈ map w_id ws.
Proof.
  induction ws as [|w ws IH]; intros acc x; simpl.
  - split; [by left|]. intros [H|H]; [done|by apply elem_of_nil in H].
  - rewrite IH, elem_of_union, elem_of_singleton, elem_of_cons. tauto.
Qed.

Lemma touches_spec ids o :
  touches ids o = true <-> exists s, o = Some s /\ s <> "" /\ s ∈ ids.
Proof.
  unfold touches, truthy. destruct o as [s|]; simpl.
  - rewrite andb_true_iff, negb_true_iff, String.eqb_neq, bool_decide_eq_true.
    split; [intros [? ?]; by exists s|]. intros (s' & [= <-] & ? & ?). done.
  - split; [done|]. by intros (s & ? & _).
Qed.

Lemma ids_spec (elements : list CircuitElement) s :
  s ∈ (list_to_set
         (flat_map (fun e => map t_id (e_terminals e))
            (filter (fun e => e_type e = VoltageSource) elements))
       : gset string) <->
  exists e t, e ∈ elements /\ e_type e = VoltageSource /\ t ∈ e_terminals e /\
              t_id t = s.
Proof.
  rewrite elem_of_list_to_set, list_elem_of_In, in_flat_map. split.
  - intros (e & He & Hid).
    apply list_elem_of_In, list_elem_of_filter in He as [Hs He].
    apply list_elem_of_In, list_elem_of_fmap in Hid as (t & -> & Ht).
    by exists e, t.
  - intros (e & t & He & Hs & Ht & <-). exists e. split.
    + apply list_elem_of_In, list_elem_of_filter. done.
    + apply list_elem_of_In, list_elem_of_fmap. by exists t.
Qed.

(** X22. What the canvas marks. Only ids of wires in the store are marked.
    When the result is flagged and some node voltage is NaN, every wire is
    marked; when it is flagged and no node voltage is NaN (an infinite
    voltage, or a current that is NaN, infinite or above 9999 in
    magnitude), the marked wires are exactly those with a non-empty end
    at a terminal of an independent voltage source. Elements are marked all
    or none. *)
Theorem shortedWireIds_spec (elements : list CircuitElement)
    (wires : list Wire) (r : SolverResult) (x : string) :
  (x ∈ shortedWireIds elements wires r -> x ∈ map w_id wires) /\
  (isShortCircuit r = true -> some isNaN (nodeVoltages r) = true ->
   (x ∈ shortedWireIds elements wires r <-> x ∈ map w_id wires)) /\
  (isShortCircuit r = true -> some isNaN (nodeVoltages r) = false ->
   (x ∈ shortedWireIds elements wires r <->
    exists w e t, w ∈ wires /\ w_id w = x /\
      e ∈ elements /\ e_type e = VoltageSource /\ t ∈ e_terminals e /\
      t_id t <> "" /\
      (startTerminalId w = Some (t_id t) \/ endTerminalId w = Some (t_id t)))) /\
  (x ∈ shortedElementIds elements r <->
   isShortCircuit r = true /\ x ∈ map e_id elements).
Proof.
  set (ids := list_to_set
        (flat_map (fun e => map t_id (e_terminals e))
           (filter (fun e => e_type e = VoltageSource) elements)) : gset string).
  assert (Hshorts : forall y,
    y ∈ foldl (fun (shorts : gset string) w =>
                 if touches ids (startTerminalId w)
                    || touches ids (endTerminalId w)
                 then shorts ∪ {[ w_id w ]} else shorts) ∅ wires <->
    exists w e t, w ∈ wires /\ w_id w = y /\
      e ∈ elements /\ e_type e = VoltageSource /\ t ∈ e_terminals e /\
      t_id t <> "" /\
      (startTerminalId w = Some (t_id t) \/ endTerminalId w = Some (t_id t))).
  { intros y.
    rewrite (foldl_mark (fun w => touches ids (startTerminalId w)
                                  || touches ids (endTerminalId w))).
    split.
    - intros [H|(w & Hw & HP & Hid)]; [by apply elem_of_empty in H|].
      assert (Hend : exists o, touches ids o = true /\
                (o = startTerminalId w \/ o = endTerminalId w)).
      { apply orb_true_iff in HP as [HP|HP]; eexists; (split; [exact HP|]);
          [by left|by right]. }
      destruct Hend as (o & Ho & Hend).
      apply touches_spec in Ho as (s & -> & Hne & Hs).
      apply ids_spec in Hs as (e & t & He & Hty & Ht & <-).
      exists w, e, t. repeat (split; [done|]).
      destruct Hend as [->| ->]; [by left|by right].
    - intros (w & e & t & Hw & Hid & He & Hty & Ht & Hne & Hend). right.
      exists w. split; [done|]. split; [|done].
      assert (Ho : touches ids (Some (t_id t)) = true).
      { apply touches_spec. exists (t_id t). split; [done|]. split; [done|].
        apply ids_spec. by exists e, t. }
      apply orb_true_iff. destruct Hend as [-> | ->]; [by left|by right]. }
  split; [|split; [|split]].
  - unfold shortedWireIds. fold ids. destruct (isShortCircuit r); simpl;
      [|intros H; by apply elem_of_empty in H].
    destruct (some isNaN (nodeVoltages r)).
    + rewrite foldl_all. intros [H|H]; [|done].
      apply Hshorts in H as (w & _ & _ & Hw & <- & _).
      by apply list_elem_of_fmap_2.
    + intros H. apply Hshorts in H as (w & _ & _ & Hw & <- & _).
      by apply list_elem_of_fmap_2.
  - intros Hf Hnan. unfold shortedWireIds. fold ids. rewrite Hf, Hnan. simpl.
    rewrite foldl_all. split; [|by right]. intros [H|H]; [|done].
    apply Hshorts in H as (w & _ & _ & Hw & <- & _).
    by apply list_elem_of_fmap_2.
  - intros Hf Hnan. unfold shortedWireIds. fold ids. rewrite Hf, Hnan. simpl.
    apply Hshorts.
  - unfold shortedElementIds. destruct (isShortCircuit r); simpl.
    + rewrite elem_of_list_to_set. split; [done|by intros [_ ?]].
    + split; [intros H; by apply elem_of_empty in H|by intros [? _]].
Qed.


Lemma shortedWireIds_spec_witness :
  "w" ∈ shortedWireIds Examples.loopElements Examples.loopWires
          (mkResult {[ 1 := nan ]} ∅ ∅).
Proof.
  apply (proj1 (proj2 (shortedWireIds_spec Examples.loopElements
                         Examples.loopWires (mkResult {[ 1 := nan ]} ∅ ∅) "w"))).
  - vm_compute. reflexivity.
  - vm_compute. reflexivity.
  - apply (bool_decide_unpack _). vm_compute. exact I.
Defined.

End CanvasFacts.

(** * Properties of the derivation *)

Module ExplanationFacts.
Import Graph Solver Explanation.

Section Structure.
Variable toFixed4 : float -> string.
Variable numberToString : float -> string.
Variable elements : list CircuitElement.
Variable nodes : list ElectricalNode.
Variable nodeVoltages : gmap Z float.

(** The loops over the sources and over the remaining nodes, in closed
    form: the numbers and titles of the steps pushed, and the keys of the
    map of forced nodes. *)
Lemma explainSource_fold l : forall forced steps forced' steps',
  foldl (explainSource toFixed4 numberToString nodes nodeVoltages)
    (forced, steps) l = (forced', steps') ->
  map num steps' = map num steps ++ seq (S (length steps)) (length l) /\
  map title steps' =
    map title steps ++
    map (fun vs => e_label vs +:+ " forces "
                   +:+ nodeLabel (nodeIdOr0 nodes (terminalId vs 1))) l /\
  forall k, is_Some (forced' !! k) <->
            is_Some (forced !! k) \/
            k ∈ map (fun vs => nodeIdOr0 nodes (terminalId vs 1)) l.
Proof.
  induction l as [|vs l IH]; intros forced steps forced' steps' H; simpl in H.
  - injection H as <- <-. simpl. rewrite !app_nil_r. split; [done|].
    split; [done|]. intros k. split; [by left|].
    intros [?|Hk]; [done|by apply elem_of_nil in Hk].
  - destruct (IH _ _ _ _ H) as (Hnum & Htitle & Hforced).
    rewrite Hnum, Htitle. rewrite !map_app, !length_app. simpl.
    rewrite <- !app_assoc. simpl.
    replace (length steps + 1)%nat with (S (length steps)) by lia.
    split; [done|]. split; [done|]. intros k. rewrite Hforced, elem_of_cons.
    set (idPlus := nodeIdOr0 nodes (terminalId vs 1)).
    destruct (decide (is_Some (forced !! idPlus))) as [Hs|Hs].
    + split; [tauto|]. intros [?|[->|?]]; tauto.
    + destruct (decide (k = idPlus)) as [->|Hk].
      * rewrite lookup_insert_eq. split; [tauto|]. intros _. left. by eexists.
      * rewrite lookup_insert_ne by done. tauto.
Qed.

Lemma explainNode_fold l : forall steps,
  let steps' :=
    foldl (explainNode toFixed4 numberToString elements nodes nodeVoltages)
      steps l in
  map num steps' = map num steps ++ seq (S (length steps)) (length l) /\
  map title steps' =
    map title steps ++
    map (fun n => nodeLabel (n_id n) +:+ " solved by KCL") l.
Proof.
  induction l as [|n l IH]; intros steps; simpl.
  - by rewrite !app_nil_r.
  - destruct (IH (explainNode toFixed4 numberToString elements nodes
                    nodeVoltages steps n)) as [Hnum Htitle].
    rewrite Hnum, Htitle. unfold explainNode.
    match goal with
    | |- context [foldl (explainBranch ?a ?b ?c ?d ?e ?f) ?x ?y] =>
      destruct (foldl (explainBranch a b c d e f) x y) as [ls parts]
    end.
    rewrite !map_app, !length_app. simpl. rewrite <- !app_assoc. simpl.
    by replace (length steps + 1)%nat with (S (length steps)) by lia.
Qed.

(** X23. The explanation is a list of steps numbered 1, 2, 3, ... in order:
    the ground step, one step for every independent voltage source in the
    order of the elements, naming the node of its [terminals[1]] as the
    node it forces, one step for every node, in the order of the node list,
    that is neither ground nor the [terminals[1]] node of a voltage source,
    and the summary, which has one line for every node. Controlled sources
    and current sources get no step. *)
Theorem explanation_structure (elementCurrents : gmap string float) :
  let steps :=
    buildCircuitExplanation toFixed4 numberToString elements nodes
      nodeVoltages elementCurrents in
  let sources := filter (fun e => e_type e = VoltageSource) elements in
  let plus := fun vs => nodeIdOr0 nodes (terminalId vs 1) in
  let solved :=
    filter (fun n => n_id n <> 0 /\ n_id n ∉ map plus sources) nodes in
  map num steps = seq 1 (length steps) /\
  map title steps =
    "Ground Reference (GND)"
    :: map (fun vs => e_label vs +:+ " forces " +:+ nodeLabel (plus vs)) sources
    ++ map (fun n => nodeLabel (n_id n) +:+ " solved by KCL") solved
    ++ ["Node Voltage Summary"] /\
  exists summary, last steps = Some summary /\
    length (lines summary) = length nodes.
Proof.
  intros steps sources plus solved. unfold steps, buildCircuitExplanation.
  fold sources.
  destruct (foldl _ _ sources) as [forced steps1] eqn:E1.
  destruct (explainSource_fold _ _ _ _ _ E1) as (Hnum1 & Htitle1 & Hforced).
  set (kcl := filter _ nodes).
  assert (Hkcl : kcl = solved).
  { apply list_filter_iff. intros n. rewrite Hforced.
    rewrite lookup_singleton_is_Some. fold plus. split.
    - intros [H0 Hn]. split; [done|]. intros Hin. apply Hn. by right.
    - intros [H0 Hn]. split; [done|]. intros [E|Hin]; [by symmetry in E|done]. }
  pose proof (explainNode_fold kcl steps1) as [Hnum2 Htitle2].
  cbv zeta in Hnum2, Htitle2.
  set (steps2 := foldl _ steps1 kcl) in *.
  assert (Hlen1 : length steps1 = S (length sources)).
  { apply (f_equal length) in Hnum1.
    rewrite length_app, !length_map, length_seq in Hnum1. simpl in Hnum1. lia. }
  assert (Hlen2 : length steps2 = (S (length sources) + length kcl)%nat).
  { apply (f_equal length) in Hnum2.
    rewrite length_app, !length_map, length_seq in Hnum2. lia. }
  split; [|split].
  - rewrite map_app, Hnum2, Hnum1, !length_app. simpl.
    rewrite Hlen1, Hlen2.
    replace (S (length sources) + length kcl + 1)%nat
      with (S (length sources + length kcl + 1)) by lia.
    replace (S (length sources + length kcl + 1))
      with (1 + (length sources + (length kcl + 1)))%nat by lia.
    rewrite !seq_app. simpl. rewrite <- !app_assoc. simpl.
    do 5 f_equal. lia.
  - rewrite map_app, Htitle2, Htitle1, Hkcl. simpl.
    by rewrite <- !app_assoc.
  - eexists. split; [apply last_snoc|]. simpl. by rewrite length_map.
Qed.

End Structure.

End ExplanationFacts.
